(** * Koishi core: session dispatch engine and shared cache

    A shallow embedding of [packages/core/src/internal.ts]:
    the reference-counted [SharedCache], the nickname / prefix
    stripping of [Internal._process], the attach pipeline, and the
    middleware dispatch loop of [Internal._handleMessage].

    JavaScript strings are sequences of UTF-16 code units; they are
    modelled as [list N].  Dictionaries created with
    [Object.create(null)] are modelled as stdpp finite maps.

    The pattern [prepare] builds for the nicknames and the dialogue
    utilities the file carries behind the core (the validators of id
    lists, [equal] and [Dialogue.update]) are embedded behind the
    dispatch loop, with regular expressions as syntax trees. *)

From Stdlib Require Import ZArith NArith List Lia Ascii String.
From Stdlib Require Import Relations Wellfounded Permutation.
From stdpp Require Import base option list functions gmap fin_maps fin_sets
  sorting.

Open Scope Z_scope.

(** ** JavaScript strings *)

Definition JsString : Type := list N.

(** Code units of a source literal made of ASCII characters only. *)
Fixpoint js (s : string) : JsString :=
  match s with
  | EmptyString => []
  | String c r => N_of_ascii c :: js r
  end.

(** ** SharedCache (internal.ts, class SharedCache) *)

Module SharedCache.

Section Cache.
Context {T : Type}.

(** [SharedCache.Entry<T>]: the value, its key, and the set of
    referrers currently holding it. *)
Record Entry : Type := mkEntry {
  value : T;
  key : JsString;
  refs : gset JsString;
}.

(** The private [#keyMap]. *)
Local Abbreviation t := (gmap JsString Entry).

(** [new SharedCache()] *)
Definition empty : t := ∅.

(** [get(ref, key)]: an absent entry yields [undefined] and leaves the
    map alone; a present one records [ref] and yields the value. *)
Definition get (ref k : JsString) (c : t) : option T * t :=
  match c !! k with
  | None => (None, c)
  | Some entry =>
      (Some (value entry),
       <[k := mkEntry (value entry) (key entry) ({[ref]} ∪ refs entry)]> c)
  end.

(** [set(ref, key, value)] *)
Definition set (ref k : JsString) (v : T) (c : t) : t :=
  let entry :=
    match c !! k with
    | Some entry => mkEntry v (key entry) (refs entry)
    | None => mkEntry v k ∅
    end in
  <[k := mkEntry (value entry) (key entry) ({[ref]} ∪ refs entry)]> c.

(** [refs.delete(ref)] on the entry the loop of [delete(ref)] is at:
    the entry with [ref] removed, or [None] when no referrer is left
    ([!refs.size]). *)
Definition release (ref : JsString) (entry : Entry) : option Entry :=
  let refs' := refs entry ∖ {[ref]} in
  if decide (size refs' = 0%nat) then None
  else Some (mkEntry (value entry) (key entry) refs').

(** One iteration of the [for (const key in this.#keyMap)] loop: the
    entry loses [ref], and the key is deleted when the set is empty. *)
Definition visit (ref k : JsString) (entry : Entry) (c : t) : t :=
  match release ref entry with
  | Some entry' => <[k := entry']> c
  | None => base.delete k c
  end.

(** [delete(ref)]: the loop visits every key the map has on entry. *)
Definition delete (ref : JsString) (c : t) : t := map_fold (visit ref) c c.

(** Calls made on a cache by its clients. *)
Inductive Op : Type :=
| OpGet (ref k : JsString)
| OpSet (ref k : JsString) (v : T)
| OpDelete (ref : JsString).

Definition step (c : t) (o : Op) : t :=
  match o with
  | OpGet ref k => snd (get ref k c)
  | OpSet ref k v => set ref k v c
  | OpDelete ref => delete ref c
  end.

Definition run (ops : list Op) (c : t) : t := fold_left step ops c.

(** [touches r k o]: [o] is a [get] or a [set] of key [k] made under
    referrer [r]. *)
Definition touches (r k : JsString) (o : Op) : Prop :=
  match o with
  | OpGet ref k' => ref = r ∧ k' = k
  | OpSet ref k' _ => ref = r ∧ k' = k
  | OpDelete _ => False
  end.

(** [on_key k o]: [o] is a [get] or a [set] of key [k], by anyone. *)
Definition on_key (k : JsString) (o : Op) : Prop :=
  match o with
  | OpGet _ k' => k' = k
  | OpSet _ k' _ => k' = k
  | OpDelete _ => False
  end.

Definition is_delete_of (r : JsString) (o : Op) : Prop :=
  match o with
  | OpDelete ref => ref = r
  | _ => False
  end.

(** [holds r k c]: referrer [r] is recorded on the entry of [k]. *)
Definition holds (r k : JsString) (c : t) : Prop :=
  ∃ entry, c !! k = Some entry ∧ r ∈ refs entry.

(** [sole r k c]: no referrer but [r] is recorded on the entry of
    [k]. *)
Definition sole (r k : JsString) (c : t) : Prop :=
  forall entry, c !! k = Some entry -> refs entry ⊆ {[r]}.

(** A call that registers the referrer: any [set], or a [get] that
    finds an entry. *)
Definition registers (r k : JsString) (c : t) (o : Op) : Prop :=
  match o with
  | OpGet ref k' => ref = r ∧ k' = k ∧ is_Some (c !! k)
  | OpSet ref k' _ => ref = r ∧ k' = k
  | OpDelete _ => False
  end.

End Cache.

Arguments Entry : clear implicits.
Arguments Op : clear implicits.

(** The type of the private [#keyMap] of a [SharedCache<T>]. *)
Abbreviation t T := (gmap JsString (Entry T)).

End SharedCache.

(** ** String primitives used by the message parser *)

Module Js.

(** ECMAScript WhiteSpace and LineTerminator code units: what [\s]
    matches and what [trim] removes. *)
Definition is_space (c : N) : bool :=
  ((9 <=? c) && (c <=? 13) || (c =? 32) || (c =? 160) || (c =? 5760)
   || (8192 <=? c) && (c <=? 8202) || (c =? 8232) || (c =? 8233)
   || (c =? 8239) || (c =? 8287) || (c =? 12288) || (c =? 65279))%N.

(** [s.trimStart()] *)
Fixpoint trimStart (s : JsString) : JsString :=
  match s with
  | c :: r => if is_space c then trimStart r else s
  | [] => []
  end.

(** [s.trim()] *)
Definition trim (s : JsString) : JsString :=
  rev (trimStart (rev (trimStart s))).

(** [s.startsWith(p)] *)
Fixpoint startsWith (p s : JsString) : bool :=
  match p, s with
  | [], _ => true
  | a :: p', b :: s' => (a =? b)%N && startsWith p' s'
  | _ :: _, [] => false
  end.

(** [s.slice(n)] for [0 <= n]. *)
Definition slice (n : nat) (s : JsString) : JsString := drop n s.

(** Truthiness of a string: only the empty string is falsy. *)
Definition truthy (s : JsString) : bool :=
  match s with [] => false | _ => true end.

Definition eqb (a b : JsString) : bool := bool_decide (a = b).

Definition comma : N := 44%N.
(** U+FF0C, the full-width comma. *)
Definition wide_comma : N := 65292%N.

(** Longest run of white space at the head of [s]: what [\s*]
    consumes. *)
Fixpoint spaces (s : JsString) : JsString :=
  match s with
  | c :: r => if is_space c then c :: spaces r else []
  | [] => []
  end.

(** [/^([,，]\s*|\s+)/.exec(rest)]: the matched text [capture[0]], or
    [None] for a failed match. *)
Definition exec_separator (rest : JsString) : option JsString :=
  match rest with
  | c :: r =>
      if ((c =? comma) || (c =? wide_comma))%N then Some (c :: spaces r)
      else if is_space c then Some (spaces rest)
      else None
  | [] => None
  end.

End Js.

(** ** Configuration and session data *)

(** A configuration value of type [string | string[]] that may be
    left out. *)
Inductive StringOrArray : Type :=
| Missing
| Single (s : JsString)
| Array (l : list JsString).

(** [makeArray] of [@koishijs/utils]. *)
Definition makeArray (v : StringOrArray) : list JsString :=
  match v with
  | Missing => []
  | Single s => [s]
  | Array l => l
  end.

(** A message element: its [type], and the [id] and [content]
    attributes the parser looks at. *)
Record Element : Type := mkElement {
  el_type : JsString;
  el_id : option JsString;
  el_content : JsString;
}.

Inductive Subtype : Type := Group | Private.

Record Session : Type := mkSession {
  id : JsString;
  selfId : JsString;
  userId : JsString;
  guildId : JsString;
  subtype : Subtype;
  content : JsString;
  elements : option (list Element);
}.

(** [session.parsed] *)
Record Parsed : Type := mkParsed {
  p_content : JsString;
  p_appel : bool;
  p_prefix : option JsString;
}.

(** [Internal.Config], with [prefix] already resolved for the session
    by [session.resolveValue]. *)
Record Config : Type := mkConfig {
  nickname : StringOrArray;
  prefix : Session -> StringOrArray;
}.

(** Helpers of [@satorijs/core] the parser calls. *)
Record Segment : Type := mkSegment {
  escape : JsString -> JsString;
  parse : JsString -> list Element;
  toString : Element -> JsString;
}.

Module Parser.

Section Parser.
Variable config : Config.
Variable segment : Segment.

(** [Internal._resolvePrefixes] *)
Definition _resolvePrefixes (session : Session) : list JsString :=
  let result :=
    match prefix config session with
    | Array l => l
    | Single s => [s]   (* [s || ''] is [s] in both cases *)
    | Missing => [[]]
    end in
  map (escape segment) result.

(** The [for] loop of [Internal._stripNickname]. *)
Fixpoint strip_loop (nicknames : list JsString) (content : JsString)
  : option JsString :=
  match nicknames with
  | [] => None
  | nick :: more =>
      if negb (Js.startsWith nick content) then strip_loop more content
      else
        let rest := Js.slice (length nick) content in
        match Js.exec_separator rest with
        | None => strip_loop more content
        | Some capture => Some (Js.slice (length capture) rest)
        end
  end.

(** [Internal._stripNickname] *)
Definition _stripNickname (content : JsString) : option JsString :=
  let content :=
    if Js.startsWith (js "@") content then Js.slice 1 content else content in
  strip_loop (makeArray (nickname config)) content.

(** Local variables of [_process] while the message is parsed. *)
Record Vars : Type := mkVars {
  v_atSelf : bool;
  v_appel : bool;
  v_hasMention : bool;
  v_content : JsString;
  v_prefix : option JsString;
}.

Definition join (els : list Element) : JsString :=
  concat (map (toString segment) els).

Definition is_at (e : Element) : bool := Js.eqb (el_type e) (js "at").

Definition is_blank_text (e : Element) : bool :=
  Js.eqb (el_type e) (js "text") && negb (Js.truthy (Js.trim (el_content e))).

(** The [while (elements[0]?.type === 'at')] loop. *)
Fixpoint strip_mentions (self : JsString) (els : list Element) (v : Vars)
  : Vars :=
  match els with
  | e :: rest =>
      if is_at e then
        let hit := bool_decide (el_id e = Some self) in
        let v' := mkVars (v_atSelf v || hit) (v_appel v || hit) true
                         (Js.trimStart (join rest)) (v_prefix v) in
        match rest with
        | t :: rest' =>
            if is_blank_text t then strip_mentions self rest' v'
            else strip_mentions self rest v'
        | [] => v'
        end
      else v
  | [] => v
  end.

(** The [for (const _prefix of ...)] loop of [_process]. *)
Fixpoint strip_prefixes (prefixes : list JsString) (v : Vars) : Vars :=
  match prefixes with
  | [] => v
  | _prefix :: more =>
      if negb (Js.startsWith _prefix (v_content v)) then strip_prefixes more v
      else
        strip_prefixes more
          (mkVars (v_atSelf v) (v_appel v) (v_hasMention v)
                  (Js.slice (length _prefix) (v_content v)) (Some _prefix))
  end.

(** The nickname step inside [if (!hasMention || atSelf)]. *)
Definition strip_nickname_step (v : Vars) : Vars :=
  match _stripNickname (v_content v) with
  | Some result =>
      if Js.truthy result then
        mkVars (v_atSelf v) true (v_hasMention v) result (v_prefix v)
      else v
  | None => v
  end.

(** [session.elements ??= segment.parse(content)] *)
Definition session_elements (session : Session) : list Element :=
  match elements session with
  | Some els => els
  | None => parse segment (Js.trim (content session))
  end.

(** The parsing half of [Internal._process], up to
    [defineProperty(session, 'parsed', ...)]. *)
Definition parse_vars (session : Session) : Vars :=
  let content := Js.trim (content session) in
  let v := strip_mentions (selfId session) (session_elements session)
             (mkVars false false false content None) in
  if negb (v_hasMention v) || v_atSelf v then
    strip_prefixes (_resolvePrefixes session) (strip_nickname_step v)
  else v.

Definition parsed_of (v : Vars) : Parsed :=
  mkParsed (v_content v) (v_appel v) (v_prefix v).

End Parser.

End Parser.

(** ** Records, errors and collaborators of the dispatch loop *)

(** The fields of an observed channel that [_process] reads or writes. *)
Record Channel : Type := mkChannel {
  c_flag : Z;
  c_assignee : JsString;
  c_guildId : JsString;
}.

(** The fields of an observed user that [_process] reads. *)
Record User : Type := mkUser {
  u_flag : Z;
}.

Definition Param : Type := list (JsString * JsString).

(** What a handler can throw: a [SessionError] with its [path] and
    [param], or any other error (kept as its message). *)
Inductive Error : Type :=
| SessionError (path : StringOrArray) (param : Param)
| OtherError (message : JsString).

(** [void | Fragment] *)
Definition Result : Type := option JsString.

Definition truthy_result (r : Result) : bool :=
  match r with
  | Some f => Js.truthy f
  | None => false
  end.

Inductive Kind : Type := KUser | KChannel | KGuild.

(** Effects of a dispatch that an observer can see, in order. *)
Inductive Event : Type :=
| Invoked (position : nat)
| Emitted (name : JsString)
| Warned (message : JsString)
| Sent (fragment : JsString)
| Unregistered (session_id : JsString)
| ReleasedUser (ref : JsString)
| ReleasedChannel (ref : JsString)
| Updated (kind : Kind).

Module Next.
(** [Next.MAX_DEPTH] *)
Definition MAX_DEPTH : nat := 64.
End Next.

(** ToInt32 and the [&] operator on integral numbers. *)
Definition to_int32 (x : Z) : Z := (x + 2 ^ 31) mod 2 ^ 32 - 2 ^ 31.
Definition bit_and (a b : Z) : Z := Z.land (to_int32 a) (to_int32 b).

(** Everything [Internal] gets from the rest of the system: the
    configuration, the satori helpers, the database, the event bus
    verdicts of [ctx.serial], localisation, and the outcome of the
    awaited I/O calls. *)
Record Env : Type := mkEnv {
  config : Config;
  segment : Segment;
  database : bool;
  Channel_Flag_ignore : Z;
  User_Flag_ignore : Z;
  channel_key : Session -> JsString;
  user_key : Session -> JsString;
  load_channel : Session -> Channel;
  load_user : Session -> User;
  serial : JsString -> Session -> bool;
  text : StringOrArray -> Param -> JsString;
  coerce : Error -> JsString;
  send_error : JsString -> option Error;
  update_error : Kind -> option Error;
}.

(** ** Handlers *)

(** A middleware, already bound to its session, as the tree of the
    calls it makes: it returns, throws, performs one of the effects
    [_process] uses, or awaits [next(callback)] and goes on with the
    result. *)
Inductive Script : Type :=
| Return (r : Result)
| Throw (e : Error)
| Emit (name : JsString) (k : Script)
| Serial (name : JsString) (k : bool -> Script)
| SetParsed (p : Parsed) (k : Script)
| ObserveChannel (k : Channel -> Script)
| AssignGuildId (k : Script)
| ObserveUser (k : User -> Script)
| Send (fragment : JsString) (k : Script)
| AwaitNext (cb : Callback) (k : Result -> Script)
(** [Next.Callback]: [void | string | ((next?) => ...)] *)
with Callback : Type :=
| CbUndefined
| CbFragment (fragment : JsString)
| CbFunction (body : Script).

(** [next => Next.compose(callback, next)], the entry pushed for a
    callback that is not [undefined]. *)
Definition compose (cb : Callback) : option Script :=
  match cb with
  | CbUndefined => None
  | CbFragment f => Some (Return (Some f))
  | CbFunction body => Some body
  end.

(** [callback !== undefined] *)
Definition is_defined (cb : Callback) : bool :=
  match cb with
  | CbUndefined => false
  | _ => true
  end.

(** An element of [_hooks]: the registering context's filter and the
    middleware. *)
Record Hook : Type := mkHook {
  h_filter : Session -> bool;
  h_middleware : Session -> Script;
}.

(** The state a dispatch works on: the fields of [Internal], the
    closure variables [queue] and [index] of [_handleMessage], the
    properties set on the session, and the effects so far. *)
Record State : Type := mkState {
  _sessions : gmap JsString Session;
  _userCache : SharedCache.t User;
  _channelCache : SharedCache.t Channel;
  queue : list Script;
  index : nat;
  parsed : option Parsed;
  user : option User;
  channel : option Channel;
  guild : bool;
  log : list Event;
}.

Inductive Outcome : Type :=
| Value (r : Result)
| Raise (e : Error).

(** ** State updates *)

Definition set_sessions (m : gmap JsString Session) (st : State) : State :=
  mkState m (_userCache st) (_channelCache st) (queue st) (index st)
          (parsed st) (user st) (channel st) (guild st) (log st).

Definition set_userCache (c : SharedCache.t User) (st : State) : State :=
  mkState (_sessions st) c (_channelCache st) (queue st) (index st)
          (parsed st) (user st) (channel st) (guild st) (log st).

Definition set_channelCache (c : SharedCache.t Channel) (st : State) : State :=
  mkState (_sessions st) (_userCache st) c (queue st) (index st)
          (parsed st) (user st) (channel st) (guild st) (log st).

Definition set_queue (q : list Script) (st : State) : State :=
  mkState (_sessions st) (_userCache st) (_channelCache st) q (index st)
          (parsed st) (user st) (channel st) (guild st) (log st).

Definition set_index (i : nat) (st : State) : State :=
  mkState (_sessions st) (_userCache st) (_channelCache st) (queue st) i
          (parsed st) (user st) (channel st) (guild st) (log st).

Definition set_parsed (p : option Parsed) (st : State) : State :=
  mkState (_sessions st) (_userCache st) (_channelCache st) (queue st)
          (index st) p (user st) (channel st) (guild st) (log st).

Definition set_user (u : option User) (st : State) : State :=
  mkState (_sessions st) (_userCache st) (_channelCache st) (queue st)
          (index st) (parsed st) u (channel st) (guild st) (log st).

Definition set_channel (c : option Channel) (st : State) : State :=
  mkState (_sessions st) (_userCache st) (_channelCache st) (queue st)
          (index st) (parsed st) (user st) c (guild st) (log st).

Definition emit (e : Event) (st : State) : State :=
  mkState (_sessions st) (_userCache st) (_channelCache st) (queue st)
          (index st) (parsed st) (user st) (channel st) (guild st)
          (log st ++ [e]).

(** ** The dispatch loop *)

Module Internal.

Section Dispatch.
Variable env : Env.
Variable session : Session.

Definition isolated : Error :=
  OtherError (js "isolated next function detected").

Definition exceeded : Error :=
  OtherError (js "middleware stack exceeded 64").

(** Modelled from the spec: [session.observeChannel], which lives in
    session.ts.  The record is looked up in the channel cache under
    the session id as referrer; when absent it is loaded and stored
    with [set].  The record becomes [session.channel]. *)
Definition observeChannel (st : State) : Channel * State :=
  let k := channel_key env session in
  match SharedCache.get (id session) k (_channelCache st) with
  | (Some c, cache) => (c, set_channel (Some c) (set_channelCache cache st))
  | (None, _) =>
      let c := load_channel env session in
      (c, set_channel (Some c)
            (set_channelCache
               (SharedCache.set (id session) k c (_channelCache st)) st))
  end.

(** Modelled from the spec: [session.observeUser], as above with the
    user cache. *)
Definition observeUser (st : State) : User * State :=
  let k := user_key env session in
  match SharedCache.get (id session) k (_userCache st) with
  | (Some u, cache) => (u, set_user (Some u) (set_userCache cache st))
  | (None, _) =>
      let u := load_user env session in
      (u, set_user (Some u)
            (set_userCache
               (SharedCache.set (id session) k u (_userCache st)) st))
  end.

(** [channel.guildId = session.guildId]: the observed record is the
    object the cache entry holds, so the entry sees the write too. *)
Definition assignGuildId (st : State) : State :=
  match channel st with
  | None => st
  | Some c =>
      let c' := mkChannel (c_flag c) (c_assignee c) (guildId session) in
      set_channel (Some c')
        (set_channelCache
           (alter (fun e => SharedCache.mkEntry c' (SharedCache.key e)
                                               (SharedCache.refs e))
                  (channel_key env session) (_channelCache st)) st)
  end.

(** The [catch] clause of [next]: a [SessionError] becomes the
    localised text, anything else is logged as a warning. *)
Definition catch (o : Outcome) (st : State) : Outcome * State :=
  match o with
  | Value r => (Value r, st)
  | Raise (SessionError path param) => (Value (Some (text env path param)), st)
  | Raise error =>
      (Value None,
       emit (Warned (content session ++ js (String "010" "")
                       ++ coerce env error)) st)
  end.

(** [queue.push(next => Next.compose(callback, next))] *)
Definition push (callback : Callback) (st : State) : State :=
  match compose callback with
  | Some entry => set_queue (queue st ++ [entry]) st
  | None => st
  end.

(** [return await queue[index++]?.(next)], given how a queued handler
    runs. *)
Definition advance (call : Script -> State -> option (Outcome * State))
    (st : State) : option (Outcome * State) :=
  let i := index st in
  let st' := set_index (S i) st in
  match queue st !! i with
  | Some handler => call handler (emit (Invoked i) st')
  | None => Some (Value None, st')
  end.

(** The [try] block of [next]. *)
Definition next_try (call : Script -> State -> option (Outcome * State))
    (callback : Callback) (st : State) : option (Outcome * State) :=
  if decide (_sessions st !! id session = None) then Some (Raise isolated, st)
  else
    let pushed := push callback st in
    if is_defined callback
       && (Next.MAX_DEPTH <? length (queue pushed))%nat
    then Some (Raise exceeded, pushed)
    else advance call pushed.

(** [next] *)
Definition next_with (call : Script -> State -> option (Outcome * State))
    (callback : Callback) (st : State) : option (Outcome * State) :=
  match next_try call callback st with
  | Some (o, st') => Some (catch o st')
  | None => None
  end.

(** Running a handler; [fuel] bounds the nesting of calls. *)
Fixpoint run (fuel : nat) (s : Script) (st : State)
  : option (Outcome * State) :=
  match fuel with
  | O => None
  | S fuel =>
      match s with
      | Return r => Some (Value r, st)
      | Throw e => Some (Raise e, st)
      | Emit name k => run fuel k (emit (Emitted name) st)
      | Serial name k => run fuel (k (serial env name session)) st
      | SetParsed p k => run fuel k (set_parsed (Some p) st)
      | ObserveChannel k =>
          let (c, st') := observeChannel st in run fuel (k c) st'
      | AssignGuildId k => run fuel k (assignGuildId st)
      | ObserveUser k =>
          let (u, st') := observeUser st in run fuel (k u) st'
      | Send f k =>
          match send_error env f with
          | Some e => Some (Raise e, st)
          | None => run fuel k (emit (Sent f) st)
          end
      | AwaitNext cb k =>
          match next_with (run fuel) cb st with
          | Some (Value r, st') => run fuel (k r) st'
          | Some (Raise e, st') => Some (Raise e, st')
          | None => None
          end
      end
  end.

Definition next (fuel : nat) : Callback -> State -> option (Outcome * State) :=
  next_with (run fuel).

(** The end of [_process]: the ["attach"] event, then
    [return next()]. *)
Definition finish : Script :=
  Emit (js "attach") (AwaitNext CbUndefined Return).

(** The user stage of [_process]: observe the user, let the
    ["attach-user"] listeners veto, stop on an ignored user. *)
Definition attach_user : Script :=
  Emit (js "before-attach-user")
    (ObserveUser (fun user =>
       Serial (js "attach-user") (fun bail =>
         if bail then Return None
         else if negb (bit_and (u_flag user) (User_Flag_ignore env) =? 0)
         then Return None
         else finish))).

(** The channel stage of [_process], entered for group messages:
    observe the channel, let the ["attach-channel"] listeners veto,
    stop on an ignored channel or on a channel assigned to another bot
    that did not mention this one. *)
Definition attach_channel (atSelf : bool) : Script :=
  Emit (js "before-attach-channel")
    (ObserveChannel (fun channel =>
       AssignGuildId
         (Serial (js "attach-channel") (fun bail =>
            if bail then Return None
            else if negb (bit_and (c_flag channel)
                            (Channel_Flag_ignore env) =? 0)
            then Return None
            else if negb (Js.eqb (c_assignee channel) (selfId session))
                    && negb atSelf
            then Return None
            else attach_user)))).

(** [Internal._process], the first middleware the constructor
    registers: it parses the message, walks the attach pipeline, and
    ends with [return next()] unless a gate returns first. *)
Definition _process : Script :=
  let v := Parser.parse_vars (config env) (segment env) session in
  SetParsed (Parser.parsed_of v)
    (Emit (js "before-attach")
       (if database env then
          match subtype session with
          | Group => attach_channel (Parser.v_atSelf v)
          | Private => attach_user
          end
        else finish)).

(** [await record?.$update()] for one of the observed records. *)
Definition update (present : bool) (kind : Kind) (st : State)
  : option Error * State :=
  if present then
    match update_error env kind with
    | Some e => (Some e, st)
    | None => (None, emit (Updated kind) st)
    end
  else (None, st).

(** The [finally] block of [_handleMessage]: the error it throws, if
    any, and the state it leaves. *)
Definition finalizer (st : State) : option Error * State :=
  let st := emit (Unregistered (id session))
              (set_sessions (delete (id session) (_sessions st)) st) in
  let st := emit (Emitted (js "middleware")) st in
  let st := emit (ReleasedUser (id session))
              (set_userCache
                 (SharedCache.delete (id session) (_userCache st)) st) in
  let st := emit (ReleasedChannel (id session))
              (set_channelCache
                 (SharedCache.delete (id session) (_channelCache st)) st) in
  match update (bool_decide (user st <> None)) KUser st with
  | (Some e, st) => (Some e, st)
  | (None, st) =>
      match update (bool_decide (channel st <> None)) KChannel st with
      | (Some e, st) => (Some e, st)
      | (None, st) => update (guild st) KGuild st
      end
  end.

(** The rest of the [try] block of [_handleMessage] once
    [await next()] has settled: [if (result) await session.send(result)].
    It yields the error leaving the block, if any. *)
Definition reply (o : Outcome) (st : State) : option Error * State :=
  match o with
  | Raise e => (Some e, st)
  | Value None => (None, st)
  | Value (Some fragment) =>
      if Js.truthy fragment then
        match send_error env fragment with
        | Some e => (Some e, st)
        | None => (None, emit (Sent fragment) st)
        end
      else (None, st)
  end.

(** The queue [_handleMessage] builds from [_hooks]. *)
Definition build_queue (hooks : list Hook) : list Script :=
  map (fun h => h_middleware h session)
      (List.filter (fun h => h_filter h session) hooks).

(** [Internal._handleMessage]: the error the returned promise rejects
    with, if any, and the final state. *)
Definition _handleMessage (fuel : nat) (hooks : list Hook) (st : State)
  : option (option Error * State) :=
  if bool_decide (selfId session = userId session) then Some (None, st)
  else
    let st := set_sessions (<[id session := session]> (_sessions st)) st in
    let st := set_index 0 (set_queue (build_queue hooks) st) in
    match next fuel CbUndefined st with
    | None => None
    | Some (o, st) =>
        let '(thrown, st) := reply o st in
        match finalizer st with
        | (Some e, st) => Some (Some e, st)
        | (None, st) => Some (thrown, st)
        end
    end.

End Dispatch.

End Internal.

(** ** Vocabulary of the properties *)

(** The positions of the queue whose handler was called, in order. *)
Definition invoked (events : list Event) : list nat :=
  omap (fun e => match e with Invoked i => Some i | _ => None end) events.

(** The replies delivered through [session.send], in order. *)
Definition sent (events : list Event) : list JsString :=
  omap (fun e => match e with Sent f => Some f | _ => None end) events.

(** The warnings written to the session logger, in order. *)
Definition warned (events : list Event) : list JsString :=
  omap (fun e => match e with Warned m => Some m | _ => None end) events.

(** The session ids removed from [_sessions], in order. *)
Definition unregistered (events : list Event) : list JsString :=
  omap (fun e => match e with Unregistered i => Some i | _ => None end) events.

(** The referrers released from the user cache, in order. *)
Definition released_user (events : list Event) : list JsString :=
  omap (fun e => match e with ReleasedUser r => Some r | _ => None end) events.

(** The referrers released from the channel cache, in order. *)
Definition released_channel (events : list Event) : list JsString :=
  omap (fun e => match e with ReleasedChannel r => Some r | _ => None end)
       events.

(** The records flushed with [$update], in order. *)
Definition updated (events : list Event) : list Kind :=
  omap (fun e => match e with Updated k => Some k | _ => None end) events.

(** The events a handler can cause; the teardown events are not among
    them. *)
Definition handler_event (e : Event) : Prop :=
  match e with
  | Invoked _ | Emitted _ | Warned _ | Sent _ => True
  | _ => False
  end.

(** [flag_set flag mask]: [mask] is a single bit of a 32-bit word and
    [flag] has that bit. *)
Definition flag_set (flag mask : Z) : Prop :=
  exists b, 0 <= b < 32 /\ mask = 2 ^ b /\ Z.testbit flag b = true.

(** The record [session.observeChannel] attaches in a given state. *)
Definition attached_channel (env : Env) (session : Session) (st : State)
  : Channel :=
  fst (Internal.observeChannel env session st).

(** The record [session.observeUser] attaches in a given state. *)
Definition attached_user (env : Env) (session : Session) (st : State)
  : User :=
  fst (Internal.observeUser env session st).

(** [ascending a l b]: the positions [l] increase strictly and lie in
    the interval from [a] up to, but not including, [b]; and [a <= b]. *)
Fixpoint ascending (a : nat) (l : list nat) (b : nat) : Prop :=
  match l with
  | [] => (a <= b)%nat
  | i :: l' => (a <= i)%nat /\ ascending (S i) l' b
  end.

(** [evolves st st']: what running handlers can do to the state.  The
    session table is left alone, the queue only grows at its end, the
    cursor only moves forward, and the log gains handler events whose
    invoked positions ascend between the two cursors. *)
Definition evolves (st st' : State) : Prop :=
  _sessions st' = _sessions st /\
  (exists pushed, queue st' = queue st ++ pushed) /\
  exists new, log st' = log st ++ new /\
              Forall handler_event new /\
              ascending (index st) (invoked new) (index st').

(** [sound call]: every answer of [call] is an evolution of the state
    it was asked in. *)
Definition sound (call : Script -> State -> option (Outcome * State)) : Prop :=
  forall s st o st', call s st = Some (o, st') -> evolves st st'.

(** The state after the callbacks [cbs] were pushed one after the
    other. *)
Definition pushes (cbs : list Callback) (st : State) : State :=
  fold_left (fun st cb => Internal.push cb st) cbs st.

(** What [if (result) await session.send(result)] delivers for the
    result of the top-level [next]. *)
Definition delivered (env : Env) (r : Result) : list JsString :=
  match r with
  | Some fragment =>
      if Js.truthy fragment then
        match send_error env fragment with
        | None => [fragment]
        | Some _ => []
        end
      else []
  | None => []
  end.

(** The state in which [_handleMessage] makes the top-level call of
    [next]: the session is registered, the queue is built, the cursor
    is at its start. *)
Definition entry_state (session : Session) (hooks : list Hook) (st : State)
  : State :=
  set_index 0
    (set_queue (Internal.build_queue session hooks)
       (set_sessions (<[id session := session]> (_sessions st)) st)).

(** The events of the attach stages a gated [_process] goes through
    after ["before-attach"]: for a group message the channel stage,
    followed by the user stage when the channel gates let the message
    pass; for a private message the user stage alone.  The ["attach"]
    event, which precedes [next()], is not among them. *)
Definition gate_stages (sub : Subtype) (stages : list Event) : Prop :=
  match sub with
  | Group =>
      stages = [Emitted (js "before-attach-channel")] \/
      stages = [Emitted (js "before-attach-channel");
                Emitted (js "before-attach-user")]
  | Private => stages = [Emitted (js "before-attach-user")]
  end.

(** The content [_stripNickname] compares with the nicknames: a
    leading ["@"] is dropped first. *)
Definition without_at (content : JsString) : JsString :=
  if Js.startsWith (js "@") content then Js.slice 1 content else content.

(** [nickname_matches nick content]: [content] starts with [nick] and
    the separator pattern matches what follows. *)
Definition nickname_matches (nick content : JsString) : bool :=
  Js.startsWith nick content
  && match Js.exec_separator (Js.slice (length nick) content) with
     | Some _ => true
     | None => false
     end.

(** The queue entries the cursor has not reached yet. *)
Definition rest (st : State) : list Script := drop (index st) (queue st).

(** [sub s' s]: [s'] is what handler [s] goes on with after its first
    step, or the entry that step pushes on the queue. *)
Inductive sub : Script -> Script -> Prop :=
| sub_Emit name k : sub k (Emit name k)
| sub_Serial name k b : sub (k b) (Serial name k)
| sub_SetParsed p k : sub k (SetParsed p k)
| sub_ObserveChannel k c : sub (k c) (ObserveChannel k)
| sub_AssignGuildId k : sub k (AssignGuildId k)
| sub_ObserveUser k u : sub (k u) (ObserveUser k)
| sub_Send f k : sub k (Send f k)
| sub_AwaitNext cb k r : sub (k r) (AwaitNext cb k)
| sub_callback cb k entry :
    compose cb = Some entry -> sub entry (AwaitNext cb k).

(** [shrink l' l]: [l'] is [l] with one handler replaced by finitely
    many of its [sub]-handlers, up to the order of the elements. *)
Inductive shrink : list Script -> list Script -> Prop :=
| shrink_intro l l' x others ys :
    l ≡ₚ x :: others -> l' ≡ₚ ys ++ others ->
    Forall (fun y => sub y x) ys ->
    shrink l' l.

Definition below : list Script -> list Script -> Prop :=
  clos_trans (list Script) shrink.

(** [call'] answers wherever [call] does, with the same answer. *)
Definition extends (call call' : Script -> State -> option (Outcome * State))
  : Prop :=
  forall s st res, call s st = Some res -> call' s st = Some res.

Scheme Script_mut := Induction for Script Sort Prop
  with Callback_mut := Induction for Callback Sort Prop.

(** ** Sample collaborators and handlers *)

Module Sample.

(** [segment.escape] of satori: the three characters with a meaning in
    element syntax are replaced by entities. *)
Fixpoint escape (s : JsString) : JsString :=
  match s with
  | [] => []
  | c :: r =>
      (if (c =? 38)%N then js "&amp;"
       else if (c =? 60)%N then js "&lt;"
       else if (c =? 62)%N then js "&gt;"
       else [c]) ++ escape r
  end.

(** A segment helper for messages without markup: the whole content
    is one text element. *)
Definition segment : Segment :=
  mkSegment escape
            (fun s => [mkElement (js "text") None s])
            (fun e => el_content e).

(** A group message from user [u1] to bot [bot]. *)
Definition message (text : string) : Session :=
  mkSession (js "s1") (js "bot") (js "u1") (js "g1") Group (js text) None.

(** A message the bot sent itself. *)
Definition echo : Session :=
  mkSession (js "s2") (js "bot") (js "bot") (js "g1") Group (js "hi") None.

Definition config (nick : StringOrArray) (prefixes : list JsString) : Config :=
  mkConfig nick (fun _ => Array prefixes).

(** An environment with a database whose channel and user records carry
    the given flags, with [Flag.ignore = 1] for both, and where no I/O
    call fails. *)
Definition env (channel_flag user_flag : Z) : Env :=
  mkEnv (config (Single (js "Bot")) [[]]) segment true 1 1
        (fun _ => js "c1") (fun s => userId s)
        (fun s => mkChannel channel_flag (selfId s) [])
        (fun _ => mkUser user_flag)
        (fun _ _ => false)
        (fun path _ => match path with
                       | Single s => js "text:" ++ s
                       | Array (s :: _) => js "text:" ++ s
                       | _ => []
                       end)
        (fun e => match e with
                  | OtherError m => m
                  | SessionError _ _ => js "SessionError"
                  end)
        (fun _ => None) (fun _ => None).

(** A fresh [Internal] and a session without attached records. *)
Definition fresh : State := mkState ∅ ∅ ∅ [] 0 None None None false [].

(** A hook registered on the root context. *)
Definition hook (s : Script) : Hook := mkHook (fun _ => true) (fun _ => s).

(** A handler that replies with a fixed fragment. *)
Definition reply_with (text : string) : Script := Return (Some (js text)).

(** A handler that hands a literal continuation over and returns what
    [next] yields: [return next(text)]. *)
Definition continue_with (text : string) : Script :=
  AwaitNext (CbFragment (js text)) Return.

(** A handler that awaits [next()] and drops its result. *)
Definition await_and_drop : Script :=
  AwaitNext CbUndefined (fun _ => Return None).

(** A handler that hands over a continuation that does the same, [n]
    levels deep: each level pushes one entry and returns what [next]
    yields. *)
Fixpoint chain (n : nat) : Script :=
  match n with
  | O => Return None
  | S n => AwaitNext (CbFunction (chain n)) Return
  end.

(** A handler that throws the permission error. *)
Definition deny : Script :=
  Throw (SessionError (Single (js "errors.no-permission")) []).

End Sample.

(** ** Vocabulary of the cache releases and of the teardown *)

(** [by_one_of rs o]: the operation [o], when it takes a hold, takes
    it for one of the referrers [rs]. *)
Definition by_one_of {T} (rs : list JsString) (o : SharedCache.Op T) : Prop :=
  match o with
  | SharedCache.OpGet r _ => r ∈ rs
  | SharedCache.OpSet r _ _ => r ∈ rs
  | SharedCache.OpDelete _ => True
  end.

(** [delete] for each of the referrers [rs], one after the other. *)
Definition delete_all {T} (rs : list JsString) (c : SharedCache.t T)
  : SharedCache.t T :=
  fold_left (fun c r => SharedCache.delete r c) rs c.

(** The observed records [_handleMessage] flushes at teardown, in the
    order of its [$update] calls. *)
Definition attached (st : State) : list Kind :=
  (if bool_decide (user st <> None) then [KUser] else [])
  ++ (if bool_decide (channel st <> None) then [KChannel] else [])
  ++ (if guild st then [KGuild] else []).

(** Awaiting the updates of [kinds] one after the other: the error of
    the first one that fails, and the kinds updated before it. *)
Fixpoint flush (env : Env) (kinds : list Kind) : option Error * list Kind :=
  match kinds with
  | [] => (None, [])
  | kind :: kinds' =>
      match update_error env kind with
      | Some e => (Some e, [])
      | None => let (e, done) := flush env kinds' in (e, kind :: done)
      end
  end.

(** The error [if (result) await session.send(result)] throws. *)
Definition send_failure (env : Env) (r : Result) : option Error :=
  match r with
  | Some fragment =>
      if Js.truthy fragment then send_error env fragment else None
  | None => None
  end.

(** The state after the updates of [kinds] were logged. *)
Definition emit_all (kinds : list Kind) (st : State) : State :=
  fold_left (fun s k => emit (Updated k) s) kinds st.

(** The events emitted on the context, in order. *)
Definition emitted (events : list Event) : list JsString :=
  omap (fun e => match e with Emitted n => Some n | _ => None end) events.

(** ** Vocabulary of the handlers that pass a message on *)

(** [forwards env session s st st1]: run from state [st], the handler
    [s] emits events, stores the parsed message, consults listeners or
    attaches records, which takes it to state [st1], and there it ends
    with [return next()]. *)
Inductive forwards (env : Env) (session : Session)
  : Script -> State -> State -> Prop :=
| forwards_next st :
    forwards env session (AwaitNext CbUndefined Return) st st
| forwards_Emit name k st st1 :
    forwards env session k (emit (Emitted name) st) st1 ->
    forwards env session (Emit name k) st st1
| forwards_Serial name k st st1 :
    forwards env session (k (serial env name session)) st st1 ->
    forwards env session (Serial name k) st st1
| forwards_SetParsed p k st st1 :
    forwards env session k (set_parsed (Some p) st) st1 ->
    forwards env session (SetParsed p k) st st1
| forwards_ObserveChannel k st st1 :
    forwards env session
      (k (fst (Internal.observeChannel env session st)))
      (snd (Internal.observeChannel env session st)) st1 ->
    forwards env session (ObserveChannel k) st st1
| forwards_AssignGuildId k st st1 :
    forwards env session k (Internal.assignGuildId env session st) st1 ->
    forwards env session (AssignGuildId k) st st1
| forwards_ObserveUser k st st1 :
    forwards env session
      (k (fst (Internal.observeUser env session st)))
      (snd (Internal.observeUser env session st)) st1 ->
    forwards env session (ObserveUser k) st st1.

(** [relayed env session handlers st st1]: a call of [next()] made in
    state [st] invokes the first of [handlers], which sit in the queue
    from the cursor on; each of them forwards to the one behind it, and
    the last one makes its call of [next()] in state [st1]. *)
Inductive relayed (env : Env) (session : Session)
  : list Script -> State -> State -> Prop :=
| relayed_nil st : relayed env session [] st st
| relayed_cons handler handlers st st1 st2 :
    forwards env session handler
      (emit (Invoked (index st)) (set_index (S (index st)) st)) st1 ->
    relayed env session handlers st1 st2 ->
    relayed env session (handler :: handlers) st st2.

(** ** More sample collaborators *)

Module Scenario.

(** [env] with or without a database. *)
Definition with_database (db : bool) (env : Env) : Env :=
  mkEnv (config env) (segment env) db (Channel_Flag_ignore env)
        (User_Flag_ignore env) (channel_key env) (user_key env)
        (load_channel env) (load_user env) (serial env) (text env)
        (coerce env) (send_error env) (update_error env).

(** [env] with the channel records of another database. *)
Definition with_channel (load : Session -> Channel) (env : Env) : Env :=
  mkEnv (config env) (segment env) (database env) (Channel_Flag_ignore env)
        (User_Flag_ignore env) (channel_key env) (user_key env)
        load (load_user env) (serial env) (text env)
        (coerce env) (send_error env) (update_error env).

(** [env] with other listeners on the serial events. *)
Definition with_serial (listeners : JsString -> Session -> bool) (env : Env)
  : Env :=
  mkEnv (config env) (segment env) (database env) (Channel_Flag_ignore env)
        (User_Flag_ignore env) (channel_key env) (user_key env)
        (load_channel env) (load_user env) listeners (text env)
        (coerce env) (send_error env) (update_error env).

(** A group message from user [u1] to bot [bot] that starts with a
    mention of [target], already parsed into its elements. *)
Definition mention (target text : string) : Session :=
  mkSession (js "s3") (js "bot") (js "u1") (js "g1") Group
            (js text)
            (Some [mkElement (js "at") (Some (js target)) [];
                   mkElement (js "text") None (js text)]).

(** A handler that fails with an error of its own. *)
Definition crash (message : string) : Script :=
  Throw (OtherError (js message)).

(** [env] with a database whose updates fail as [failing] says. *)
Definition with_update_error (failing : Kind -> option Error) (env : Env)
  : Env :=
  mkEnv (config env) (segment env) (database env) (Channel_Flag_ignore env)
        (User_Flag_ignore env) (channel_key env) (user_key env)
        (load_channel env) (load_user env) (serial env) (text env)
        (coerce env) (send_error env) failing.

(** A handler that awaits [next()] and then replies with a fixed
    fragment, whatever [next()] returned. *)
Definition reply_after_next (text : string) : Script :=
  AwaitNext CbUndefined (fun _ => Return (Some (js text))).

End Scenario.

(** ** Regular expressions *)

(** The regular expressions of this code, as syntax trees, and what
    [RegExp.prototype.test] answers for them.  None of them has a flag,
    a back reference or a look-around, so whether a match exists does
    not depend on the order in which the alternatives are tried. *)
Module RegExp.

Inductive t : Type :=
| Empty                        (* the empty pattern *)
| Bol                          (* [^] *)
| Eol                          (* [$] *)
| Class (p : N -> bool)        (* one code unit of a class *)
| Seq (r1 r2 : t)              (* [r1r2] *)
| Alt (r1 r2 : t)              (* [r1|r2] *)
| Star (r : t).                (* [r*] *)

(** [r+] *)
Definition Plus (r : t) : t := Seq r (Star r).

(** [r?] *)
Definition Opt (r : t) : t := Alt r Empty.

(** One given code unit. *)
Definition Char (c : N) : t := Class (N.eqb c).

(** A text that stands for itself. *)
Fixpoint Literal (s : JsString) : t :=
  match s with
  | [] => Empty
  | c :: s' => Seq (Char c) (Literal s')
  end.

(** [\d] *)
Definition digit (c : N) : bool := ((48 <=? c) && (c <=? 57))%N.

(** The positions [r*] can stop at from [i], given the positions
    [step j] one round of [r] can stop at from [j].  A round that
    consumes nothing is not repeated, so the positions increase and
    [fuel] rounds are enough for an input of [fuel] code units. *)
Fixpoint star (step : nat -> list nat) (fuel : nat) (i : nat) : list nat :=
  i :: match fuel with
       | O => []
       | S fuel' =>
           step i ≫= (fun j => if (i <? j)%nat then star step fuel' j else [])
       end.

(** The positions of [s] at which a match of [r] that starts at [i] can
    end. *)
Fixpoint ends (s : JsString) (r : t) (i : nat) : list nat :=
  match r with
  | Empty => [i]
  | Bol => if decide (i = 0%nat) then [i] else []
  | Eol => if decide (i = length s) then [i] else []
  | Class p =>
      match s !! i with
      | Some c => if p c then [S i] else []
      | None => []
      end
  | Seq r1 r2 => ends s r1 i ≫= ends s r2
  | Alt r1 r2 => ends s r1 i ++ ends s r2 i
  | Star r => star (ends s r) (length s) i
  end.

(** [r.test(s)]: some match starts at some position of [s]. *)
Definition test (r : t) (s : JsString) : bool :=
  existsb (fun i => match ends s r i with [] => false | _ => true end)
          (seq 0 (S (length s))).

End RegExp.

(** ** Leading pattern of the nicknames (internal.ts) *)

(** [([,，]\s*|\s+)], the separator pattern [prepare] passes on. *)
Definition separator : RegExp.t :=
  RegExp.Alt
    (RegExp.Seq
       (RegExp.Class (fun c => (c =? Js.comma) || (c =? Js.wide_comma))%N)
       (RegExp.Star (RegExp.Class Js.is_space)))
    (RegExp.Plus (RegExp.Class Js.is_space)).

(** [createLeadingRE]: [^prefix(p1|p2|...)suffix], where
    [escapeRegExp] makes each pattern stand for itself, and [/$^/] when
    there is no pattern.  The prefix and the suffix are given as
    patterns, not as their source text. *)
Definition createLeadingRE (patterns : list JsString)
    (prefix suffix : RegExp.t) : RegExp.t :=
  match patterns with
  | [] => RegExp.Seq RegExp.Eol RegExp.Bol
  | p :: more =>
      RegExp.Seq RegExp.Bol
        (RegExp.Seq prefix
           (RegExp.Seq
              (fold_left (fun r q => RegExp.Alt r (RegExp.Literal q)) more
                 (RegExp.Literal p))
              suffix))
  end.

(** [Internal.prepare]: the value it stores in [_nameRE]. *)
Definition prepare (config : Config) : RegExp.t :=
  createLeadingRE (makeArray (nickname config))
    (RegExp.Opt (RegExp.Char 64)) separator.


(** ** Arrays of strings *)

Module JsArray.

(** [array.join(sep)] *)
Fixpoint join (sep : JsString) (l : list JsString) : JsString :=
  match l with
  | [] => []
  | x :: l' =>
      match l' with
      | [] => x
      | _ :: _ => x ++ sep ++ join sep l'
      end
  end.

(** [a <= b] on strings: the order of their code units, which is the
    order [array.sort()] uses without a comparator. *)
Fixpoint leb (a b : JsString) : bool :=
  match a, b with
  | [], _ => true
  | _ :: _, [] => false
  | x :: a', y :: b' => (x <? y)%N || (x =? y)%N && leb a' b'
  end.

Definition le (a b : JsString) : Prop := leb a b = true.

#[global] Instance le_dec (a b : JsString) : Decision (le a b) :=
  decide (leb a b = true).

(** [array.sort()]: the elements in ascending order. *)
Definition sort (array : list JsString) : list JsString :=
  merge_sort le array.

End JsArray.

(** ** Utilities of the dialogue commands *)

Module Teach.

(** [\d+] *)
Definition number : RegExp.t := RegExp.Plus (RegExp.Class RegExp.digit).

(** [\d+(\.\.\d+)?] *)
Definition range : RegExp.t :=
  RegExp.Seq number
    (RegExp.Opt
       (RegExp.Seq (RegExp.Char 46) (RegExp.Seq (RegExp.Char 46) number))).

(** [r(,r)*] *)
Definition list_of (r : RegExp.t) : RegExp.t :=
  RegExp.Seq r (RegExp.Star (RegExp.Seq (RegExp.Char 44) r)).

(** [isGroupIdList]: [!/^\d+(,\d+)*$/.test(value)], for a value given
    as the string it is converted to. *)
Definition isGroupIdList (value : JsString) : bool :=
  negb (RegExp.test
          (RegExp.Seq RegExp.Bol (RegExp.Seq (list_of number) RegExp.Eol))
          value).

(** [isDialogueIdList]:
    [!/^\d+(\.\.\d+)?(,\d+(\.\.\d+)?)*$/.test(value)]. *)
Definition isDialogueIdList (value : JsString) : bool :=
  negb (RegExp.test
          (RegExp.Seq RegExp.Bol (RegExp.Seq (list_of range) RegExp.Eol))
          value).

(** [equal]: the answer, and what the two arrays hold afterwards, as
    [sort] works in place.  The arrays hold strings or numbers, which
    are compared and joined as the strings they convert to; an element
    is given as that string. *)
Definition equal (array1 array2 : list JsString)
  : bool * (list JsString * list JsString) :=
  let array1 := JsArray.sort array1 in
  let array2 := JsArray.sort array2 in
  (Js.eqb (JsArray.join (js ",") array1) (JsArray.join (js ",") array2),
   (array1, array2)).

End Teach.

(** A non-empty run of decimal digits. *)
Definition is_number (w : JsString) : Prop :=
  w <> [] /\ Forall (fun c => RegExp.digit c = true) w.

(** A number, or two numbers with [..] in between. *)
Definition is_range (w : JsString) : Prop :=
  is_number w \/
  exists a b, is_number a /\ is_number b /\ w = a ++ js ".." ++ b.

(** What [join] puts behind the first element of an array. *)
Definition joined_rest (l : list JsString) : JsString :=
  match l with
  | [] => []
  | _ :: _ => js "," ++ JsArray.join (js ",") l
  end.

(** An element that is not empty and has no comma. *)
Definition plain_item (x : JsString) : Prop := x <> [] /\ Js.comma ∉ x.

(** ** Vocabulary of the patterns *)

(** [matches s r i j]: the code units of [s] from position [i] up to
    position [j] are a match of [r]. *)
Inductive matches (s : JsString) : RegExp.t -> nat -> nat -> Prop :=
| matches_Empty i : matches s RegExp.Empty i i
| matches_Bol : matches s RegExp.Bol 0 0
| matches_Eol : matches s RegExp.Eol (length s) (length s)
| matches_Class p i c :
    s !! i = Some c -> p c = true -> matches s (RegExp.Class p) i (S i)
| matches_Seq r1 r2 i j k :
    matches s r1 i j -> matches s r2 j k -> matches s (RegExp.Seq r1 r2) i k
| matches_Alt_l r1 r2 i j :
    matches s r1 i j -> matches s (RegExp.Alt r1 r2) i j
| matches_Alt_r r1 r2 i j :
    matches s r2 i j -> matches s (RegExp.Alt r1 r2) i j
| matches_Star_nil r i : matches s (RegExp.Star r) i i
| matches_Star_cons r i j k :
    matches s r i j -> matches s (RegExp.Star r) j k ->
    matches s (RegExp.Star r) i k.


(** [plain r]: [r] has no assertion [^] or [$]. *)
Fixpoint plain (r : RegExp.t) : Prop :=
  match r with
  | RegExp.Bol | RegExp.Eol => False
  | RegExp.Empty | RegExp.Class _ => True
  | RegExp.Seq r1 r2 | RegExp.Alt r1 r2 => plain r1 /\ plain r2
  | RegExp.Star r => plain r
  end.

(** [lang r w]: the text [w] as a whole is a match of [r], for a
    pattern without assertions. *)
Inductive lang : RegExp.t -> JsString -> Prop :=
| lang_Empty : lang RegExp.Empty []
| lang_Class p c : p c = true -> lang (RegExp.Class p) [c]
| lang_Seq r1 r2 w1 w2 :
    lang r1 w1 -> lang r2 w2 -> lang (RegExp.Seq r1 r2) (w1 ++ w2)
| lang_Alt_l r1 r2 w : lang r1 w -> lang (RegExp.Alt r1 r2) w
| lang_Alt_r r1 r2 w : lang r2 w -> lang (RegExp.Alt r1 r2) w
| lang_Star_nil r : lang (RegExp.Star r) []
| lang_Star_cons r w1 w2 :
    lang r w1 -> lang (RegExp.Star r) w2 -> lang (RegExp.Star r) (w1 ++ w2).

(** [at_position s i w]: the text [w] is what [s] has from position
    [i] on. *)
Definition at_position (s : JsString) (i : nat) (w : JsString) : Prop :=
  exists before after, s = before ++ w ++ after /\ length before = i.

(** ** Dialogue.update (dialogue utilities) *)

Module Dialogue.

Section Update.
Variables Value Row : Type.

(** An observed dialogue: its id, its other fields, and the changes
    made since it was fetched. *)
Record Observed : Type := mkObserved {
  id : Z;
  values : gmap JsString Value;
  _diff : gmap JsString Value;
}.

(** The two lists of [argv] that [update] reports to, two arrays of
    their own. *)
Record Argv : Type := mkArgv {
  skipped : list Z;
  updated : list Z;
}.

(** The dialogues are objects.  The array [dialogues] holds references
    to them, numbers here, and may hold the same object more than
    once; the heap gives the object behind every reference, and
    [dialogue._diff = {}] writes to it. *)
Local Abbreviation Heap := (nat -> Observed).

(** [pick] of [koishi-utils]. *)
Variable pick : Observed -> gset JsString -> Row.

(** The first loop: ["id"] and every key of every [_diff]. *)
Definition fields_of (heap : Heap) (dialogues : list nat) : gset JsString :=
  fold_left (fun fields r => fields ∪ dom (_diff (heap r)))
            dialogues {[ js "id" ]}.

(** One round of the second loop, on the heap, [argv] and the rows
    collected. *)
Definition visit (fields : gset JsString)
    (st : Heap * Argv * list Row) (r : nat) : Heap * Argv * list Row :=
  let '(heap, argv, data) := st in
  let dialogue := heap r in
  if decide (dom (_diff dialogue) = ∅) then
    (heap, mkArgv (skipped argv ++ [id dialogue]) (updated argv), data)
  else
    let dialogue := mkObserved (id dialogue) (values dialogue) ∅ in
    (<[r := dialogue]> heap,
     mkArgv (skipped argv) (updated argv ++ [id dialogue]),
     data ++ [pick dialogue fields]).

(** [Dialogue.update]: the heap and [argv] afterwards, and the rows
    handed to [mysql.update]. *)
Definition update (heap : Heap) (dialogues : list nat) (argv : Argv)
  : Heap * Argv * list Row :=
  fold_left (visit (fields_of heap dialogues)) dialogues (heap, argv, []).

End Update.

Arguments mkObserved {Value}.
Arguments id {Value}.
Arguments values {Value}.
Arguments _diff {Value}.
Arguments fields_of {Value}.
Arguments visit {Value Row}.
Arguments update {Value Row}.

Abbreviation Heap Value := (nat -> Observed Value).

End Dialogue.

(** A dialogue with its changes cleared. *)
Definition saved {Value} (d : Dialogue.Observed Value)
  : Dialogue.Observed Value :=
  Dialogue.mkObserved (Dialogue.id d) (Dialogue.values d) ∅.

(** [changed heap r]: the dialogue behind [r] has a change to save. *)
Definition changed {Value} (heap : Dialogue.Heap Value) (r : nat) : Prop :=
  dom (Dialogue._diff (heap r)) <> ∅.

(** [saves heap seen dialogues]: the visits of [dialogues] at which a
    dialogue is saved, [seen] being the objects visited before: a
    dialogue is saved when it has a change in [heap] and is visited for
    the first time. *)
Fixpoint saves {Value} (heap : Dialogue.Heap Value) (seen dialogues : list nat)
  : list nat :=
  match dialogues with
  | [] => []
  | r :: rest =>
      if decide (changed heap r /\ r ∉ seen)
      then r :: saves heap (r :: seen) rest
      else saves heap (r :: seen) rest
  end.

(** [skips heap seen dialogues]: the other visits. *)
Fixpoint skips {Value} (heap : Dialogue.Heap Value) (seen dialogues : list nat)
  : list nat :=
  match dialogues with
  | [] => []
  | r :: rest =>
      if decide (changed heap r /\ r ∉ seen)
      then skips heap (r :: seen) rest
      else r :: skips heap (r :: seen) rest
  end.

#[global] Instance changed_dec {Value} (heap : Dialogue.Heap Value) (r : nat) :
  Decision (changed heap r) :=
  decide (dom (Dialogue._diff (heap r)) <> ∅).

(** * Properties *)

(** ** SharedCache: referrers and eviction *)

Section CacheFacts.
Context {T : Type}.
Implicit Types (c : SharedCache.t T) (o : SharedCache.Op T) (r k : JsString).

Lemma lookup_cache_delete r k c :
  SharedCache.delete r c !! k = (c !! k) ≫= SharedCache.release r.
Proof.
  unfold SharedCache.delete.
  assert (Hfold : forall c0 m,
            map_fold (SharedCache.visit r) c0 m !! k
            = match m !! k with
              | Some e => SharedCache.release r e
              | None => c0 !! k
              end).
  { intros c0 m.
    apply (map_fold_weak_ind
             (fun acc m => acc !! k = match m !! k with
                                      | Some e => SharedCache.release r e
                                      | None => c0 !! k
                                      end)).
    - by rewrite lookup_empty.
    - intros i x m' acc Hi IH. unfold SharedCache.visit.
      destruct (decide (i = k)) as [->|Hne].
      + rewrite lookup_insert_eq.
        destruct (SharedCache.release r x);
          [by rewrite lookup_insert_eq|by rewrite lookup_delete_eq].
      + rewrite (lookup_insert_ne m') by done.
        destruct (SharedCache.release r x);
          [by rewrite lookup_insert_ne|by rewrite lookup_delete_ne]. }
  rewrite Hfold. by destruct (c !! k).
Qed.

Lemma release_other r r' (e : SharedCache.Entry T) :
  r' ∈ SharedCache.refs e -> r' <> r ->
  exists e', SharedCache.release r e = Some e' /\ r' ∈ SharedCache.refs e'.
Proof.
  intros Hin Hne. unfold SharedCache.release.
  destruct (decide _) as [Hz|Hz].
  - apply size_empty_inv in Hz. set_solver.
  - eexists; split; [done|]. simpl. set_solver.
Qed.

Lemma release_last r (e : SharedCache.Entry T) :
  SharedCache.refs e ⊆ {[r]} -> SharedCache.release r e = None.
Proof.
  intros Hsub. unfold SharedCache.release.
  destruct (decide _) as [Hz|Hz]; [done|].
  exfalso. apply Hz. apply size_empty_iff. set_solver.
Qed.

Lemma release_drops r (e e' : SharedCache.Entry T) :
  SharedCache.release r e = Some e' -> r ∉ SharedCache.refs e'.
Proof.
  unfold SharedCache.release. destruct (decide _); [done|].
  intros [= <-]. simpl. set_solver.
Qed.

Lemma delete_not_holds r k c : ~ SharedCache.holds r k (SharedCache.delete r c).
Proof.
  intros (e & He & Hr). rewrite lookup_cache_delete in He.
  destruct (c !! k) as [e0|]; simpl in He; [|done].
  by apply release_drops in He.
Qed.

Lemma holds_step r k c o :
  SharedCache.holds r k c -> ~ SharedCache.is_delete_of r o ->
  SharedCache.holds r k (SharedCache.step c o).
Proof.
  intros (e & He & Hr) Hnd. destruct o as [ref k'|ref k' v|ref]; simpl in *.
  - unfold SharedCache.get. destruct (c !! k') as [e'|] eqn:E; simpl.
    + destruct (decide (k' = k)) as [->|Hk].
      * rewrite He in E. injection E as <-. eexists.
        rewrite lookup_insert_eq. split; [done|]. simpl. set_solver.
      * exists e. by rewrite lookup_insert_ne.
    + by exists e.
  - unfold SharedCache.set. destruct (decide (k' = k)) as [->|Hk].
    + rewrite He. eexists. rewrite lookup_insert_eq.
      split; [done|]. simpl. set_solver.
    + exists e. by rewrite lookup_insert_ne.
  - destruct (release_other ref r e Hr) as (e' & He' & Hr'); [congruence|].
    exists e'. rewrite lookup_cache_delete, He. done.
Qed.

Lemma holds_run r k ops c :
  SharedCache.holds r k c ->
  (forall o, o ∈ ops -> ~ SharedCache.is_delete_of r o) ->
  SharedCache.holds r k (SharedCache.run ops c).
Proof.
  revert c. induction ops as [|o ops IH]; intros c Hh Hnd; simpl; [done|].
  apply IH.
  - apply holds_step; [done|]. apply Hnd. left.
  - intros o' Ho'. apply Hnd. by right.
Qed.

Lemma registers_holds r k c o :
  SharedCache.registers r k c o ->
  SharedCache.holds r k (SharedCache.step c o).
Proof.
  destruct o as [ref k'|ref k' v|ref]; simpl; [| |done].
  - intros (-> & -> & [e He]). unfold SharedCache.get. rewrite He. simpl.
    eexists. rewrite lookup_insert_eq. split; [done|]. simpl. set_solver.
  - intros (-> & ->). unfold SharedCache.set. eexists.
    rewrite lookup_insert_eq. split; [done|]. simpl. set_solver.
Qed.

Lemma sole_step r k c o :
  SharedCache.sole r k c ->
  (SharedCache.on_key k o -> SharedCache.touches r k o) ->
  SharedCache.sole r k (SharedCache.step c o).
Proof.
  intros Ho Ht e. destruct o as [ref k'|ref k' v|ref]; simpl in *.
  - unfold SharedCache.get.
    destruct (c !! k') as [e'|] eqn:E; simpl; [|apply Ho].
    destruct (decide (k' = k)) as [->|Hk].
    + rewrite lookup_insert_eq. intros [= <-]. simpl.
      destruct Ht as [-> _]; [done|]. specialize (Ho _ E). set_solver.
    + rewrite lookup_insert_ne by done. apply Ho.
  - unfold SharedCache.set. destruct (decide (k' = k)) as [->|Hk].
    + rewrite lookup_insert_eq. intros [= <-]. simpl.
      destruct Ht as [-> _]; [done|].
      destruct (c !! k) as [e'|] eqn:E; simpl; [|set_solver].
      specialize (Ho _ E). set_solver.
    + rewrite lookup_insert_ne by done. apply Ho.
  - rewrite lookup_cache_delete.
    destruct (c !! k) as [e'|] eqn:E; simpl; [|done].
    unfold SharedCache.release. destruct (decide _); [done|].
    intros [= <-]. simpl. specialize (Ho _ E). set_solver.
Qed.

Lemma sole_run r k ops c :
  SharedCache.sole r k c ->
  (forall o, o ∈ ops ->
             SharedCache.on_key k o -> SharedCache.touches r k o) ->
  SharedCache.sole r k (SharedCache.run ops c).
Proof.
  revert c. induction ops as [|o ops IH]; intros c Hh Hnd; simpl; [done|].
  apply IH.
  - apply sole_step; [done|]. apply Hnd. left.
  - intros o' Ho'. apply Hnd. by right.
Qed.

Lemma cache_run_app ops1 ops2 c :
  SharedCache.run (ops1 ++ ops2) c
  = SharedCache.run ops2 (SharedCache.run ops1 c).
Proof. apply fold_left_app. Qed.

(** C2, as amended.  Take any calls made on a new cache and then
    [delete(r1)].  A key on which every [get] and [set] was made under
    [r1] has no entry left: a [get] of it yields [undefined].  A key on
    which another referrer [r2] made a [set], or a [get] that found an
    entry, with no [delete(r2)] afterwards, still has its entry. *)
Theorem delete_referrer (ops : list (SharedCache.Op T)) (r1 k : JsString) :
  let c := SharedCache.delete r1 (SharedCache.run ops SharedCache.empty) in
  ((forall o, o ∈ ops ->
              SharedCache.on_key k o -> SharedCache.touches r1 k o) ->
   forall r, fst (SharedCache.get r k c) = None) /\
  (forall r2 before o after,
     r2 <> r1 -> ops = before ++ o :: after ->
     SharedCache.registers r2 k (SharedCache.run before SharedCache.empty) o ->
     (forall o', o' ∈ after -> ~ SharedCache.is_delete_of r2 o') ->
     is_Some (c !! k)).
Proof.
  intros c. split.
  - intros Hall r.
    assert (Ho : SharedCache.sole r1 k (SharedCache.run ops SharedCache.empty)).
    { apply sole_run; [|done]. intros e. unfold SharedCache.empty.
      by rewrite lookup_empty. }
    assert (Hk : c !! k = None).
    { unfold c. rewrite lookup_cache_delete.
      destruct (SharedCache.run ops SharedCache.empty !! k) as [e|] eqn:E;
        [|done].
      simpl. apply release_last. by apply Ho. }
    unfold SharedCache.get. by rewrite Hk.
  - intros r2 before o after Hne -> Hreg Hnd.
    assert (Hh : SharedCache.holds r2 k
                   (SharedCache.run (before ++ o :: after) SharedCache.empty)).
    { rewrite cache_run_app. simpl. apply holds_run; [|done].
      by apply registers_holds. }
    destruct Hh as (e & He & Hr).
    destruct (release_other r1 r2 e Hr Hne) as (e' & He' & _).
    exists e'. unfold c. rewrite lookup_cache_delete, He. done.
Qed.

End CacheFacts.

(** Session [a] stores a record under ["u"], session [b] reads it and
    [a] stores another under ["v"]: once [a] is released, ["v"] is gone
    and ["u"] is still there. *)
Lemma delete_referrer_witness :
  let ops := [SharedCache.OpSet (js "a") (js "u") 1;
              SharedCache.OpGet (js "b") (js "u");
              SharedCache.OpSet (js "a") (js "v") 2] in
  let c := SharedCache.delete (js "a")
             (SharedCache.run ops SharedCache.empty) in
  fst (SharedCache.get (js "b") (js "v") c) = None /\ is_Some (c !! js "u").
Proof.
  intros ops c. split.
  - apply (proj1 (delete_referrer ops (js "a") (js "v"))).
    intros o Ho Hk.
    repeat (apply elem_of_cons in Ho as [->|Ho]); simpl in *;
      try discriminate; try done.
    by apply elem_of_nil in Ho.
  - apply (proj2 (delete_referrer ops (js "a") (js "u")) (js "b")
             [SharedCache.OpSet (js "a") (js "u") 1]
             (SharedCache.OpGet (js "b") (js "u"))
             [SharedCache.OpSet (js "a") (js "v") 2]).
    + discriminate.
    + reflexivity.
    + simpl. split; [done|]. split; [done|]. vm_compute. eauto.
    + intros o Ho. apply list_elem_of_singleton in Ho as ->. simpl. tauto.
Defined.

(** C2 as stated fails: referrer ["b"] touches key ["u"] with a [get]
    made before the entry exists, ["a"] then stores it, and no
    [delete("b")] is ever called; yet [delete("a")] evicts the entry. *)
Lemma get_of_absent_key_takes_no_hold :
  let ops := [SharedCache.OpGet (js "b") (js "u");
              SharedCache.OpSet (js "a") (js "u") 1] in
  Exists (SharedCache.touches (js "a") (js "u")) ops /\
  Exists (SharedCache.touches (js "b") (js "u")) ops /\
  js "b" <> js "a" /\
  Forall (fun o => ~ SharedCache.is_delete_of (js "b") o) ops /\
  SharedCache.delete (js "a") (SharedCache.run ops SharedCache.empty)
    !! js "u" = None.
Proof.
  intros ops. split; [|split; [|split; [|split]]].
  - apply Exists_cons_tl, Exists_cons_hd. by simpl.
  - apply Exists_cons_hd. by simpl.
  - discriminate.
  - repeat constructor; simpl; tauto.
  - vm_compute. reflexivity.
Qed.

(** ** Every dispatch terminates *)

Lemma sub_wf : well_founded sub.
Proof.
  intros s.
  induction s using Script_mut
    with (P0 := fun cb =>
                  forall entry, compose cb = Some entry -> Acc sub entry);
    try (constructor; intros y Hy; inversion Hy; subst; eauto; fail).
  - intros entry [=].
  - intros entry [= <-]. constructor. intros y Hy. inversion Hy.
  - intros entry [= <-]. assumption.
Qed.

Lemma shrink_perm l1 l2 l' : l1 ≡ₚ l2 -> shrink l' l1 -> shrink l' l2.
Proof.
  intros Hp Hs. destruct Hs as [l l' x rest ys H1 H2 H3].
  econstructor; [|exact H2|exact H3]. by rewrite <- Hp.
Qed.

Lemma Acc_shrink_perm l1 l2 : l1 ≡ₚ l2 -> Acc shrink l1 -> Acc shrink l2.
Proof.
  intros Hp Ha. constructor. intros l' Hs. apply (Acc_inv Ha).
  eapply shrink_perm; [symmetry; exact Hp|exact Hs].
Qed.

Lemma shrink_cons_inv a M N :
  shrink N (a :: M) ->
  (exists ys, N ≡ₚ ys ++ M /\ Forall (fun y => sub y a) ys) \/
  (exists M', N ≡ₚ a :: M' /\ shrink M' M).
Proof.
  intros Hs. inversion Hs as [l l' x rest ys H1 H2 H3]; subst.
  assert (Hin : x ∈ a :: M) by (rewrite H1; left).
  apply elem_of_cons in Hin as [->|Hin].
  - left. exists ys. split; [|done]. apply Permutation_cons_inv in H1.
    by rewrite H2, H1.
  - right. apply list_elem_of_split in Hin as (m1 & m2 & ->).
    exists (ys ++ m1 ++ m2). split.
    + rewrite H2.
      assert (rest ≡ₚ a :: m1 ++ m2) as ->.
      { apply (Permutation_cons_inv (a := x)). rewrite <- H1.
        symmetry. apply (Permutation_middle (a :: m1) m2 x). }
      symmetry. apply (Permutation_middle ys (m1 ++ m2) a).
    + econstructor; [|reflexivity|exact H3].
      symmetry. apply Permutation_middle.
Qed.

Lemma Acc_shrink_cons a :
  (forall b, sub b a -> forall M, Acc shrink M -> Acc shrink (b :: M)) ->
  forall M, Acc shrink M -> Acc shrink (a :: M).
Proof.
  intros IHa M HM. induction HM as [M HM IHM].
  constructor. intros N HN.
  apply shrink_cons_inv in HN as [(ys & HN & Hys)|(M' & HN & HM')].
  - apply (Acc_shrink_perm (ys ++ M)); [done|].
    clear HN. induction Hys as [|y ys Hy _ IH]; simpl.
    + by constructor.
    + by apply IHa.
  - apply (Acc_shrink_perm (a :: M')); [done|]. by apply IHM.
Qed.

Lemma shrink_wf : well_founded shrink.
Proof.
  intros l. induction l as [|a l IH].
  - constructor. intros N HN. inversion HN as [? ? x rest ys H1 _ _]; subst.
    by apply Permutation_nil_cons in H1.
  - revert l IH. induction (sub_wf a) as [a _ IHa]. intros l IH.
    apply Acc_shrink_cons; [|done]. intros b Hb M HM. by apply IHa.
Qed.

Lemma below_wf : well_founded below.
Proof. apply wf_clos_trans, shrink_wf. Qed.

Lemma shrink_replace s ys L L' :
  Forall (fun y => sub y s) ys -> L' ≡ₚ ys ++ L -> shrink L' (s :: L).
Proof. intros Hys Hp. by econstructor. Qed.

Lemma shrink_cons a L L' : shrink L' L -> shrink (a :: L') (a :: L).
Proof.
  intros [l l' x r ys H1 H2 H3].
  apply (shrink_intro _ _ x (a :: r) ys); [|  |done].
  - rewrite H1. apply perm_swap.
  - rewrite H2. apply Permutation_middle.
Qed.

Lemma below_cons a L L' : below L' L -> below (a :: L') (a :: L).
Proof.
  induction 1 as [x y H|x y z _ IH1 _ IH2].
  - apply t_step. by apply shrink_cons.
  - eapply t_trans; eauto.
Qed.

Lemma below_trans L1 L2 L3 : below L1 L2 -> below L2 L3 -> below L1 L3.
Proof. intros. eapply t_trans; eauto. Qed.

Section Termination.
Variable env : Env.
Variable session : Session.

Local Abbreviation run := (Internal.run env session).
Local Abbreviation next_with := (Internal.next_with env session).

Lemma next_with_mono call call' cb st res :
  extends call call' ->
  next_with call cb st = Some res -> next_with call' cb st = Some res.
Proof.
  intros Hext. unfold Internal.next_with, Internal.next_try, Internal.advance.
  destruct (decide _); [done|].
  destruct (_ && _); [done|].
  destruct (queue _ !! _) as [h|]; [|done].
  destruct (call h _) as [[o st']|] eqn:E; [|done].
  by rewrite (Hext _ _ _ E).
Qed.

Lemma run_mono n : forall m, (n <= m)%nat -> extends (run n) (run m).
Proof.
  induction n as [|n IH]; intros m Hm s st res; [done|].
  destruct m as [|m]; [lia|].
  assert (Hext : extends (run n) (run m)) by (apply IH; lia).
  destruct s; simpl; try done; try apply Hext.
  - destruct (Internal.observeChannel env session st). apply Hext.
  - destruct (Internal.observeUser env session st). apply Hext.
  - destruct (send_error env fragment); [done|]. apply Hext.
  - destruct (next_with (run n) cb st) as [[o st']|] eqn:E; [|done].
    rewrite (next_with_mono _ _ _ _ _ Hext E).
    destruct o; [apply Hext|done].
Qed.

Lemma rest_emit e st : rest (emit e st) = rest st.
Proof. done. Qed.

Lemma rest_observeChannel st c st' :
  Internal.observeChannel env session st = (c, st') -> rest st' = rest st.
Proof.
  unfold Internal.observeChannel.
  destruct (SharedCache.get _ _ _) as [[x|] cache]; intros [= <- <-]; done.
Qed.

Lemma rest_observeUser st u st' :
  Internal.observeUser env session st = (u, st') -> rest st' = rest st.
Proof.
  unfold Internal.observeUser.
  destruct (SharedCache.get _ _ _) as [[x|] cache]; intros [= <- <-]; done.
Qed.

Lemma rest_assignGuildId st :
  rest (Internal.assignGuildId env session st) = rest st.
Proof. unfold Internal.assignGuildId. by destruct (channel st). Qed.

Lemma rest_catch o st o' st' :
  Internal.catch env session o st = (o', st') ->
  rest st' = rest st /\ exists r, o' = Value r.
Proof.
  destruct o as [r|[p q|m]]; simpl; intros [= <- <-]; eauto.
Qed.

Lemma rest_push cb st :
  exists es, rest (Internal.push cb st) = rest st ++ es /\
             Forall (fun e => compose cb = Some e) es.
Proof.
  unfold Internal.push, rest. destruct (compose cb) as [e|] eqn:E.
  - simpl. rewrite drop_app. eexists; split; [done|].
    destruct (index st - length (queue st))%nat; simpl.
    + by constructor.
    + rewrite drop_nil. constructor.
  - exists []. by rewrite app_nil_r.
Qed.

Lemma rest_lookup st h :
  queue st !! index st = Some h ->
  rest st = h :: drop (S (index st)) (queue st).
Proof. intros H. unfold rest. by rewrite (drop_S _ _ _ H). Qed.

Lemma rest_lookup_None st :
  queue st !! index st = None -> rest st = [].
Proof. intros H. unfold rest. apply drop_ge. by apply lookup_ge_None. Qed.

Lemma run_terminates_acc X :
  Acc below X ->
  forall s st, X = s :: rest st ->
  exists fuel o st', run fuel s st = Some (o, st') /\ below (rest st') X.
Proof.
  induction 1 as [X _ IH]. intros s st ->.
  assert (Hstep : forall k st2, sub k s -> rest st2 = rest st ->
            exists fuel o st', run fuel k st2 = Some (o, st') /\
                               below (rest st') (s :: rest st)).
  { intros k st2 Hk Hr.
    assert (Hb : below (k :: rest st2) (s :: rest st)).
    { apply t_step. rewrite Hr. apply (shrink_replace s [k]); [|done].
      by constructor. }
    destruct (IH _ Hb k st2 eq_refl) as (f & o & st' & Hrun & Hpost).
    exists f, o, st'. split; [done|]. by eapply below_trans. }
  destruct s.
  - exists 1%nat, (Value r), st. split; [done|].
    apply t_step. by apply (shrink_replace _ []).
  - exists 1%nat, (Raise e), st. split; [done|].
    apply t_step. by apply (shrink_replace _ []).
  - destruct (Hstep s (emit (Emitted name) st)) as (f & o & st' & Hr & Hp);
      [constructor|done|]. by exists (S f), o, st'.
  - destruct (Hstep (k (serial env name session)) st)
      as (f & o & st' & Hr & Hp);
      [constructor|done|]. by exists (S f), o, st'.
  - destruct (Hstep s (set_parsed (Some p) st)) as (f & o & st' & Hr & Hp);
      [constructor|done|]. by exists (S f), o, st'.
  - destruct (Internal.observeChannel env session st) as [c st2] eqn:E.
    destruct (Hstep (k c) st2) as (f & o & st' & Hr & Hp);
      [constructor|by eapply rest_observeChannel|].
    exists (S f), o, st'. simpl. by rewrite E.
  - destruct (Hstep s (Internal.assignGuildId env session st))
      as (f & o & st' & Hr & Hp);
      [constructor|apply rest_assignGuildId|]. by exists (S f), o, st'.
  - destruct (Internal.observeUser env session st) as [u st2] eqn:E.
    destruct (Hstep (k u) st2) as (f & o & st' & Hr & Hp);
      [constructor|by eapply rest_observeUser|].
    exists (S f), o, st'. simpl. by rewrite E.
  - destruct (send_error env fragment) as [e|] eqn:E.
    + exists 1%nat, (Raise e), st. simpl. rewrite E. split; [done|].
      apply t_step. by apply (shrink_replace _ []).
    + destruct (Hstep s (emit (Sent fragment) st)) as (f & o & st' & Hr & Hp);
        [constructor|done|]. exists (S f), o, st'. simpl. by rewrite E.
  - (* AwaitNext *)
    assert (Hnext : exists f1 r st1,
              next_with (run f1) cb st = Some (Value r, st1) /\
              below (k r :: rest st1) (AwaitNext cb k :: rest st)).
    { unfold Internal.next_with, Internal.next_try.
      destruct (decide _) as [Hiso|Hreg].
      - exists 0%nat. eexists _, _. split; [reflexivity|].
        apply t_step. apply (shrink_replace _ [k None]); [|done].
        repeat constructor.
      - destruct (rest_push cb st) as (es & Hes & Hsub).
        assert (Hys : forall r,
                  Forall (fun y => sub y (AwaitNext cb k)) (k r :: es)).
        { intros r. constructor; [constructor|].
          eapply Forall_impl; [exact Hsub|]. intros e He. by constructor. }
        destruct (_ && _).
        + exists 0%nat. eexists _, _. split; [reflexivity|].
          apply t_step. apply (shrink_replace _ (k None :: es)); [done|].
          rewrite rest_emit, Hes. simpl. apply Permutation_cons; [done|].
          apply Permutation_app_comm.
        + unfold Internal.advance.
          destruct (queue (Internal.push cb st) !! index (Internal.push cb st))
            as [h|] eqn:Eh.
          * pose proof (rest_lookup _ _ Eh) as Hrp.
            set (st_in := emit (Invoked (index (Internal.push cb st)))
                    (set_index (S (index (Internal.push cb st)))
                       (Internal.push cb st))).
            assert (Hb : below (h :: rest st_in) (AwaitNext cb k :: rest st)).
            { apply t_step. apply (shrink_replace _ es).
              - eapply Forall_impl; [exact Hsub|]. intros e He. by constructor.
              - change (rest st_in) with (drop (S (index (Internal.push cb st)))
                                               (queue (Internal.push cb st))).
                rewrite <- Hrp, Hes. apply Permutation_app_comm. }
            destruct (IH _ Hb h st_in eq_refl) as (f1 & o1 & st1' & Hr1 & Hp1).
            destruct (Internal.catch env session o1 st1') as [o' st1] eqn:Ec.
            destruct (rest_catch _ _ _ _ Ec) as (Hrc & r & ->).
            exists f1, r, st1. fold st_in. rewrite Hr1, Ec. split; [done|].
            rewrite Hrc. eapply below_trans.
            -- apply below_cons. exact Hp1.
            -- apply t_step. apply (shrink_replace _ (k r :: es)); [done|].
               change (rest st_in) with (drop (S (index (Internal.push cb st)))
                                               (queue (Internal.push cb st))).
               rewrite <- Hrp, Hes. simpl. apply Permutation_cons; [done|].
               apply Permutation_app_comm.
          * exists 0%nat. eexists _, _. split; [reflexivity|].
            pose proof (rest_lookup_None _ Eh) as Hn.
            rewrite Hes in Hn. apply app_eq_nil in Hn as [Hn1 Hn2].
            rewrite Hn1. apply t_step. apply (shrink_replace _ [k None]).
            -- repeat constructor.
            -- simpl. apply Permutation_cons; [done|].
               unfold rest. simpl. rewrite drop_ge; [done|].
               apply lookup_ge_None in Eh. simpl in *. lia. }
    destruct Hnext as (f1 & r & st1 & Hn & Hb).
    destruct (IH _ Hb (k r) st1 eq_refl) as (f2 & o & st' & Hr2 & Hp2).
    exists (S (Nat.max f1 f2)), o, st'. split.
    + simpl.
      rewrite (next_with_mono _ (run (Nat.max f1 f2)) _ _ _
                 (run_mono f1 _ (Nat.le_max_l f1 f2)) Hn).
      apply (run_mono f2); [lia|done].
    + by eapply below_trans.
Qed.
End Termination.

(** ** What handlers can do to the state *)

Lemma ascending_le a l b : ascending a l b -> (a <= b)%nat.
Proof.
  revert a. induction l as [|i l IH]; intros a; simpl; [done|].
  intros [Hi Hl]. apply IH in Hl. lia.
Qed.

Lemma ascending_app a l1 b l2 c :
  ascending a l1 b -> ascending b l2 c -> ascending a (l1 ++ l2) c.
Proof.
  revert a. induction l1 as [|i l1 IH]; intros a; simpl.
  - intros Hab H2. destruct l2 as [|j l2]; simpl in *.
    + lia.
    + split; [lia|tauto].
  - intros [Hi H1] H2. split; [done|]. by apply IH.
Qed.

Lemma invoked_app l1 l2 : invoked (l1 ++ l2) = invoked l1 ++ invoked l2.
Proof. apply omap_app. Qed.

Lemma evolves_refl st : evolves st st.
Proof.
  split; [done|]. split; [exists []; by rewrite app_nil_r|].
  exists []. rewrite app_nil_r. split; [done|]. split; [constructor|].
  simpl. lia.
Qed.

Lemma evolves_trans st1 st2 st3 :
  evolves st1 st2 -> evolves st2 st3 -> evolves st1 st3.
Proof.
  intros (Hs1 & (p1 & Hq1) & n1 & Hl1 & Hh1 & Ha1)
         (Hs2 & (p2 & Hq2) & n2 & Hl2 & Hh2 & Ha2).
  split; [congruence|]. split.
  - exists (p1 ++ p2). rewrite Hq2, Hq1. by rewrite app_assoc.
  - exists (n1 ++ n2). split; [|split].
    + rewrite Hl2, Hl1. by rewrite app_assoc.
    + by apply Forall_app.
    + rewrite invoked_app. by eapply ascending_app.
Qed.

(** A step that leaves the table, the queue and the cursor alone and
    logs handler events that are not invocations. *)
Lemma evolves_quiet st st' new :
  _sessions st' = _sessions st -> queue st' = queue st ->
  index st' = index st -> log st' = log st ++ new ->
  Forall handler_event new -> invoked new = [] -> evolves st st'.
Proof.
  intros Hs Hq Hi Hl Hh Hinv. split; [done|]. split.
  - exists []. by rewrite app_nil_r.
  - exists new. split; [done|]. split; [done|]. rewrite Hinv, Hi. simpl. lia.
Qed.

Section Evolution.
Variable env : Env.
Variable session : Session.

Lemma evolves_emit e st :
  handler_event e -> (forall i, e <> Invoked i) -> evolves st (emit e st).
Proof.
  intros He Hn. apply (evolves_quiet _ _ [e]); try done.
  - by constructor.
  - destruct e; try done. by destruct (Hn position).
Qed.

Lemma evolves_observeChannel st c st' :
  Internal.observeChannel env session st = (c, st') -> evolves st st'.
Proof.
  unfold Internal.observeChannel.
  destruct (SharedCache.get _ _ _) as [[x|] cache]; intros [= <- <-];
    apply (evolves_quiet _ _ []); try done; by rewrite app_nil_r.
Qed.

Lemma evolves_observeUser st u st' :
  Internal.observeUser env session st = (u, st') -> evolves st st'.
Proof.
  unfold Internal.observeUser.
  destruct (SharedCache.get _ _ _) as [[x|] cache]; intros [= <- <-];
    apply (evolves_quiet _ _ []); try done; by rewrite app_nil_r.
Qed.

Lemma evolves_assignGuildId st :
  evolves st (Internal.assignGuildId env session st).
Proof.
  unfold Internal.assignGuildId. destruct (channel st); [|apply evolves_refl].
  apply (evolves_quiet _ _ []); try done; by rewrite app_nil_r.
Qed.

Lemma evolves_catch o st o' st' :
  Internal.catch env session o st = (o', st') -> evolves st st'.
Proof.
  destruct o as [r|[p q|m]]; simpl; intros [= <- <-];
    try apply evolves_refl.
  by apply evolves_emit.
Qed.

Lemma evolves_push cb st : evolves st (Internal.push cb st).
Proof.
  unfold Internal.push. destruct (compose cb) as [e|]; [|apply evolves_refl].
  split; [done|]. split; [by exists [e]|].
  exists []. rewrite app_nil_r. split; [done|]. split; [constructor|].
  simpl. lia.
Qed.

Lemma evolves_cursor st : evolves st (set_index (S (index st)) st).
Proof.
  split; [done|]. split; [exists []; by rewrite app_nil_r|].
  exists []. rewrite app_nil_r. split; [done|]. split; [constructor|].
  simpl. lia.
Qed.

Lemma evolves_invoke st :
  evolves st (emit (Invoked (index st)) (set_index (S (index st)) st)).
Proof.
  split; [done|]. split; [exists []; by rewrite app_nil_r|].
  exists [Invoked (index st)]. split; [done|]. split; [by repeat constructor|].
  simpl. lia.
Qed.

Lemma next_try_evolves call cb st o st' :
  sound call ->
  Internal.next_try session call cb st = Some (o, st') -> evolves st st'.
Proof.
  intros Hcall. unfold Internal.next_try.
  destruct (decide _); [intros [= <- <-]; apply evolves_refl|].
  destruct (_ && _); [intros [= <- <-]; apply evolves_push|].
  unfold Internal.advance.
  destruct (queue _ !! _) as [h|].
  - intros Hc. apply Hcall in Hc.
    eapply evolves_trans; [apply evolves_push|].
    eapply evolves_trans; [apply evolves_invoke|]. exact Hc.
  - intros [= <- <-]. eapply evolves_trans; [apply evolves_push|].
    apply evolves_cursor.
Qed.

Lemma next_with_evolves call cb st o st' :
  sound call ->
  Internal.next_with env session call cb st = Some (o, st') -> evolves st st'.
Proof.
  intros Hcall. unfold Internal.next_with.
  destruct (Internal.next_try session call cb st) as [[o1 st1]|] eqn:E;
    [|done].
  intros [= Hc]. eapply evolves_trans.
  - eapply next_try_evolves; eauto.
  - eapply evolves_catch; eauto.
Qed.

Lemma run_evolves fuel : sound (Internal.run env session fuel).
Proof.
  induction fuel as [|fuel IH]; intros s st o st'; [done|].
  destruct s; simpl.
  - intros [= <- <-]. apply evolves_refl.
  - intros [= <- <-]. apply evolves_refl.
  - intros H. eapply evolves_trans; [|eapply IH, H]. by apply evolves_emit.
  - apply IH.
  - intros H. eapply evolves_trans; [|eapply IH, H].
    apply (evolves_quiet _ _ []); try done. by rewrite app_nil_r.
  - destruct (Internal.observeChannel env session st) as [c st1] eqn:E.
    intros H. eapply evolves_trans; [|eapply IH, H].
    eapply evolves_observeChannel, E.
  - intros H. eapply evolves_trans; [|eapply IH, H].
    apply evolves_assignGuildId.
  - destruct (Internal.observeUser env session st) as [u st1] eqn:E.
    intros H. eapply evolves_trans; [|eapply IH, H].
    eapply evolves_observeUser, E.
  - destruct (send_error env fragment).
    + intros [= <- <-]. apply evolves_refl.
    + intros H. eapply evolves_trans; [|eapply IH, H]. by apply evolves_emit.
  - destruct (Internal.next_with env session _ cb st) as [[[r|e] st1]|] eqn:E;
      [| |done].
    + intros H. eapply evolves_trans; [|eapply IH, H].
      eapply next_with_evolves; eauto.
    + intros [= <- <-]. eapply next_with_evolves; eauto.
Qed.
End Evolution.

(** ** Teardown *)

Section Teardown.
Variable env : Env.
Variable session : Session.

Lemma next_with_value call cb st o st' :
  Internal.next_with env session call cb st = Some (o, st') ->
  exists r, o = Value r.
Proof.
  unfold Internal.next_with.
  destruct (Internal.next_try session call cb st) as [[o1 st1]|]; [|done].
  intros [= Hc]. by destruct (rest_catch _ _ _ _ _ _ Hc) as (_ & r & ->); eauto.
Qed.

Lemma next_terminates cb st :
  exists fuel r st', Internal.next env session fuel cb st = Some (Value r, st').
Proof.
  destruct (run_terminates_acc env session _ (below_wf _)
              (AwaitNext cb Return) st eq_refl) as (fuel & o & st' & Hrun & _).
  destruct fuel as [|fuel]; [done|]. simpl in Hrun.
  destruct (Internal.next_with env session _ cb st) as [[o1 st1]|] eqn:E;
    [|done].
  destruct (next_with_value _ _ _ _ _ E) as [r ->].
  by exists fuel, r, st1.
Qed.

Lemma next_evolves fuel cb st o st' :
  Internal.next env session fuel cb st = Some (o, st') -> evolves st st'.
Proof. apply next_with_evolves, run_evolves. Qed.

(** More fuel never changes what a dispatch returns. *)
Lemma handleMessage_mono fuel fuel' hooks st res :
  (fuel <= fuel')%nat ->
  Internal._handleMessage env session fuel hooks st = Some res ->
  Internal._handleMessage env session fuel' hooks st = Some res.
Proof.
  intros Hle. unfold Internal._handleMessage.
  destruct (bool_decide _); [done|].
  set (st0 := set_index 0 _).
  destruct (Internal.next env session fuel CbUndefined st0)
    as [[o st1]|] eqn:E; [|done].
  unfold Internal.next in *.
  by rewrite (next_with_mono env session _ _ _ _ _
                (run_mono env session fuel fuel' Hle) E).
Qed.

Lemma handler_events_no_teardown new :
  Forall handler_event new ->
  unregistered new = [] /\ released_user new = [] /\
  released_channel new = [] /\ updated new = [].
Proof.
  induction 1 as [|e new He _ IH]; [done|].
  destruct e; simpl in *; try done.
Qed.

Lemma update_spec present kind st e st' :
  Internal.update env present kind st = (e, st') ->
  _sessions st' = _sessions st /\ _userCache st' = _userCache st /\
  _channelCache st' = _channelCache st /\
  user st' = user st /\ channel st' = channel st /\ guild st' = guild st /\
  exists new, log st' = log st ++ new /\ unregistered new = [] /\
              released_user new = [] /\ released_channel new = [] /\
              invoked new = [] /\ sent new = [] /\ warned new = [].
Proof.
  unfold Internal.update. destruct present.
  - destruct (update_error env kind); intros [= <- <-]; repeat split; try done.
    + exists []. by rewrite app_nil_r.
    + by exists [Updated kind].
  - intros [= <- <-]; repeat split; try done. exists []. by rewrite app_nil_r.
Qed.

Lemma finalizer_spec st e st' :
  Internal.finalizer env session st = (e, st') ->
  _sessions st' = delete (id session) (_sessions st) /\
  _userCache st' = SharedCache.delete (id session) (_userCache st) /\
  _channelCache st' = SharedCache.delete (id session) (_channelCache st) /\
  exists new, log st' = log st ++ new /\
              unregistered new = [id session] /\
              released_user new = [id session] /\
              released_channel new = [id session] /\
              invoked new = [] /\ sent new = [] /\ warned new = [].
Proof.
  unfold Internal.finalizer.
  set (st4 := emit (ReleasedChannel _) _).
  destruct (Internal.update env _ KUser st4) as [e1 st5] eqn:E1.
  apply update_spec in E1
    as (S1 & U1 & C1 & Hu1 & Hc1 & Hg1 & n1 & L1 & A1 & B1 & D1 & I1 & T1 & W1).
  assert (Hbase : forall n st'',
            _sessions st'' = _sessions st4 -> _userCache st'' = _userCache st4 ->
            _channelCache st'' = _channelCache st4 ->
            log st'' = log st4 ++ n ->
            unregistered n = [] -> released_user n = [] ->
            released_channel n = [] -> invoked n = [] -> sent n = [] ->
            warned n = [] ->
            _sessions st'' = delete (id session) (_sessions st) /\
            _userCache st'' = SharedCache.delete (id session) (_userCache st) /\
            _channelCache st'' = SharedCache.delete (id session) (_channelCache st) /\
            exists new, log st'' = log st ++ new /\
              unregistered new = [id session] /\
              released_user new = [id session] /\
              released_channel new = [id session] /\
              invoked new = [] /\ sent new = [] /\ warned new = []).
  { intros n st'' Hs Hu Hc Hl Hun Hru Hrc Hi Hse Hw.
    split; [by rewrite Hs|]. split; [by rewrite Hu|]. split; [by rewrite Hc|].
    exists ([Unregistered (id session); Emitted (js "middleware");
             ReleasedUser (id session); ReleasedChannel (id session)] ++ n).
    split.
    { rewrite Hl. unfold st4. simpl. by rewrite <- !app_assoc. }
    unfold unregistered, released_user, released_channel, invoked, sent, warned
      in *.
    rewrite !omap_app, ?Hun, ?Hru, ?Hrc, ?Hi, ?Hse, ?Hw. done. }
  destruct e1 as [e1|].
  - intros [= <- <-]. by apply (Hbase n1).
  - destruct (Internal.update env _ KChannel st5) as [e2 st6] eqn:E2.
    apply update_spec in E2
      as (S2 & U2 & C2 & Hu2 & Hc2 & Hg2 & n2 & L2 & A2 & B2 & D2 & I2 & T2 & W2).
    assert (Hn12 : log st6 = log st4 ++ (n1 ++ n2)).
    { by rewrite L2, L1, app_assoc. }
    destruct e2 as [e2|].
    + intros [= <- <-].
      apply (Hbase (n1 ++ n2)); try congruence;
        unfold unregistered, released_user, released_channel, invoked, sent,
          warned in *; rewrite omap_app;
        by rewrite ?A1, ?A2, ?B1, ?B2, ?D1, ?D2, ?I1, ?I2, ?T1, ?T2, ?W1, ?W2.
    + intros E3. apply update_spec in E3
        as (S3 & U3 & C3 & Hu3 & Hc3 & Hg3 & n3 & L3 & A3 & B3 & D3 & I3 & T3 & W3).
      apply (Hbase ((n1 ++ n2) ++ n3)); try congruence.
      * by rewrite L3, Hn12, <- app_assoc.
      * unfold unregistered in *. rewrite !omap_app. by rewrite A1, A2, A3.
      * unfold released_user in *. rewrite !omap_app. by rewrite B1, B2, B3.
      * unfold released_channel in *. rewrite !omap_app. by rewrite D1, D2, D3.
      * unfold invoked in *. rewrite !omap_app. by rewrite I1, I2, I3.
      * unfold sent in *. rewrite !omap_app. by rewrite T1, T2, T3.
      * unfold warned in *. rewrite !omap_app. by rewrite W1, W2, W3.
Qed.

Lemma reply_spec o st e st' :
  Internal.reply env o st = (e, st') ->
  _sessions st' = _sessions st /\ _userCache st' = _userCache st /\
  _channelCache st' = _channelCache st /\
  exists new, log st' = log st ++ new /\ Forall handler_event new /\
              invoked new = [] /\ warned new = [].
Proof.
  unfold Internal.reply.
  assert (Hnil : _sessions st = _sessions st /\ _userCache st = _userCache st /\
            _channelCache st = _channelCache st /\
            exists new, log st = log st ++ new /\ Forall handler_event new /\
                        invoked new = [] /\ warned new = []).
  { repeat split. exists []. by rewrite app_nil_r. }
  destruct o as [[f|]|e0]; try (intros [= <- <-]; exact Hnil).
  destruct (Js.truthy f); [|intros [= <- <-]; exact Hnil].
  destruct (send_error env f); intros [= <- <-]; [exact Hnil|].
  repeat split. exists [Sent f]. repeat split; try done. by repeat constructor.
Qed.

(** C1.  A session that is dispatched (it is not a message of the bot
    itself) always comes out of [_handleMessage], whatever the handlers
    do and whether or not sending the reply or flushing a record
    fails.  By then the finalizer has run exactly once: the session id
    was removed from the session table once and is absent from it, and
    the session's hold was released once from the user cache and once
    from the channel cache, neither of which records the session as a
    referrer any more. *)
Theorem teardown_runs_exactly_once (hooks : list Hook) (st : State) :
  selfId session <> userId session ->
  exists fuel err st' new,
    Internal._handleMessage env session fuel hooks st = Some (err, st') /\
    log st' = log st ++ new /\
    _sessions st' !! id session = None /\
    unregistered new = [id session] /\
    released_user new = [id session] /\
    released_channel new = [id session] /\
    (forall k, ~ SharedCache.holds (id session) k (_userCache st')) /\
    (forall k, ~ SharedCache.holds (id session) k (_channelCache st')).
Proof.
  intros Hself. unfold Internal._handleMessage.
  rewrite bool_decide_eq_false_2 by done.
  set (st0 := set_index 0 _).
  destruct (next_terminates CbUndefined st0) as (fuel & r & st1 & Hnext).
  exists fuel. rewrite Hnext.
  pose proof (next_evolves _ _ _ _ _ Hnext) as (_ & _ & n1 & L1 & H1 & _).
  destruct (handler_events_no_teardown _ H1) as (A1 & B1 & C1 & _).
  destruct (Internal.reply env (Value r) st1) as [thrown st2] eqn:Er.
  apply reply_spec in Er as (_ & _ & _ & n2 & L2 & H2 & _).
  destruct (handler_events_no_teardown _ H2) as (A2 & B2 & C2 & _).
  destruct (Internal.finalizer env session st2) as [e st3] eqn:Ef.
  apply finalizer_spec in Ef
    as (S3 & U3 & C3 & n3 & L3 & A3 & B3 & D3 & _).
  assert (Hgoal : log st3 = log st ++ ((n1 ++ n2) ++ n3) /\
    _sessions st3 !! id session = None /\
    unregistered ((n1 ++ n2) ++ n3) = [id session] /\
    released_user ((n1 ++ n2) ++ n3) = [id session] /\
    released_channel ((n1 ++ n2) ++ n3) = [id session] /\
    (forall k, ~ SharedCache.holds (id session) k (_userCache st3)) /\
    (forall k, ~ SharedCache.holds (id session) k (_channelCache st3))).
  { split; [by rewrite L3, L2, L1, !app_assoc|].
    split; [rewrite S3; apply lookup_delete_eq|].
    unfold unregistered, released_user, released_channel in *.
    rewrite !omap_app, A1, A2, A3, B1, B2, B3, C1, C2, D3.
    repeat split; try done.
    - intros k. rewrite U3. apply delete_not_holds.
    - intros k. rewrite C3. apply delete_not_holds. }
  destruct e as [e|]; eexists _, st3, _; (split; [reflexivity|exact Hgoal]).
Qed.

(** C10.  A message whose [selfId] equals its [userId] is dropped on
    entry: [_handleMessage] returns at once without an error and leaves
    the whole state as it was: the session table has no new entry, no
    handler was invoked, nothing was sent, and none of the teardown
    steps has left a trace. *)
Theorem self_message_is_ignored (fuel : nat) (hooks : list Hook) (st : State) :
  selfId session = userId session ->
  Internal._handleMessage env session fuel hooks st = Some (None, st).
Proof.
  intros Hself. unfold Internal._handleMessage.
  by rewrite bool_decide_eq_true_2.
Qed.
End Teardown.

(** A dispatch with [_process] followed by a replying handler. *)
Lemma teardown_runs_exactly_once_witness :
  exists fuel err st' new,
    Internal._handleMessage (Sample.env 0 0) (Sample.message "hi") fuel
      [mkHook (fun _ => true) (Internal._process (Sample.env 0 0));
       Sample.hook (Sample.reply_with "pong")] Sample.fresh
    = Some (err, st') /\
    log st' = log Sample.fresh ++ new /\
    _sessions st' !! js "s1" = None /\
    unregistered new = [js "s1"] /\
    released_user new = [js "s1"] /\
    released_channel new = [js "s1"] /\
    (forall k, ~ SharedCache.holds (js "s1") k (_userCache st')) /\
    (forall k, ~ SharedCache.holds (js "s1") k (_channelCache st')).
Proof.
  apply (teardown_runs_exactly_once (Sample.env 0 0) (Sample.message "hi")).
  discriminate.
Defined.

(** The bot's own message, with a handler that would reply. *)
Lemma self_message_is_ignored_witness :
  Internal._handleMessage (Sample.env 0 0) Sample.echo 8
    [Sample.hook (Sample.reply_with "pong")] Sample.fresh
  = Some (None, Sample.fresh).
Proof.
  apply (self_message_is_ignored (Sample.env 0 0) Sample.echo).
  reflexivity.
Defined.

(** ** The guards of [next] *)

Lemma pushes_length cbs st :
  Forall (fun cb => is_defined cb = true) cbs ->
  length (queue (pushes cbs st)) = (length (queue st) + length cbs)%nat.
Proof.
  revert st. induction cbs as [|cb cbs IH]; intros st Hd; simpl; [lia|].
  inversion Hd as [|? ? Hcb Hrest]; subst.
  unfold pushes in *. rewrite IH by done.
  unfold Internal.push.
  destruct cb; try done; simpl; rewrite length_app; simpl; lia.
Qed.

Section NextGuards.
Variable env : Env.
Variable session : Session.

(** C3, as amended.  In a session that is still registered, a call of
    [next] with a continuation pushes exactly one entry on the queue.
    When the queue held 64 or more entries before the push, so that the
    push makes its length exceed 64, the [try] block throws the
    stack-exceeded error before any handler is invoked; the error does
    not leave [next]: its own [catch] clause logs it as a warning
    together with the message content, and the call returns [undefined]
    with the entry pushed and the cursor where it was.  While the queue
    held fewer than 64 entries, the depth check throws nothing and the
    call goes on to the handler under the cursor, whose outcome passes
    through the [catch] clause.  A call without a continuation pushes
    nothing, makes no depth check and goes straight to the handler
    under the cursor.  However it ends, a call of [next] returns a
    value: no error leaves it.  After [j] pushes a queue that started
    with [n] entries has [n + j] of them, so the first push that throws
    is number [65 - n]. *)
Theorem stack_exceeded_is_caught_by_next
    (call : Script -> State -> option (Outcome * State))
    (cb : Callback) (st : State) :
  _sessions st !! id session <> None ->
  (is_defined cb = true ->
   exists entry,
     compose cb = Some entry /\
     Internal.push cb st = set_queue (queue st ++ [entry]) st /\
     ((Next.MAX_DEPTH <= length (queue st))%nat ->
      Internal.next_try session call cb st
      = Some (Raise Internal.exceeded, Internal.push cb st) /\
      Internal.next_with env session call cb st
      = Some (Value None,
              emit (Warned (content session ++ js (String "010" "")
                              ++ coerce env Internal.exceeded))
                   (Internal.push cb st))) /\
     ((length (queue st) < Next.MAX_DEPTH)%nat ->
      Internal.next_try session call cb st
      = Internal.advance call (Internal.push cb st) /\
      Internal.next_with env session call cb st
      = match Internal.advance call (Internal.push cb st) with
        | Some (o, st') => Some (Internal.catch env session o st')
        | None => None
        end)) /\
  (cb = CbUndefined ->
   Internal.push cb st = st /\
   Internal.next_try session call cb st = Internal.advance call st /\
   Internal.next_with env session call cb st
   = match Internal.advance call st with
     | Some (o, st') => Some (Internal.catch env session o st')
     | None => None
     end) /\
  (forall o st',
     Internal.next_with env session call cb st = Some (o, st') ->
     exists r, o = Value r) /\
  (forall cbs, Forall (fun cb => is_defined cb = true) cbs ->
     length (queue (pushes cbs st)) = (length (queue st) + length cbs)%nat).
Proof.
  intros Hreg. split; [|split; [|split]].
  - intros Hdef.
    assert (exists entry, compose cb = Some entry) as [entry He].
    { destruct cb; try done; simpl; eauto. }
    exists entry. split; [done|].
    assert (Hp : Internal.push cb st = set_queue (queue st ++ [entry]) st).
    { unfold Internal.push. by rewrite He. }
    split; [done|].
    assert (Htry : Internal.next_try session call cb st
                   = if (Next.MAX_DEPTH <? length (queue st) + 1)%nat
                     then Some (Raise Internal.exceeded, Internal.push cb st)
                     else Internal.advance call (Internal.push cb st)).
    { unfold Internal.next_try. destruct (decide _) as [Hn|_]; [done|].
      rewrite Hdef, Hp. simpl. by rewrite length_app. }
    unfold Internal.next_with. rewrite Htry. split; intros Hlen.
    + destruct (Nat.ltb_spec Next.MAX_DEPTH (length (queue st) + 1));
        [done|lia].
    + destruct (Nat.ltb_spec Next.MAX_DEPTH (length (queue st) + 1));
        [lia|done].
  - intros ->. split; [done|].
    assert (Htry : Internal.next_try session call CbUndefined st
                   = Internal.advance call st).
    { unfold Internal.next_try. by destruct (decide _). }
    unfold Internal.next_with. by rewrite Htry.
  - apply next_with_value.
  - intros cbs. apply pushes_length.
Qed.

(** C4, as amended.  When the session id is no longer in the session
    table, the [try] block of [next] throws the isolation error before
    it pushes anything or invokes any handler, whatever the queue
    holds.  The error does not leave [next]: its own [catch] clause
    logs it as a warning, and the call returns [undefined] with the
    queue and the cursor as they were. *)
Theorem isolated_next_is_caught
    (call : Script -> State -> option (Outcome * State))
    (cb : Callback) (st : State) :
  _sessions st !! id session = None ->
  Internal.next_try session call cb st = Some (Raise Internal.isolated, st) /\
  Internal.next_with env session call cb st
  = Some (Value None,
          emit (Warned (content session ++ js (String "010" "")
                          ++ coerce env Internal.isolated)) st).
Proof.
  intros Hgone. unfold Internal.next_with, Internal.next_try.
  destruct (decide _) as [_|Hn]; [|done]. done.
Qed.
End NextGuards.

(** A registered session with 64 queued handlers: one more push throws
    inside [next], which logs the error and returns [undefined]. *)
Lemma stack_exceeded_is_caught_by_next_witness :
  let st := set_sessions {[ js "s1" := Sample.message "hi" ]}
              (set_queue (replicate 64 (Return None)) Sample.fresh) in
  Internal.next_try (Sample.message "hi")
    (Internal.run (Sample.env 0 0) (Sample.message "hi") 4)
    (CbFragment (js "more")) st
  = Some (Raise Internal.exceeded,
          Internal.push (CbFragment (js "more")) st) /\
  Internal.next_with (Sample.env 0 0) (Sample.message "hi")
    (Internal.run (Sample.env 0 0) (Sample.message "hi") 4)
    (CbFragment (js "more")) st
  = Some (Value None,
          emit (Warned (js "hi" ++ js (String "010" "")
                          ++ js "middleware stack exceeded 64"))
               (Internal.push (CbFragment (js "more")) st)).
Proof.
  intros st.
  destruct (proj1 (stack_exceeded_is_caught_by_next
                     (Sample.env 0 0) (Sample.message "hi")
                     (Internal.run (Sample.env 0 0) (Sample.message "hi") 4)
                     (CbFragment (js "more")) st
                     ltac:(vm_compute; discriminate))
              eq_refl) as (entry & _ & _ & Hraise & _).
  apply Hraise. vm_compute. lia.
Defined.

(** C3 as stated fails: the call of [next] whose push takes the queue
    from 64 to 65 entries raises nothing.  It returns [undefined], with
    the entry pushed, the cursor where it was, no handler invoked and
    one warning in the log. *)
Lemma crossing_push_returns_normally :
  let env := Sample.env 0 0 in
  let session := Sample.message "hi" in
  let st := set_sessions {[ js "s1" := session ]}
              (set_queue (replicate 64 (Return None)) Sample.fresh) in
  exists st',
    Internal.next env session 4 (CbFragment (js "more")) st
    = Some (Value None, st') /\
    length (queue st) = 64%nat /\ length (queue st') = 65%nat /\
    index st' = index st /\
    invoked (log st') = [] /\
    warned (log st')
    = [js "hi" ++ js (String "010" "") ++ js "middleware stack exceeded 64"].
Proof.
  intros env session st. eexists.
  split; [vm_compute; reflexivity|].
  repeat split; vm_compute; reflexivity.
Qed.

(** A queue of one handler that nests continuations 70 deep: the
    handlers at positions 0 to 63 run, the push made at position 63 is
    number 64 and takes the queue to 65 entries, and that call fails
    with the one warning of the dispatch. *)
Lemma deep_chain_fails_on_push_64 :
  exists st',
    Internal._handleMessage (Sample.env 0 0) (Sample.message "hi") 100
      [Sample.hook (Sample.chain 70)] Sample.fresh = Some (None, st') /\
    invoked (log st') = seq 0 64 /\
    warned (log st')
    = [js "hi" ++ js (String "010" "") ++ js "middleware stack exceeded 64"] /\
    length (queue st') = 65%nat /\
    sent (log st') = [].
Proof.
  eexists. split; [vm_compute; reflexivity|].
  repeat split; vm_compute; reflexivity.
Qed.

(** A captured [next] called on a new [Internal], where no session is
    registered. *)
Lemma isolated_next_is_caught_witness :
  Internal.next_try (Sample.message "hi")
    (Internal.run (Sample.env 0 0) (Sample.message "hi") 4)
    (CbFragment (js "late")) Sample.fresh
  = Some (Raise Internal.isolated, Sample.fresh) /\
  Internal.next_with (Sample.env 0 0) (Sample.message "hi")
    (Internal.run (Sample.env 0 0) (Sample.message "hi") 4)
    (CbFragment (js "late")) Sample.fresh
  = Some (Value None,
          emit (Warned (js "hi" ++ js (String "010" "")
                          ++ js "isolated next function detected"))
               Sample.fresh).
Proof.
  apply (isolated_next_is_caught (Sample.env 0 0) (Sample.message "hi")).
  reflexivity.
Defined.

(** C4 as stated fails: after a whole dispatch, teardown included, a
    call of the captured [next] does not throw; it returns [undefined]
    and leaves a warning in the log. *)
Lemma isolated_next_returns_normally :
  let env := Sample.env 0 0 in
  let session := Sample.message "hi" in
  exists st' st'',
    Internal._handleMessage env session 8
      [Sample.hook (Sample.reply_with "pong")] Sample.fresh = Some (None, st') /\
    _sessions st' !! id session = None /\
    Internal.next env session 8 CbUndefined st' = Some (Value None, st'') /\
    invoked (log st'') = invoked (log st') /\
    warned (log st'')
    = [js "hi" ++ js (String "010" "") ++ js "isolated next function detected"].
Proof.
  intros env session. eexists. eexists.
  split; [vm_compute; reflexivity|].
  split; [vm_compute; reflexivity|].
  split; [vm_compute; reflexivity|].
  split; vm_compute; reflexivity.
Qed.

(** ** Order of the handlers and errors of the session *)

Section DispatchFacts.
Variable env : Env.
Variable session : Session.

Lemma reply_delivers r st thrown st' :
  Internal.reply env (Value r) st = (thrown, st') ->
  exists n, log st' = log st ++ n /\ invoked n = [] /\ warned n = [] /\
            sent n = delivered env r /\
            (forall e, thrown = Some e ->
               exists f, r = Some f /\ send_error env f = Some e).
Proof.
  destruct r as [f|]; simpl.
  - destruct (Js.truthy f).
    + destruct (send_error env f) as [e|] eqn:E; intros [= <- <-].
      * exists []. rewrite app_nil_r. repeat split; try done.
        intros e' [= <-]. eauto.
      * exists [Sent f]. repeat split; try done.
    + intros [= <- <-]. exists []. rewrite app_nil_r. repeat split; done.
  - intros [= <- <-]. exists []. rewrite app_nil_r. repeat split; done.
Qed.

Lemma update_error_source present kind st e st' :
  Internal.update env present kind st = (Some e, st') ->
  update_error env kind = Some e.
Proof.
  unfold Internal.update. destruct present; [|done].
  by destruct (update_error env kind); intros [= <- <-].
Qed.

Lemma finalizer_error st e st' :
  Internal.finalizer env session st = (Some e, st') ->
  exists kind, update_error env kind = Some e.
Proof.
  unfold Internal.finalizer.
  set (st4 := emit (ReleasedChannel _) _).
  destruct (Internal.update env _ KUser st4) as [[e1|] st5] eqn:E1.
  { intros [= <- <-]. eauto using update_error_source. }
  destruct (Internal.update env _ KChannel st5) as [[e2|] st6] eqn:E2.
  { intros [= <- <-]. eauto using update_error_source. }
  eauto using update_error_source.
Qed.

(** How a dispatch is put together: the top-level [next], the reply,
    and the finalizer. *)
Lemma dispatch_unfold fuel hooks st r st1 :
  selfId session <> userId session ->
  Internal.next env session fuel CbUndefined (entry_state session hooks st)
  = Some (Value r, st1) ->
  exists err st' tail,
    Internal._handleMessage env session fuel hooks st = Some (err, st') /\
    log st' = log st1 ++ tail /\
    invoked tail = [] /\ warned tail = [] /\ sent tail = delivered env r /\
    (forall e, err = Some e ->
       (exists f, r = Some f /\ send_error env f = Some e) \/
       (exists kind, update_error env kind = Some e)).
Proof.
  intros Hself Hnext. unfold Internal._handleMessage.
  rewrite bool_decide_eq_false_2 by done.
  fold (entry_state session hooks st). rewrite Hnext.
  destruct (Internal.reply env (Value r) st1) as [thrown st2] eqn:Er.
  apply reply_delivers in Er as (n2 & L2 & I2 & W2 & S2 & E2).
  destruct (Internal.finalizer env session st2) as [e st3] eqn:Ef.
  pose proof (finalizer_spec _ _ _ _ _ Ef)
    as (_ & _ & _ & n3 & L3 & _ & _ & _ & I3 & S3 & W3).
  assert (Hlog : log st3 = log st1 ++ (n2 ++ n3) /\
            invoked (n2 ++ n3) = [] /\ warned (n2 ++ n3) = [] /\
            sent (n2 ++ n3) = delivered env r).
  { split; [by rewrite L3, L2, app_assoc|].
    unfold invoked, warned, sent in *. rewrite !omap_app.
    rewrite I2, I3, W2, W3, S2, S3. simpl. by rewrite app_nil_r. }
  destruct Hlog as (Hl & Hi & Hw & Hs).
  destruct e as [e|].
  - exists (Some e), st3, (n2 ++ n3). repeat split; try done.
    intros e' [= <-]. right. eapply finalizer_error, Ef.
  - exists thrown, st3, (n2 ++ n3). repeat split; try done.
    intros e' He'. left. by apply E2.
Qed.

Lemma entry_registered hooks st :
  _sessions (entry_state session hooks st) !! id session <> None.
Proof. simpl. by rewrite lookup_insert_eq. Qed.

Lemma next_try_entry call hooks st handler others :
  Internal.build_queue session hooks = handler :: others ->
  Internal.next_try session call CbUndefined (entry_state session hooks st)
  = call handler
      (emit (Invoked 0) (set_index 1 (entry_state session hooks st))).
Proof.
  intros Hq. unfold Internal.next_try.
  destruct (decide _) as [Hn|_]; [by apply entry_registered in Hn|].
  unfold Internal.advance. simpl. rewrite Hq. reflexivity.
Qed.

End DispatchFacts.



(** C9 as stated fails: the second handler throws the permission error,
    whose text is not empty and could be sent; the first handler awaits
    [next()] and returns nothing, so the text stops there and the
    session receives no reply. *)
Lemma awaited_session_error_is_dropped :
  exists st',
    Internal._handleMessage (Sample.env 0 0) (Sample.message "hi") 8
      [Sample.hook Sample.await_and_drop; Sample.hook Sample.deny]
      Sample.fresh = Some (None, st') /\
    invoked (log st') = [0; 1]%nat /\
    sent (log st') = [] /\
    delivered (Sample.env 0 0)
      (Some (text (Sample.env 0 0) (Single (js "errors.no-permission")) []))
    = [js "text:errors.no-permission"].
Proof.
  eexists. split; [vm_compute; reflexivity|].
  split; [vm_compute; reflexivity|]. split; vm_compute; reflexivity.
Qed.

(** ** Policy gates of the attach pipeline *)

Lemma to_int32_testbit x b :
  0 <= b < 32 -> Z.testbit (to_int32 x) b = Z.testbit x b.
Proof.
  intros Hb. unfold to_int32.
  rewrite <- (Z.mod_pow2_bits_low _ 32 b) by lia.
  rewrite <- (Z.mod_pow2_bits_low x 32 b) by lia.
  f_equal.
  rewrite Zminus_mod_idemp_l.
  f_equal. lia.
Qed.

Lemma flag_set_bit_and flag mask :
  flag_set flag mask -> (bit_and flag mask =? 0) = false.
Proof.
  intros (b & Hb & -> & Ht). apply Z.eqb_neq. intros Hz.
  assert (Hbit : Z.testbit (bit_and flag (2 ^ b)) b = true).
  { unfold bit_and. rewrite Z.land_spec, !to_int32_testbit by done.
    rewrite Ht. simpl. apply Z.pow2_bits_true. lia. }
  rewrite Hz in Hbit. by rewrite Z.bits_0 in Hbit.
Qed.

Section Gates.
Variable env : Env.
Variable session : Session.

Lemma observeUser_log st :
  log (snd (Internal.observeUser env session st)) = log st.
Proof.
  unfold Internal.observeUser.
  by destruct (SharedCache.get _ _ _) as [[x|] cache].
Qed.

Lemma observeChannel_log st :
  log (snd (Internal.observeChannel env session st)) = log st.
Proof.
  unfold Internal.observeChannel.
  by destruct (SharedCache.get _ _ _) as [[x|] cache].
Qed.

Lemma observeChannel_userCache st :
  _userCache (snd (Internal.observeChannel env session st)) = _userCache st.
Proof.
  unfold Internal.observeChannel.
  by destruct (SharedCache.get _ _ _) as [[x|] cache].
Qed.

Lemma assignGuildId_log st :
  log (Internal.assignGuildId env session st) = log st.
Proof. unfold Internal.assignGuildId. by destruct (channel st). Qed.

Lemma assignGuildId_userCache st :
  _userCache (Internal.assignGuildId env session st) = _userCache st.
Proof. unfold Internal.assignGuildId. by destruct (channel st). Qed.

Lemma observeUser_same st1 st2 :
  _userCache st1 = _userCache st2 ->
  fst (Internal.observeUser env session st1)
  = fst (Internal.observeUser env session st2).
Proof.
  intros H. unfold Internal.observeUser. rewrite H.
  by destruct (SharedCache.get _ _ _) as [[x|] cache].
Qed.

Lemma observeChannel_same st1 st2 :
  _channelCache st1 = _channelCache st2 ->
  fst (Internal.observeChannel env session st1)
  = fst (Internal.observeChannel env session st2).
Proof.
  intros H. unfold Internal.observeChannel. rewrite H.
  by destruct (SharedCache.get _ _ _) as [[x|] cache].
Qed.

Lemma attach_user_ignored st :
  flag_set (u_flag (attached_user env session st)) (User_Flag_ignore env) ->
  exists st',
    Internal.run env session 4 (Internal.attach_user env) st
    = Some (Value None, st') /\
    log st' = log st ++ [Emitted (js "before-attach-user")].
Proof.
  intros Hflag. apply flag_set_bit_and in Hflag.
  unfold Internal.attach_user. simpl.
  set (st1 := emit _ st).
  assert (Hu : fst (Internal.observeUser env session st1)
               = attached_user env session st)
    by (by apply observeUser_same).
  pose proof (observeUser_log st1) as Hl.
  destruct (Internal.observeUser env session st1) as [u st2].
  simpl in Hu, Hl. subst u. rewrite Hflag. simpl.
  exists st2. split; [by destruct (serial env _ session)|]. by rewrite Hl.
Qed.

Lemma attach_channel_ignored atSelf st :
  flag_set (c_flag (attached_channel env session st))
           (Channel_Flag_ignore env) \/
  flag_set (u_flag (attached_user env session st)) (User_Flag_ignore env) ->
  exists st' stages,
    Internal.run env session 8 (Internal.attach_channel env session atSelf) st
    = Some (Value None, st') /\
    log st' = log st ++ stages /\ gate_stages Group stages.
Proof.
  intros Hflag. unfold Internal.attach_channel.
  cbn [Internal.run].
  set (st1 := emit _ st).
  assert (Hc : fst (Internal.observeChannel env session st1)
               = attached_channel env session st)
    by (by apply observeChannel_same).
  pose proof (observeChannel_log st1) as Hl.
  pose proof (observeChannel_userCache st1) as Hu.
  destruct (Internal.observeChannel env session st1) as [c st2].
  simpl in Hc, Hl, Hu. subst c.
  set (st3 := Internal.assignGuildId env session st2).
  assert (Hl3 : log st3 = log st ++ [Emitted (js "before-attach-channel")]).
  { unfold st3. by rewrite assignGuildId_log, Hl. }
  assert (Hdone : exists st' stages,
            Some (Value None, st3) = Some (Value None, st') /\
            log st' = log st ++ stages /\ gate_stages Group stages).
  { exists st3, [Emitted (js "before-attach-channel")].
    split; [done|]. split; [done|]. by left. }
  destruct (serial env (js "attach-channel") session); [exact Hdone|].
  destruct (negb (bit_and _ _ =? 0)) eqn:Echan; [exact Hdone|].
  destruct (_ && _); [exact Hdone|].
  destruct Hflag as [Hflag|Hflag].
  { apply flag_set_bit_and in Hflag. rewrite Hflag in Echan. done. }
  destruct (attach_user_ignored st3) as (st' & Hrun & Hlog).
  { unfold attached_user in *.
    rewrite (observeUser_same st3 st); [done|].
    unfold st3. by rewrite assignGuildId_userCache, Hu. }
  exists st', [Emitted (js "before-attach-channel");
               Emitted (js "before-attach-user")].
  split; [exact Hrun|]. split; [by rewrite Hlog, Hl3, <- app_assoc|].
  by right.
Qed.

Lemma run_SetParsed fuel p k st :
  Internal.run env session (S fuel) (SetParsed p k) st
  = Internal.run env session fuel k (set_parsed (Some p) st).
Proof. reflexivity. Qed.

Lemma run_Emit fuel name k st :
  Internal.run env session (S fuel) (Emit name k) st
  = Internal.run env session fuel k (emit (Emitted name) st).
Proof. reflexivity. Qed.

(** C5, as amended.  Take a dispatched session whose queue starts with
    [_process], as the constructor registers it when no middleware is
    prepended, with a database configured.  If the session is a group
    message whose attached channel record has the ignore bit, or if the
    attached user record has the ignore bit (the ignore flag being one
    bit of a 32-bit word), then [_process] returns without calling
    [next()]: the only handler ever invoked is [_process] at position
    0, nothing is sent and nothing is logged as a warning.  The
    dispatch raises no error of its own; the only error that can leave
    it is that of a failing [$update] of the teardown.  The stages show
    where it stops: in a group session after the channel stage or,
    when the channel gates pass, after the user stage that follows it,
    and in a private session after the user stage. *)
Theorem ignored_records_abort_silently
    (hooks : list Hook) (others : list Script) (st : State) :
  selfId session <> userId session ->
  Internal.build_queue session hooks
  = Internal._process env session :: others ->
  database env = true ->
  (subtype session = Group /\
   flag_set (c_flag (attached_channel env session st))
            (Channel_Flag_ignore env)) \/
  flag_set (u_flag (attached_user env session st)) (User_Flag_ignore env) ->
  exists fuel err st' new stages tail,
    Internal._handleMessage env session fuel hooks st = Some (err, st') /\
    log st' = log st ++ new /\
    new = [Invoked 0; Emitted (js "before-attach")] ++ stages ++ tail /\
    gate_stages (subtype session) stages /\
    invoked new = [0%nat] /\ sent new = [] /\ warned new = [] /\
    (forall e, err = Some e -> exists kind, update_error env kind = Some e).
Proof.
  intros Hself Hq Hdb Hflag.
  set (st0 := emit (Invoked 0) (set_index 1 (entry_state session hooks st))).
  set (v := Parser.parse_vars (config env) (segment env) session).
  set (st1 := emit (Emitted (js "before-attach"))
                (set_parsed (Some (Parser.parsed_of v)) st0)).
  assert (Hstage : exists st2 stages,
            Internal.run env session 8
              (match subtype session with
               | Group => Internal.attach_channel env session (Parser.v_atSelf v)
               | Private => Internal.attach_user env
               end) st1 = Some (Value None, st2) /\
            log st2 = log st1 ++ stages /\
            gate_stages (subtype session) stages).
  { assert (Hc : attached_channel env session st1
                 = attached_channel env session st)
      by (by apply observeChannel_same).
    assert (Hu : attached_user env session st1 = attached_user env session st)
      by (by apply observeUser_same).
    destruct (subtype session) eqn:Esub.
    - apply attach_channel_ignored. rewrite Hc, Hu.
      destruct Hflag as [[_ H]|H]; [by left|by right].
    - destruct Hflag as [[? _]|H]; [done|].
      destruct (attach_user_ignored st1) as (st2 & Hrun & Hrest);
        [by rewrite Hu|].
      exists st2, [Emitted (js "before-attach-user")]. split; [|done].
      by apply (run_mono env session 4 8 ltac:(lia)). }
  destruct Hstage as (st2 & stages & Hrun & Hlog & Hst).
  assert (Hquiet : invoked stages = [] /\ sent stages = [] /\
                   warned stages = []).
  { destruct (subtype session); simpl in Hst;
      [destruct Hst as [-> | ->]|subst stages]; done. }
  destruct Hquiet as (Hi & Hs & Hw).
  assert (Hnext : Internal.next env session 10 CbUndefined
                    (entry_state session hooks st) = Some (Value None, st2)).
  { unfold Internal.next, Internal.next_with.
    rewrite (next_try_entry _ _ _ _ _ _ Hq).
    unfold Internal._process. fold v. rewrite Hdb.
    rewrite run_SetParsed, run_Emit. fold st0. fold st1. rewrite Hrun.
    reflexivity. }
  destruct (dispatch_unfold _ _ _ _ _ _ _ Hself Hnext)
    as (err & st' & tail & Hh & Hl & Hti & Htw & Hts & He).
  exists 10%nat, err, st',
    ([Invoked 0; Emitted (js "before-attach")] ++ stages ++ tail), stages, tail.
  split; [done|]. split.
  { rewrite Hl, Hlog. unfold st1, st0. simpl. by rewrite <- !app_assoc. }
  split; [done|]. split; [done|].
  unfold invoked, sent, warned in *. simpl. rewrite !omap_app.
  rewrite Hi, Hs, Hw, Hti, Htw, Hts. simpl. repeat split; try done.
  intros e Herr. destruct (He e Herr) as [(f & Hf & _)|Hk]; [done|done].
Qed.
End Gates.


(** A group message in a channel whose record has the ignore bit. *)
Lemma ignored_records_abort_silently_witness :
  exists fuel err st' new stages tail,
    Internal._handleMessage (Sample.env 1 0) (Sample.message "hi") fuel
      [mkHook (fun _ => true) (Internal._process (Sample.env 1 0));
       Sample.hook (Sample.reply_with "pong")] Sample.fresh
    = Some (err, st') /\
    log st' = log Sample.fresh ++ new /\
    new = [Invoked 0; Emitted (js "before-attach")] ++ stages ++ tail /\
    gate_stages Group stages /\
    invoked new = [0%nat] /\ sent new = [] /\ warned new = [] /\
    (forall e, err = Some e ->
       exists kind, update_error (Sample.env 1 0) kind = Some e).
Proof.
  apply (ignored_records_abort_silently (Sample.env 1 0) (Sample.message "hi")
           _ [Sample.reply_with "pong"]).
  - discriminate.
  - reflexivity.
  - reflexivity.
  - left. split; [reflexivity|]. exists 0. split; [lia|]. split; reflexivity.
Defined.

(** C5 as stated fails.  In a channel with the ignore bit, a handler
    registered with [prepend] sits in front of [_process]: it is
    invoked, [_process] stops at the channel stage behind it, and the
    reply of the handler is sent.  And with [_process] in front, a
    failing [$update] of the channel record makes the dispatch raise
    that error. *)
Lemma ignored_channel_is_not_always_silent :
  let session := Sample.message "hi" in
  (let env := Sample.env 1 0 in
   let result :=
     Internal._handleMessage env session 12
       [Sample.hook (Scenario.reply_after_next "pong");
        mkHook (fun _ => true) (Internal._process env)] Sample.fresh in
   bit_and (c_flag (attached_channel env session Sample.fresh))
           (Channel_Flag_ignore env) = 1 /\
   fst <$> result = Some None /\
   invoked ∘ log ∘ snd <$> result = Some [0; 1]%nat /\
   emitted ∘ log ∘ snd <$> result
   = Some [js "before-attach"; js "before-attach-channel"; js "middleware"] /\
   sent ∘ log ∘ snd <$> result = Some [js "pong"]) /\
  (let failure := OtherError (js "connection lost") in
   let env := Scenario.with_update_error
                (fun kind => match kind with
                             | KChannel => Some failure
                             | _ => None
                             end)
                (Sample.env 1 0) in
   let result :=
     Internal._handleMessage env session 12
       [mkHook (fun _ => true) (Internal._process env);
        Sample.hook (Sample.reply_with "pong")] Sample.fresh in
   fst <$> result = Some (Some failure) /\
   invoked ∘ log ∘ snd <$> result = Some [0%nat] /\
   sent ∘ log ∘ snd <$> result = Some []).
Proof. repeat split; vm_compute; reflexivity. Qed.


(** ** Nickname and prefix stripping *)

Lemma startsWith_app p r : Js.startsWith p (p ++ r) = true.
Proof.
  induction p as [|a p IH]; simpl; [done|]. by rewrite N.eqb_refl, IH.
Qed.

Lemma slice_app p r : Js.slice (length p) (p ++ r) = r.
Proof. unfold Js.slice. apply drop_app_length. Qed.

Section ParserFacts.
Variable config : Config.
Variable segment : Segment.

Lemma strip_loop_first before nick after content sep remainder :
  Forall (fun n => nickname_matches n content = false) before ->
  content = nick ++ sep ++ remainder ->
  Js.exec_separator (sep ++ remainder) = Some sep ->
  Parser.strip_loop (before ++ nick :: after) content = Some remainder.
Proof.
  intros Hbefore -> Hsep.
  induction Hbefore as [|n before Hn _ IH]; simpl.
  - rewrite startsWith_app. simpl. rewrite slice_app, Hsep.
    by rewrite slice_app.
  - unfold nickname_matches in Hn.
    destruct (Js.startsWith n _); simpl in *; [|done].
    by destruct (Js.exec_separator _).
Qed.

Lemma strip_mentions_none self els v :
  Forall (fun e => Parser.is_at e = false) els ->
  Parser.strip_mentions segment self els v = v.
Proof.
  intros H. destruct H as [|e els He _]; simpl; [done|]. by rewrite He.
Qed.

Lemma strip_prefixes_harmless prefixes v :
  Forall (fun p => p = [] \/ Js.startsWith p (Parser.v_content v) = false)
         prefixes ->
  Parser.v_content (Parser.strip_prefixes prefixes v) = Parser.v_content v /\
  Parser.v_appel (Parser.strip_prefixes prefixes v) = Parser.v_appel v.
Proof.
  revert v. induction prefixes as [|p prefixes IH]; intros v Hall; [done|].
  inversion Hall as [|? ? Hp Hrest]; subst. simpl.
  destruct Hp as [->|Hp].
  - simpl. destruct (IH (Parser.mkVars (Parser.v_atSelf v) (Parser.v_appel v)
                           (Parser.v_hasMention v) (Parser.v_content v) (Some [])))
      as [H1 H2]; [done|]. done.
  - rewrite Hp. simpl. by apply IH.
Qed.

Lemma strip_prefixes_appel prefixes v :
  Parser.v_appel (Parser.strip_prefixes prefixes v) = Parser.v_appel v.
Proof.
  revert v. induction prefixes as [|p prefixes IH]; intros v; [done|].
  simpl. destruct (negb _); [apply IH|]. by rewrite IH.
Qed.

(** C6, as amended.  Let the mention loop of [_process] leave the
    variables [v], with no mention seen or the bot itself mentioned, so
    that nickname stripping is attempted.  Among the configured
    nicknames that start the content of [v] (after a leading ["@"] is
    dropped) and are followed there by a match of the separator
    pattern, take the first in configured order: [nick], with the
    separator [sep] the pattern captures.  When what follows [sep] is
    not empty, the nickname and the separator are stripped: prefix
    stripping starts from the remainder, and the parsed message has
    [appel] true.  When nothing follows [sep], the nickname step
    changes nothing and no later nickname is tried: prefix stripping
    starts from [v] as the mention loop left it.  In particular a
    session whose content is ["Bot, hello"], without mention elements,
    with the nickname ["Bot"] and no resolved prefix other than the
    empty one that starts ["hello"], is parsed to content ["hello"]
    with [appel] true. *)
Theorem nickname_is_stripped :
  (forall session before nick after sep remainder,
     let v := Parser.strip_mentions segment (selfId session)
                (Parser.session_elements segment session)
                (Parser.mkVars false false false
                   (Js.trim (content session)) None) in
     negb (Parser.v_hasMention v) || Parser.v_atSelf v = true ->
     makeArray (nickname config) = before ++ nick :: after ->
     Forall (fun n => nickname_matches n (without_at (Parser.v_content v))
                      = false) before ->
     without_at (Parser.v_content v) = nick ++ sep ++ remainder ->
     Js.exec_separator (sep ++ remainder) = Some sep ->
     remainder <> [] ->
     Parser.parse_vars config segment session
     = Parser.strip_prefixes (Parser._resolvePrefixes config segment session)
         (Parser.mkVars (Parser.v_atSelf v) true (Parser.v_hasMention v)
                        remainder (Parser.v_prefix v)) /\
     p_appel (Parser.parsed_of (Parser.parse_vars config segment session))
     = true) /\
  (forall session before nick after sep,
     let v := Parser.strip_mentions segment (selfId session)
                (Parser.session_elements segment session)
                (Parser.mkVars false false false
                   (Js.trim (content session)) None) in
     negb (Parser.v_hasMention v) || Parser.v_atSelf v = true ->
     makeArray (nickname config) = before ++ nick :: after ->
     Forall (fun n => nickname_matches n (without_at (Parser.v_content v))
                      = false) before ->
     without_at (Parser.v_content v) = nick ++ sep ->
     Js.exec_separator sep = Some sep ->
     Parser.parse_vars config segment session
     = Parser.strip_prefixes (Parser._resolvePrefixes config segment session)
         v) /\
  (forall session,
     content session = js "Bot, hello" ->
     nickname config = Single (js "Bot") ->
     Forall (fun e => Parser.is_at e = false)
            (Parser.session_elements segment session) ->
     Forall (fun p => p = [] \/ Js.startsWith p (js "hello") = false)
            (Parser._resolvePrefixes config segment session) ->
     let parsed := Parser.parsed_of
                     (Parser.parse_vars config segment session) in
     p_content parsed = js "hello" /\ p_appel parsed = true).
Proof.
  split; [|split].
  - intros session before nick after sep remainder v
           Hattempt Hnicks Hbefore Hcontent Hsep Hrem.
    assert (Hstep : Parser.strip_nickname_step config v
                    = Parser.mkVars (Parser.v_atSelf v) true
                        (Parser.v_hasMention v) remainder (Parser.v_prefix v)).
    { unfold Parser.strip_nickname_step, Parser._stripNickname.
      fold (without_at (Parser.v_content v)). rewrite Hnicks.
      rewrite (strip_loop_first _ _ _ _ sep remainder Hbefore Hcontent Hsep).
      by destruct remainder. }
    assert (Hparse : Parser.parse_vars config segment session
                     = Parser.strip_prefixes
                         (Parser._resolvePrefixes config segment session)
                         (Parser.strip_nickname_step config v)).
    { unfold Parser.parse_vars. fold v. by rewrite Hattempt. }
    rewrite Hparse, Hstep. split; [done|].
    unfold Parser.parsed_of. simpl. by rewrite strip_prefixes_appel.
  - intros session before nick after sep v
           Hattempt Hnicks Hbefore Hcontent Hsep.
    assert (Hstep : Parser.strip_nickname_step config v = v).
    { unfold Parser.strip_nickname_step, Parser._stripNickname.
      fold (without_at (Parser.v_content v)). rewrite Hnicks.
      rewrite (strip_loop_first _ _ _ _ sep [] Hbefore);
        [done|by rewrite app_nil_r|by rewrite app_nil_r]. }
    unfold Parser.parse_vars. fold v. by rewrite Hattempt, Hstep.
  - intros session Hcontent Hnick Hels Hprefixes.
    cbv zeta. unfold Parser.parse_vars. rewrite Hcontent.
    rewrite (strip_mentions_none _ _ _ Hels).
    cbn [Parser.v_hasMention Parser.v_atSelf negb orb].
    assert (Hstep : Parser.strip_nickname_step config
                      (Parser.mkVars false false false
                         (Js.trim (js "Bot, hello")) None)
                    = Parser.mkVars false true false (js "hello") None).
    { unfold Parser.strip_nickname_step, Parser._stripNickname.
      rewrite Hnick. reflexivity. }
    rewrite Hstep.
    by destruct (strip_prefixes_harmless _
                   (Parser.mkVars false true false (js "hello") None)
                   Hprefixes).
Qed.
End ParserFacts.

(** A message that calls the bot by its second nickname, written with
    an ["@"]; the example of the claim with the default prefix; and the
    message ["Koishi Bot,"] with the nicknames ["Koishi Bot"] and
    ["Koishi"]: the first one matches with nothing behind its
    separator, so the second one, behind which ["Bot,"] would be left,
    is not tried and nothing is stripped. *)
Lemma nickname_is_stripped_witness :
  (let config := Sample.config (Array [js "Koishi"; js "Bot"]) [[]] in
   Parser.parse_vars config Sample.segment (Sample.message "@Bot,  hello")
   = Parser.strip_prefixes
       (Parser._resolvePrefixes config Sample.segment
          (Sample.message "@Bot,  hello"))
       (Parser.mkVars false true false (js "hello") None) /\
   p_appel (Parser.parsed_of
              (Parser.parse_vars config Sample.segment
                 (Sample.message "@Bot,  hello"))) = true) /\
  (let parsed :=
     Parser.parsed_of
       (Parser.parse_vars (Sample.config (Single (js "Bot")) [[]])
          Sample.segment (Sample.message "Bot, hello")) in
   p_content parsed = js "hello" /\ p_appel parsed = true) /\
  (let config := Sample.config (Array [js "Koishi Bot"; js "Koishi"]) [[]] in
   nickname_matches (js "Koishi") (js "Koishi Bot,") = true /\
   Parser.parse_vars config Sample.segment (Sample.message "Koishi Bot,")
   = Parser.strip_prefixes
       (Parser._resolvePrefixes config Sample.segment
          (Sample.message "Koishi Bot,"))
       (Parser.mkVars false false false (js "Koishi Bot,") None)).
Proof.
  split; [|split].
  - apply (proj1 (nickname_is_stripped
                    (Sample.config (Array [js "Koishi"; js "Bot"]) [[]])
                    Sample.segment)
             (Sample.message "@Bot,  hello")
             [js "Koishi"] (js "Bot") [] (js ",  ") (js "hello")).
    + reflexivity.
    + reflexivity.
    + repeat constructor.
    + reflexivity.
    + reflexivity.
    + discriminate.
  - apply (proj2 (proj2 (nickname_is_stripped
                           (Sample.config (Single (js "Bot")) [[]])
                           Sample.segment)) (Sample.message "Bot, hello")).
    + reflexivity.
    + reflexivity.
    + repeat constructor.
    + constructor; [by left|constructor].
  - split; [reflexivity|].
    apply (proj1 (proj2 (nickname_is_stripped
                           (Sample.config
                              (Array [js "Koishi Bot"; js "Koishi"]) [[]])
                           Sample.segment))
             (Sample.message "Koishi Bot,")
             [] (js "Koishi Bot") [js "Koishi"] (js ",")).
    + reflexivity.
    + reflexivity.
    + constructor.
    + reflexivity.
    + reflexivity.
Defined.

(** C6 as stated fails.  With nickname ["Bot"] the message ["Bot,"]
    has no mention, starts with the nickname and goes on with a
    separator, [","]; nothing is left behind it, the empty remainder
    counts as no match, and the content stays ["Bot,"] with [appel]
    false.  With nickname ["@bot"] the message ["@bot, hi"] starts with
    the nickname and a separator, but the leading ["@"] is dropped
    before the comparison, so nothing is stripped either. *)
Lemma nickname_alone_is_not_stripped :
  (let config := Sample.config (Single (js "Bot")) [[]] in
   let parsed := Parser.parsed_of
                   (Parser.parse_vars config Sample.segment
                      (Sample.message "Bot,")) in
   Forall (fun e => Parser.is_at e = false)
          (Parser.session_elements Sample.segment (Sample.message "Bot,")) /\
   Js.trim (js "Bot,") = js "Bot" ++ js "," ++ [] /\
   Js.exec_separator (js "," ++ []) = Some (js ",") /\
   p_content parsed = js "Bot," /\ p_appel parsed = false) /\
  (let config := Sample.config (Single (js "@bot")) [[]] in
   let parsed := Parser.parsed_of
                   (Parser.parse_vars config Sample.segment
                      (Sample.message "@bot, hi")) in
   Forall (fun e => Parser.is_at e = false)
          (Parser.session_elements Sample.segment
             (Sample.message "@bot, hi")) /\
   Js.trim (js "@bot, hi") = js "@bot" ++ js ", " ++ js "hi" /\
   Js.exec_separator (js ", " ++ js "hi") = Some (js ", ") /\
   p_content parsed = js "@bot, hi" /\ p_appel parsed = false).
Proof.
  split; (split; [repeat constructor|repeat split; vm_compute; reflexivity]).
Qed.

(** C7 fails on the code: the prefix loop has no [break].  With the
    prefixes ["/"] and [""] the message ["/help"] loses its ["/"], but
    the prefix recorded is the empty one that matches afterwards; with
    the prefixes ["a"] and ["b"] the message ["abc"] loses both. *)
Lemma prefix_loop_goes_on_after_a_match :
  (let parsed :=
     Parser.parsed_of
       (Parser.parse_vars (Sample.config Missing [js "/"; js ""])
          Sample.segment (Sample.message "/help")) in
   Js.startsWith (js "/") (js "/help") = true /\
   p_content parsed = js "help" /\ p_prefix parsed = Some (js "")) /\
  (let parsed :=
     Parser.parsed_of
       (Parser.parse_vars (Sample.config Missing [js "a"; js "b"])
          Sample.segment (Sample.message "abc")) in
   Js.startsWith (js "a") (js "abc") = true /\
   p_content parsed = js "c" /\ p_prefix parsed = Some (js "b")).
Proof. repeat split; vm_compute; reflexivity. Qed.

(** ** SharedCache: entries, reads and releases *)

Section CacheEntries.
Context {T : Type}.
Implicit Types (c : SharedCache.t T) (o : SharedCache.Op T) (r k : JsString).

Lemma cache_run_snoc ops o c :
  SharedCache.run (ops ++ [o]) c = SharedCache.step (SharedCache.run ops c) o.
Proof. by rewrite cache_run_app. Qed.

Lemma release_Some_inv r (e e' : SharedCache.Entry T) :
  SharedCache.release r e = Some e' ->
  SharedCache.value e' = SharedCache.value e /\
  SharedCache.key e' = SharedCache.key e /\
  SharedCache.refs e' = SharedCache.refs e ∖ {[r]} /\
  SharedCache.refs e' <> ∅.
Proof.
  unfold SharedCache.release. destruct (decide _) as [|Hn]; [done|].
  intros [= <-]. simpl. repeat split; try done.
  intros Hempty. apply Hn. rewrite Hempty. apply size_empty.
Qed.

(** X1.  In a cache that started empty and was only used through
    [get], [set] and [delete], every entry is filed under its own key,
    has at least one referrer, and each of its referrers made a [get]
    or a [set] on that key. *)
Theorem cache_entries_are_held (ops : list (SharedCache.Op T))
    (k : JsString) (e : SharedCache.Entry T) :
  SharedCache.run ops SharedCache.empty !! k = Some e ->
  SharedCache.key e = k /\
  SharedCache.refs e <> ∅ /\
  forall r, r ∈ SharedCache.refs e -> Exists (SharedCache.touches r k) ops.
Proof.
  revert k e. induction ops as [|o ops IH] using rev_ind; intros k e.
  { unfold SharedCache.empty. simpl. by rewrite lookup_empty. }
  rewrite cache_run_snoc.
  set (c := SharedCache.run ops SharedCache.empty) in *.
  assert (Hold : forall e0, c !! k = Some e0 ->
            SharedCache.key e0 = k /\ SharedCache.refs e0 <> ∅ /\
            forall r, r ∈ SharedCache.refs e0 ->
                      Exists (SharedCache.touches r k) (ops ++ [o])).
  { intros e0 He0. destruct (IH _ _ He0) as (Hk & Hn & Hr).
    repeat split; try done. intros r Hin. apply Exists_app. left. auto. }
  assert (Hnew : forall r, SharedCache.touches r k o ->
            Exists (SharedCache.touches r k) (ops ++ [o])).
  { intros r Ht. apply Exists_app. right. by constructor. }
  destruct o as [ref k'|ref k' v|ref]; simpl.
  - unfold SharedCache.get. destruct (c !! k') as [e1|] eqn:E1; simpl; [|apply Hold].
    destruct (decide (k' = k)) as [->|Hne].
    + rewrite lookup_insert_eq. intros [= <-]. simpl.
      destruct (Hold _ E1) as (Hk & Hn & Hr).
      split; [done|]. split; [set_solver|].
      intros r [->%elem_of_singleton|Hin]%elem_of_union; [|by apply Hr].
      by apply Hnew.
    + rewrite lookup_insert_ne by done. apply Hold.
  - unfold SharedCache.set. destruct (decide (k' = k)) as [->|Hne].
    + rewrite lookup_insert_eq. intros [= <-]. simpl.
      destruct (c !! k) as [e1|] eqn:E1; simpl.
      * destruct (Hold _ eq_refl) as (Hk & Hn & Hr).
        split; [done|]. split; [set_solver|].
        intros r [->%elem_of_singleton|Hin]%elem_of_union; [|by apply Hr].
        by apply Hnew.
      * split; [done|]. split; [set_solver|].
        intros r [->%elem_of_singleton|Hin]%elem_of_union; [|set_solver].
        by apply Hnew.
    + rewrite lookup_insert_ne by done. apply Hold.
  - rewrite lookup_cache_delete. destruct (c !! k) as [e1|] eqn:E1; simpl; [|done].
    intros Hrel. apply release_Some_inv in Hrel as (Hv & Hk & Hr & Hn).
    destruct (Hold _ eq_refl) as (Hk1 & Hn1 & Hr1).
    split; [congruence|]. split; [done|].
    intros r Hin. apply Hr1. set_solver.
Qed.

(** X2.  A [get] of a key that was just [set] returns the stored
    value, whoever asks.  Afterwards the writer, the reader and every
    earlier holder of the key hold it, and the entries of the other
    keys are as before. *)
Theorem set_then_get c r1 r2 k v :
  let result := SharedCache.get r2 k (SharedCache.set r1 k v c) in
  fst result = Some v /\
  SharedCache.holds r1 k (snd result) /\
  SharedCache.holds r2 k (snd result) /\
  (forall r, SharedCache.holds r k c -> SharedCache.holds r k (snd result)) /\
  (forall k', k' <> k -> snd result !! k' = c !! k').
Proof.
  unfold SharedCache.get, SharedCache.set. rewrite lookup_insert_eq. simpl.
  split; [by destruct (c !! k)|].
  split; [eexists; rewrite lookup_insert_eq; split; [done|simpl; set_solver]|].
  split; [eexists; rewrite lookup_insert_eq; split; [done|simpl; set_solver]|].
  split.
  - intros r (e & He & Hr). eexists. rewrite lookup_insert_eq.
    split; [done|]. rewrite He. simpl. set_solver.
  - intros k' Hne. by rewrite !lookup_insert_ne.
Qed.

(** X3.  [get] never adds, removes or changes a record: the
    cache has the same keys and the same values afterwards.  On an
    absent key it returns [undefined] and leaves the cache as it is,
    and in every case the entries of the other keys are untouched. *)
Theorem get_is_a_read c r k :
  let c' := snd (SharedCache.get r k c) in
  dom c' = dom c /\
  (forall k', SharedCache.value <$> (c' !! k') = SharedCache.value <$> (c !! k')) /\
  (c !! k = None -> SharedCache.get r k c = (None, c)) /\
  (forall k', k' <> k -> c' !! k' = c !! k').
Proof.
  unfold SharedCache.get. destruct (c !! k) as [e|] eqn:E; simpl.
  - split; [|split; [|split]].
    + rewrite dom_insert_L. apply elem_of_dom_2 in E. set_solver.
    + intros k'. destruct (decide (k = k')) as [<-|Hne].
      * by rewrite lookup_insert_eq, E.
      * by rewrite lookup_insert_ne.
    + done.
    + intros k' Hne. by rewrite lookup_insert_ne.
  - done.
Qed.

Lemma release_release r1 r2 (e : SharedCache.Entry T) :
  SharedCache.release r1 e ≫= SharedCache.release r2
  = SharedCache.release r2 e ≫= SharedCache.release r1.
Proof.
  unfold SharedCache.release.
  destruct (decide (size (SharedCache.refs e ∖ {[r1]}) = 0%nat)) as [H1|H1];
  destruct (decide (size (SharedCache.refs e ∖ {[r2]}) = 0%nat)) as [H2|H2];
    simpl; try done.
  - destruct (decide _) as [|Hn]; [done|]. exfalso. apply Hn.
    apply size_empty_inv in H1. apply size_empty_iff. set_solver.
  - destruct (decide _) as [|Hn]; [done|]. exfalso. apply Hn.
    apply size_empty_inv in H2. apply size_empty_iff. set_solver.
  - assert (Heq : SharedCache.refs e ∖ {[r1]} ∖ {[r2]}
                  = SharedCache.refs e ∖ {[r2]} ∖ {[r1]}) by set_solver.
    rewrite Heq. by destruct (decide _).
Qed.

Lemma release_twice r (e : SharedCache.Entry T) :
  SharedCache.release r e ≫= SharedCache.release r = SharedCache.release r e.
Proof.
  unfold SharedCache.release.
  destruct (decide (size (SharedCache.refs e ∖ {[r]}) = 0%nat)) as [H1|H1];
    simpl; [done|].
  assert (Heq : SharedCache.refs e ∖ {[r]} ∖ {[r]} = SharedCache.refs e ∖ {[r]})
    by set_solver.
  rewrite Heq. by destruct (decide _).
Qed.

(** X4.  Releasing two referrers gives the same cache in either
    order, and releasing a referrer a second time changes nothing. *)
Theorem delete_commutes c r1 r2 :
  SharedCache.delete r1 (SharedCache.delete r2 c)
  = SharedCache.delete r2 (SharedCache.delete r1 c) /\
  SharedCache.delete r1 (SharedCache.delete r1 c) = SharedCache.delete r1 c.
Proof.
  split; apply map_eq; intros k; rewrite !lookup_cache_delete.
  - destruct (c !! k) as [e|]; simpl; [|done]. apply release_release.
  - destruct (c !! k) as [e|]; simpl; [|done]. apply release_twice.
Qed.

(** X5.  What [delete ref] does to the entry of one key: an entry
    whose only referrer is [ref] is evicted; any other entry stays,
    with the same value and key and with [ref] taken out of its
    referrers; a key without entry stays without. *)
Theorem delete_evicts_sole_holdings c r k :
  match c !! k with
  | None => SharedCache.delete r c !! k = None
  | Some e =>
      if decide (SharedCache.refs e ⊆ {[r]}) then
        SharedCache.delete r c !! k = None
      else
        SharedCache.delete r c !! k
        = Some (SharedCache.mkEntry (SharedCache.value e) (SharedCache.key e)
                  (SharedCache.refs e ∖ {[r]}))
  end.
Proof.
  rewrite lookup_cache_delete. destruct (c !! k) as [e|]; simpl; [|done].
  destruct (decide _) as [Hs|Hs]; [by apply release_last|].
  unfold SharedCache.release. destruct (decide _) as [Hz|]; [|done].
  exfalso. apply Hs. apply size_empty_inv in Hz.
  intros x Hx. apply elem_of_singleton.
  destruct (decide (x = r)) as [|Hne]; [done|].
  assert (Hin : x ∈ SharedCache.refs e ∖ {[r]})
    by (apply elem_of_difference; split; [done|by rewrite elem_of_singleton]).
  rewrite Hz in Hin. by apply elem_of_empty in Hin.
Qed.

Lemma delete_all_lookup rs c k e' :
  delete_all rs c !! k = Some e' ->
  exists e, c !! k = Some e /\
            SharedCache.refs e' = SharedCache.refs e ∖ list_to_set rs /\
            (rs <> [] -> SharedCache.refs e' <> ∅).
Proof.
  revert c e'. induction rs as [|r rs IH] using rev_ind; intros c e'.
  - simpl. intros H. exists e'. split; [done|]. split; [set_solver|done].
  - unfold delete_all. rewrite fold_left_app. simpl.
    fold (delete_all rs c). rewrite lookup_cache_delete.
    destruct (delete_all rs c !! k) as [e1|] eqn:E1; simpl; [|done].
    intros Hrel. apply release_Some_inv in Hrel as (_ & _ & Hr & Hn).
    destruct (IH _ _ E1) as (e & He & Hrefs & _).
    exists e. split; [done|]. split; [|done].
    rewrite Hr, Hrefs, list_to_set_app_L. set_solver.
Qed.

Lemma hold_within (ref : JsString) (X : gset JsString) (rs : list JsString) :
  ref ∈ rs -> X ⊆ list_to_set rs ->
  {[ref]} ∪ X <> ∅ /\ {[ref]} ∪ X ⊆ list_to_set rs.
Proof.
  intros Href Hsub. split.
  - intros Hempty.
    assert (Hin : ref ∈ ({[ref]} ∪ X : gset JsString))
      by (by apply elem_of_union_l, elem_of_singleton).
    rewrite Hempty in Hin. by apply elem_of_empty in Hin.
  - intros x [->%elem_of_singleton|Hx]%elem_of_union;
      [by apply elem_of_list_to_set|by apply Hsub].
Qed.

Lemma run_refs_within (ops : list (SharedCache.Op T)) (rs : list JsString)
    (k : JsString) (e : SharedCache.Entry T) :
  Forall (by_one_of rs) ops ->
  SharedCache.run ops SharedCache.empty !! k = Some e ->
  SharedCache.refs e <> ∅ /\ SharedCache.refs e ⊆ list_to_set rs.
Proof.
  revert k e. induction ops as [|o ops IH] using rev_ind; intros k e Hall.
  { unfold SharedCache.empty. simpl. by rewrite lookup_empty. }
  apply Forall_app in Hall as [Hops Ho]. rewrite Forall_singleton in Ho.
  rewrite cache_run_snoc.
  set (c := SharedCache.run ops SharedCache.empty) in *.
  destruct o as [ref k'|ref k' v|ref]; simpl in Ho |- *.
  - unfold SharedCache.get.
    destruct (c !! k') as [e1|] eqn:E1; simpl; [|by apply IH].
    destruct (decide (k' = k)) as [->|Hne].
    + rewrite lookup_insert_eq. intros [= <-]. simpl.
      destruct (IH _ _ Hops E1) as [_ Hsub]. by apply hold_within.
    + rewrite lookup_insert_ne by done. by apply IH.
  - unfold SharedCache.set. destruct (decide (k' = k)) as [->|Hne].
    + rewrite lookup_insert_eq. intros [= <-]. simpl.
      destruct (c !! k) as [e1|] eqn:E1; simpl.
      * destruct (IH _ _ Hops E1) as [_ Hsub]. by apply hold_within.
      * apply hold_within; [done|]. intros x Hx. by apply elem_of_empty in Hx.
    + rewrite lookup_insert_ne by done. by apply IH.
  - rewrite lookup_cache_delete.
    destruct (c !! k) as [e1|] eqn:E1; simpl; [|done].
    intros Hrel. apply release_Some_inv in Hrel as (_ & _ & Hr & Hn).
    destruct (IH _ _ Hops E1) as [_ Hsub]. split; [done|].
    intros x Hx. rewrite Hr in Hx. apply elem_of_difference in Hx as [Hx _].
    by apply Hsub.
Qed.

(** X6.  No entry outlives its referrers: when every [get] and
    [set] made on a cache that started empty was made by one of the
    referrers [rs], the cache is empty once each of them has been
    released. *)
Theorem released_cache_is_empty (ops : list (SharedCache.Op T))
    (rs : list JsString) :
  Forall (by_one_of rs) ops ->
  delete_all rs (SharedCache.run ops SharedCache.empty) = ∅.
Proof.
  intros Hall. apply map_eq. intros k. rewrite lookup_empty.
  destruct (delete_all rs _ !! k) as [e'|] eqn:E; [|done]. exfalso.
  apply delete_all_lookup in E as (e & He & Hrefs & Hn).
  destruct (run_refs_within _ _ _ _ Hall He) as (Hne & Hsub).
  destruct rs as [|r0 rs].
  - set_solver.
  - apply Hn; [done|]. rewrite Hrefs. set_solver.
Qed.
End CacheEntries.

(** Session [a] stores a record under ["u"] and session [b] reads it:
    the entry is filed under its own key and each of its two referrers
    touched it. *)
Lemma cache_entries_are_held_witness :
  let ops := [SharedCache.OpSet (js "a") (js "u") 1;
              SharedCache.OpGet (js "b") (js "u")] in
  exists e,
    SharedCache.run ops SharedCache.empty !! js "u" = Some e /\
    SharedCache.key e = js "u" /\
    SharedCache.refs e <> ∅ /\
    forall r, r ∈ SharedCache.refs e ->
              Exists (SharedCache.touches r (js "u")) ops.
Proof.
  intros ops. eexists. split; [vm_compute; reflexivity|].
  apply (cache_entries_are_held ops (js "u")).
  vm_compute. reflexivity.
Defined.

(** Two sessions share one record and one of them stores a second one:
    once both are released the cache is empty. *)
Lemma released_cache_is_empty_witness :
  delete_all [js "a"; js "b"]
    (SharedCache.run [SharedCache.OpSet (js "a") (js "u") 1;
                      SharedCache.OpGet (js "b") (js "u");
                      SharedCache.OpSet (js "a") (js "v") 2]
       SharedCache.empty)
  = ∅.
Proof.
  apply (released_cache_is_empty
           [SharedCache.OpSet (js "a") (js "u") 1;
            SharedCache.OpGet (js "b") (js "u");
            SharedCache.OpSet (js "a") (js "v") 2] [js "a"; js "b"]).
  repeat constructor.
Defined.

(** ** What the parser returns *)

Lemma spaces_rest s c r :
  drop (length (Js.spaces s)) s = c :: r -> Js.is_space c = false.
Proof.
  induction s as [|a s IH]; simpl; [done|].
  destruct (Js.is_space a) eqn:Ea; simpl; [done|].
  by intros [= -> ->].
Qed.

Lemma exec_separator_rest s capture c r :
  Js.exec_separator s = Some capture ->
  Js.slice (length capture) s = c :: r -> Js.is_space c = false.
Proof.
  unfold Js.exec_separator, Js.slice. destruct s as [|a s]; [done|].
  destruct (_ || _)%bool.
  - intros [= <-]. simpl. apply spaces_rest.
  - destruct (Js.is_space a) eqn:Ea; [|done]. intros [= <-].
    exact (spaces_rest (a :: s) c r).
Qed.

Section ParserResults.
Variable config : Config.
Variable segment : Segment.

Lemma strip_loop_result nicknames content r :
  Parser.strip_loop nicknames content = Some r ->
  (exists nick, nick ∈ nicknames /\ Js.startsWith nick content = true /\
                exists n, r = drop n content) /\
  (forall c r', r = c :: r' -> Js.is_space c = false).
Proof.
  induction nicknames as [|nick more IH]; simpl; [done|].
  destruct (Js.startsWith nick content) eqn:Es; simpl.
  - destruct (Js.exec_separator _) as [capture|] eqn:Ec.
    + intros [= <-]. split.
      * exists nick. split; [left|]. split; [done|].
        exists (length nick + length capture)%nat. unfold Js.slice.
        by rewrite drop_drop.
      * intros c r'. by apply exec_separator_rest.
    + intros H. destruct (IH H) as ((n & Hn & Hr) & Hc).
      split; [|done]. exists n. split; [by right|done].
  - intros H. destruct (IH H) as ((n & Hn & Hr) & Hc).
    split; [|done]. exists n. split; [by right|done].
Qed.

(** X7.  [_stripNickname] returns [undefined] when no nickname is
    configured.  When it returns a string, some configured nickname
    starts the content (after a leading ["@"] is dropped), the result
    is a suffix of the content, and it does not start with white
    space. *)
Theorem stripNickname_result (content : JsString) :
  (makeArray (nickname config) = [] ->
   Parser._stripNickname config content = None) /\
  (forall r,
     Parser._stripNickname config content = Some r ->
     (exists nick, nick ∈ makeArray (nickname config) /\
                   Js.startsWith nick (without_at content) = true) /\
     (exists n, r = drop n content) /\
     (forall c r', r = c :: r' -> Js.is_space c = false)).
Proof.
  unfold Parser._stripNickname. fold (without_at content). split.
  - by intros ->.
  - intros r Hr. apply strip_loop_result in Hr
      as ((nick & Hin & Hs & n & Hn) & Hc).
    split; [by exists nick|]. split; [|done].
    unfold without_at, Js.slice in Hn.
    destruct (Js.startsWith _ content).
    + exists (1 + n)%nat. by rewrite <- drop_drop.
    + by exists n.
Qed.

Lemma strip_mentions_keeps_self self els v :
  Parser.v_atSelf v = true -> Parser.v_appel v = true ->
  Parser.v_atSelf (Parser.strip_mentions segment self els v) = true /\
  Parser.v_appel (Parser.strip_mentions segment self els v) = true.
Proof.
  revert v.
  induction els as [els IH] using (induction_ltof1 _ (@length Element)).
  unfold ltof in IH. intros v Hs Ha.
  destruct els as [|e rest]; simpl; [done|].
  destruct (Parser.is_at e); [|done].
  rewrite Hs, Ha. simpl.
  destruct rest as [|t rest']; [done|].
  destruct (Parser.is_blank_text t); apply IH; simpl; try done; lia.
Qed.

Lemma strip_mentions_prefix self els v :
  Parser.v_prefix (Parser.strip_mentions segment self els v) = Parser.v_prefix v.
Proof.
  revert v.
  induction els as [els IH] using (induction_ltof1 _ (@length Element)).
  unfold ltof in IH. intros v.
  destruct els as [|e rest]; simpl; [done|].
  destruct (Parser.is_at e); [|done].
  destruct rest as [|t rest']; [done|].
  destruct (Parser.is_blank_text t); rewrite IH; simpl; try done; lia.
Qed.

Lemma strip_nickname_step_keeps v :
  Parser.v_atSelf (Parser.strip_nickname_step config v) = Parser.v_atSelf v /\
  Parser.v_hasMention (Parser.strip_nickname_step config v)
  = Parser.v_hasMention v /\
  Parser.v_prefix (Parser.strip_nickname_step config v) = Parser.v_prefix v /\
  (Parser.v_appel v = true ->
   Parser.v_appel (Parser.strip_nickname_step config v) = true).
Proof.
  unfold Parser.strip_nickname_step.
  destruct (Parser._stripNickname config _) as [r|]; [|done].
  by destruct (Js.truthy r).
Qed.

(** X8.  A message whose first element is a mention of the bot
    itself is an appellation: [parsed.appel] is true, whatever the rest
    of the message and the configuration are. *)
Theorem self_mention_sets_appel (session : Session) (e : Element)
    (others : list Element) :
  Parser.session_elements segment session = e :: others ->
  Parser.is_at e = true ->
  el_id e = Some (selfId session) ->
  p_appel (Parser.parsed_of (Parser.parse_vars config segment session)) = true.
Proof.
  intros Hels Hat Hid. unfold Parser.parse_vars. rewrite Hels.
  set (v0 := Parser.mkVars false false false _ None).
  assert (Hv : Parser.v_atSelf (Parser.strip_mentions segment (selfId session)
                                  (e :: others) v0) = true /\
               Parser.v_appel (Parser.strip_mentions segment (selfId session)
                                 (e :: others) v0) = true).
  { simpl. rewrite Hat, Hid, bool_decide_eq_true_2 by done. simpl.
    destruct others as [|t rest']; [done|].
    destruct (Parser.is_blank_text t); by apply strip_mentions_keeps_self. }
  destruct Hv as [Hs Ha]. rewrite Hs, orb_true_r.
  unfold Parser.parsed_of. simpl. rewrite strip_prefixes_appel.
  by apply strip_nickname_step_keeps.
Qed.

(** X9.  When the message starts with a mention of someone else
    and no other mention follows it, neither a nickname nor a prefix is
    stripped: the parsed content is the rest of the message without its
    leading white space, [appel] is false and [prefix] is [null]. *)
Theorem foreign_mention_skips_stripping (session : Session) (e : Element)
    (others : list Element) :
  Parser.session_elements segment session = e :: others ->
  Parser.is_at e = true ->
  el_id e <> Some (selfId session) ->
  Forall (fun e' => Parser.is_at e' = false) others ->
  Parser.parsed_of (Parser.parse_vars config segment session)
  = mkParsed (Js.trimStart (Parser.join segment others)) false None.
Proof.
  intros Hels Hat Hid Hothers. unfold Parser.parse_vars. rewrite Hels.
  simpl. rewrite Hat, bool_decide_eq_false_2 by done. simpl.
  destruct others as [|t rest']; [done|].
  inversion Hothers as [|? ? Ht Hrest]; subst.
  destruct (Parser.is_blank_text t).
  - by rewrite (strip_mentions_none segment _ _ _ Hrest).
  - by rewrite (strip_mentions_none segment _ _ _ Hothers).
Qed.

Lemma strip_prefixes_spec prefixes v :
  let v' := Parser.strip_prefixes prefixes v in
  (exists n, Parser.v_content v' = drop n (Parser.v_content v)) /\
  (Parser.v_prefix v' = Parser.v_prefix v \/
   exists p, p ∈ prefixes /\ Parser.v_prefix v' = Some p) /\
  Parser.v_atSelf v' = Parser.v_atSelf v /\
  Parser.v_hasMention v' = Parser.v_hasMention v.
Proof.
  revert v. induction prefixes as [|p prefixes IH]; intros v; simpl.
  - split; [by exists 0%nat|]. split; [by left|done].
  - destruct (Js.startsWith p (Parser.v_content v)); simpl.
    + destruct (IH (Parser.mkVars (Parser.v_atSelf v) (Parser.v_appel v)
                      (Parser.v_hasMention v)
                      (Js.slice (length p) (Parser.v_content v)) (Some p)))
        as ((n & Hn) & Hp & Hs & Hm). simpl in *.
      split; [exists (length p + n)%nat; unfold Js.slice in Hn |- *;
              by rewrite Hn, drop_drop|].
      split; [|done]. right. destruct Hp as [Hp|(q & Hq & Hp)].
      * exists p. split; [left|done].
      * exists q. split; [by right|done].
    + destruct (IH v) as (Hn & Hp & Hs & Hm). split; [done|].
      split; [|done]. destruct Hp as [Hp|(q & Hq & Hp)]; [by left|].
      right. exists q. split; [by right|done].
Qed.

Lemma strip_prefixes_no_match prefixes v :
  Forall (fun p => Js.startsWith p (Parser.v_content v) = false) prefixes ->
  Parser.strip_prefixes prefixes v = v.
Proof.
  induction 1 as [|p prefixes Hp _ IH]; simpl; [done|]. by rewrite Hp.
Qed.

Lemma strip_prefixes_empty_prefix prefixes v :
  [] ∈ prefixes ->
  exists p, p ∈ prefixes /\
            Parser.v_prefix (Parser.strip_prefixes prefixes v) = Some p.
Proof.
  revert v. induction prefixes as [|q prefixes IH]; intros v Hin.
  { by apply elem_of_nil in Hin. }
  apply elem_of_cons in Hin as [<-|Hin].
  - simpl.
    destruct (strip_prefixes_spec prefixes
                (Parser.mkVars (Parser.v_atSelf v) (Parser.v_appel v)
                   (Parser.v_hasMention v)
                   (Js.slice 0 (Parser.v_content v)) (Some [])))
      as (_ & [Hp|(p & Hp & Hq)] & _); simpl in *.
    + exists []. split; [left|done].
    + exists p. split; [by right|done].
  - simpl. destruct (negb _).
    + destruct (IH v Hin) as (p & Hp & Hq). exists p. split; [by right|done].
    + destruct (IH (Parser.mkVars (Parser.v_atSelf v) (Parser.v_appel v)
                      (Parser.v_hasMention v)
                      (Js.slice (length q) (Parser.v_content v)) (Some q)) Hin)
        as (p & Hp & Hq). exists p. split; [by right|done].
Qed.

(** X10.  When the prefix loop is entered (the message has no
    mention, or mentions the bot): the parsed content is a suffix of
    the content the loop started from; a recorded prefix is one of the
    resolved prefixes; when no resolved prefix starts the content,
    [prefix] stays [null] and the content is unchanged; and when the
    empty prefix is among the resolved ones, [prefix] is never
    [null]. *)
Theorem prefix_loop_result (session : Session) :
  let before :=
    Parser.strip_nickname_step config
      (Parser.strip_mentions segment (selfId session)
         (Parser.session_elements segment session)
         (Parser.mkVars false false false (Js.trim (content session)) None)) in
  let prefixes := Parser._resolvePrefixes config segment session in
  let parsed := Parser.parsed_of (Parser.parse_vars config segment session) in
  negb (Parser.v_hasMention before) || Parser.v_atSelf before = true ->
  (exists n, p_content parsed = drop n (Parser.v_content before)) /\
  (forall p, p_prefix parsed = Some p -> p ∈ prefixes) /\
  (Forall (fun p => Js.startsWith p (Parser.v_content before) = false)
          prefixes ->
   p_prefix parsed = None /\ p_content parsed = Parser.v_content before) /\
  ([] ∈ prefixes -> p_prefix parsed <> None).
Proof.
  intros before prefixes parsed Hattempt.
  set (v := Parser.strip_mentions segment (selfId session)
              (Parser.session_elements segment session)
              (Parser.mkVars false false false (Js.trim (content session)) None))
    in *.
  destruct (strip_nickname_step_keeps v) as (Hs & Hm & Hp & _).
  assert (Hparse : Parser.parse_vars config segment session
                   = Parser.strip_prefixes prefixes before).
  { unfold Parser.parse_vars. fold v. unfold before in Hattempt.
    rewrite Hs, Hm in Hattempt. by rewrite Hattempt. }
  assert (Hnone : Parser.v_prefix before = None).
  { unfold before. rewrite Hp. unfold v. by rewrite strip_mentions_prefix. }
  unfold parsed. rewrite Hparse. unfold Parser.parsed_of. simpl.
  destruct (strip_prefixes_spec prefixes before) as (Hn & Hpre & _).
  simpl in Hn, Hpre. split; [done|]. split; [|split].
  - intros p Hsome. destruct Hpre as [Heq|(q & Hq & Heq)].
    + rewrite Heq, Hnone in Hsome. done.
    + rewrite Heq in Hsome. by injection Hsome as <-.
  - intros Hno. by rewrite (strip_prefixes_no_match _ _ Hno).
  - intros Hin. destruct (strip_prefixes_empty_prefix prefixes before Hin)
      as (p & _ & Heq). by rewrite Heq.
Qed.
End ParserResults.

(** ["@Bot,  hi"] with the nickname ["Bot"]: the result is ["hi"], a
    suffix of the content that starts with no white space. *)
Lemma stripNickname_result_witness :
  Parser._stripNickname (Sample.config (Single (js "Bot")) [[]])
    (js "@Bot,  hi") = Some (js "hi") /\
  (exists nick, nick ∈ [js "Bot"] /\
                Js.startsWith nick (js "Bot,  hi") = true) /\
  (exists n, js "hi" = drop n (js "@Bot,  hi")) /\
  (forall c r', js "hi" = c :: r' -> Js.is_space c = false).
Proof.
  split; [reflexivity|].
  apply (proj2 (stripNickname_result
                  (Sample.config (Single (js "Bot")) [[]]) (js "@Bot,  hi"))
           (js "hi")).
  reflexivity.
Defined.

(** ["@bot hi"]: the mention of the bot makes the message an
    appellation. *)
Lemma self_mention_sets_appel_witness :
  p_appel (Parser.parsed_of
             (Parser.parse_vars (Sample.config (Single (js "Bot")) [[]])
                Sample.segment (Scenario.mention "bot" " hi")))
  = true.
Proof.
  apply (self_mention_sets_appel (Sample.config (Single (js "Bot")) [[]])
           Sample.segment (Scenario.mention "bot" " hi")
           (mkElement (js "at") (Some (js "bot")) [])
           [mkElement (js "text") None (js " hi")]).
  - reflexivity.
  - reflexivity.
  - reflexivity.
Defined.

(** ["@eve Bot, !hi"]: the nickname and the prefix that follow the
    mention of someone else are left in the content. *)
Lemma foreign_mention_skips_stripping_witness :
  Parser.parsed_of
    (Parser.parse_vars (Sample.config (Single (js "Bot")) [js "!"])
       Sample.segment (Scenario.mention "eve" " Bot, !hi"))
  = mkParsed (js "Bot, !hi") false None.
Proof.
  apply (foreign_mention_skips_stripping
           (Sample.config (Single (js "Bot")) [js "!"])
           Sample.segment (Scenario.mention "eve" " Bot, !hi")
           (mkElement (js "at") (Some (js "eve")) [])
           [mkElement (js "text") None (js " Bot, !hi")]).
  - reflexivity.
  - reflexivity.
  - discriminate.
  - repeat constructor.
Defined.

(** ["!hi"] with the prefixes ["!"] and ["."]: the prefix recorded is
    one of the two.  With the prefix ["."] alone nothing is stripped. *)
Lemma prefix_loop_result_witness :
  let session := Sample.message "!hi" in
  (forall p,
     p_prefix (Parser.parsed_of
                 (Parser.parse_vars
                    (Sample.config (Single (js "Bot")) [js "!"; js "."])
                    Sample.segment session)) = Some p ->
     p ∈ [js "!"; js "."]) /\
  (let parsed := Parser.parsed_of
                   (Parser.parse_vars
                      (Sample.config (Single (js "Bot")) [js "."])
                      Sample.segment session) in
   p_prefix parsed = None /\ p_content parsed = js "!hi").
Proof.
  intros session. split.
  - apply (proj1 (proj2 (prefix_loop_result
                           (Sample.config (Single (js "Bot")) [js "!"; js "."])
                           Sample.segment session eq_refl))).
  - apply (proj1 (proj2 (proj2 (prefix_loop_result
                                  (Sample.config (Single (js "Bot")) [js "."])
                                  Sample.segment session eq_refl)))).
    repeat constructor.
Defined.

(** ** Anatomy of a dispatch *)

Section RunFacts.
Variable env : Env.
Variable session : Session.

(** A relation between states that every primitive step of a handler
    respects is respected by whole runs. *)
Lemma run_preserves (R : State -> State -> Prop) :
  (forall st, R st st) ->
  (forall st1 st2 st3, R st1 st2 -> R st2 st3 -> R st1 st3) ->
  (forall e st, R st (emit e st)) ->
  (forall p st, R st (set_parsed p st)) ->
  (forall i st, R st (set_index i st)) ->
  (forall cb st, R st (Internal.push cb st)) ->
  (forall st, R st (snd (Internal.observeChannel env session st))) ->
  (forall st, R st (snd (Internal.observeUser env session st))) ->
  (forall st, R st (Internal.assignGuildId env session st)) ->
  forall fuel s st o st',
    Internal.run env session fuel s st = Some (o, st') -> R st st'.
Proof.
  intros Hrefl Htrans Hemit Hparsed Hindex Hpush Hoc Hou Hag.
  assert (Hcatch : forall o st o' st',
            Internal.catch env session o st = (o', st') -> R st st').
  { intros [r|[p q|m]] st o' st'; simpl; intros [= <- <-]; auto. }
  induction fuel as [|fuel IH]; intros s st o st'; [done|].
  destruct s; simpl.
  - intros [= <- <-]. auto.
  - intros [= <- <-]. auto.
  - intros H. eapply Htrans; [|eapply IH, H]. auto.
  - apply IH.
  - intros H. eapply Htrans; [|eapply IH, H]. auto.
  - pose proof (Hoc st) as Hc.
    destruct (Internal.observeChannel env session st) as [c st1].
    intros H. eapply Htrans; [exact Hc|eapply IH, H].
  - intros H. eapply Htrans; [|eapply IH, H]. auto.
  - pose proof (Hou st) as Hu.
    destruct (Internal.observeUser env session st) as [u st1].
    intros H. eapply Htrans; [exact Hu|eapply IH, H].
  - destruct (send_error env fragment).
    + intros [= <- <-]. auto.
    + intros H. eapply Htrans; [|eapply IH, H]. auto.
  - assert (Hnext : forall o1 st1,
              Internal.next_with env session (Internal.run env session fuel)
                cb st = Some (o1, st1) -> R st st1).
    { intros o1 st1. unfold Internal.next_with, Internal.next_try.
      destruct (decide _).
      { intros H. eapply (Hcatch (Raise Internal.isolated)).
        by injection H as <- <-. }
      destruct (_ && _).
      { intros H. eapply Htrans; [apply Hpush|].
        eapply (Hcatch (Raise Internal.exceeded)). by injection H as <- <-. }
      unfold Internal.advance.
      destruct (queue _ !! _) as [h|].
      - destruct (Internal.run env session fuel h _) as [[o2 st2]|] eqn:E;
          [|done].
        intros [= Hc]. eapply Htrans; [apply Hpush|].
        eapply Htrans; [apply (Hindex (S (index (Internal.push cb st))))|].
        eapply Htrans; [apply (Hemit (Invoked (index (Internal.push cb st))))|].
        eapply Htrans; [eapply IH, E|]. eapply Hcatch, Hc.
      - intros H. eapply Htrans; [apply Hpush|].
        eapply Htrans; [apply (Hindex (S (index (Internal.push cb st))))|].
        eapply (Hcatch (Value None)). by injection H as <- <-. }
    destruct (Internal.next_with env session _ cb st) as [[[r|e] st1]|] eqn:E;
      [| |done].
    + intros H. eapply Htrans; [eapply Hnext, eq_refl|eapply IH, H].
    + intros [= <- <-]. eapply Hnext, eq_refl.
Qed.

(** A call of [next] is the run of a handler that does nothing but
    [return next(callback)]. *)
Lemma next_as_run fuel cb st r st' :
  Internal.next env session fuel cb st = Some (Value r, st') ->
  Internal.run env session (S (S fuel)) (AwaitNext cb Return) st
  = Some (Value r, st').
Proof.
  intros H.
  change (Internal.run env session (S (S fuel)) (AwaitNext cb Return) st)
    with (match Internal.next_with env session
                  (Internal.run env session (S fuel)) cb st with
          | Some (Value r, st') => Internal.run env session (S fuel) (Return r) st'
          | Some (Raise e, st') => Some (Raise e, st')
          | None => None
          end).
  unfold Internal.next in H.
  by rewrite (next_with_mono env session _ (Internal.run env session (S fuel))
                _ _ _ (run_mono env session fuel (S fuel) ltac:(lia)) H).
Qed.
End RunFacts.

Lemma flush_all_succeed env kinds :
  Forall (fun k => update_error env k = None) kinds ->
  flush env kinds = (None, kinds).
Proof.
  induction 1 as [|k kinds Hk _ IH]; simpl; [done|]. by rewrite Hk, IH.
Qed.

Lemma flush_first_failure env done k later e :
  Forall (fun k' => update_error env k' = None) done ->
  update_error env k = Some e ->
  flush env (done ++ k :: later) = (Some e, done).
Proof.
  intros Hdone Hk. induction Hdone as [|k' done Hk' _ IH]; simpl.
  - by rewrite Hk.
  - by rewrite Hk', IH.
Qed.

Lemma flush_error_source env kinds e :
  fst (flush env kinds) = Some e ->
  exists kind, kind ∈ kinds /\ update_error env kind = Some e.
Proof.
  induction kinds as [|k kinds IH]; simpl; [done|].
  destruct (update_error env k) eqn:Ek; simpl.
  - intros [= <-]. exists k. split; [left|done].
  - destruct (flush env kinds) as [e' done]. simpl in *. intros He.
    destruct (IH He) as (kind & Hin & Hk). exists kind. split; [by right|done].
Qed.

Section Anatomy.
Variable env : Env.
Variable session : Session.

Lemma reply_anatomy r st :
  exists n,
    Internal.reply env (Value r) st
    = (send_failure env r,
       mkState (_sessions st) (_userCache st) (_channelCache st) (queue st)
         (index st) (parsed st) (user st) (channel st) (guild st)
         (log st ++ n)) /\
    invoked n = [] /\ warned n = [] /\ sent n = delivered env r /\
    updated n = [] /\ unregistered n = [] /\ emitted n = [].
Proof.
  assert (Hst : forall st, st = mkState (_sessions st) (_userCache st)
            (_channelCache st) (queue st) (index st) (parsed st) (user st)
            (channel st) (guild st) (log st ++ []))
    by (intros [? ? ? ? ? ? ? ? ? ?]; simpl; by rewrite app_nil_r).
  destruct r as [f|]; simpl.
  - destruct (Js.truthy f); [destruct (send_error env f)|].
    + exists []. by rewrite <- Hst.
    + by exists [Sent f].
    + exists []. by rewrite <- Hst.
  - exists []. by rewrite <- Hst.
Qed.

Lemma emit_all_fields kinds st :
  emit_all kinds st
  = mkState (_sessions st) (_userCache st) (_channelCache st) (queue st)
      (index st) (parsed st) (user st) (channel st) (guild st)
      (log st ++ map Updated kinds).
Proof.
  revert st. induction kinds as [|k kinds IH]; intros st.
  - destruct st. simpl. by rewrite app_nil_r.
  - simpl. unfold emit_all in IH. rewrite IH. simpl. by rewrite <- app_assoc.
Qed.

Lemma update_flush present kind st :
  Internal.update env present kind st
  = (fst (flush env (if present then [kind] else [])),
     emit_all (snd (flush env (if present then [kind] else []))) st).
Proof.
  unfold Internal.update. destruct present; [|done]. cbn [flush].
  by destruct (update_error env kind).
Qed.

Lemma flush_app l1 l2 :
  flush env (l1 ++ l2)
  = match flush env l1 with
    | (Some e, done) => (Some e, done)
    | (None, done) => (fst (flush env l2), done ++ snd (flush env l2))
    end.
Proof.
  induction l1 as [|k l1 IH]; cbn [app flush].
  - by destruct (flush env l2).
  - destruct (update_error env k); [done|]. rewrite IH.
    by destruct (flush env l1) as [[e|] done].
Qed.

Lemma finalizer_flush st :
  Internal.finalizer env session st
  = (fst (flush env (attached st)),
     emit_all (snd (flush env (attached st)))
       (emit (ReleasedChannel (id session))
          (set_channelCache
             (SharedCache.delete (id session) (_channelCache st))
             (emit (ReleasedUser (id session))
                (set_userCache
                   (SharedCache.delete (id session) (_userCache st))
                   (emit (Emitted (js "middleware"))
                      (emit (Unregistered (id session))
                         (set_sessions
                            (delete (id session) (_sessions st)) st)))))))).
Proof.
  unfold Internal.finalizer. cbv zeta.
  set (st4 := emit (ReleasedChannel (id session)) _).
  unfold attached.
  change (user st) with (user st4). change (channel st) with (channel st4).
  change (guild st) with (guild st4). generalize st4. clear st4. intros st4.
  rewrite update_flush.
  set (ku := if bool_decide (user st4 <> None) then [KUser] else []).
  set (kc := if bool_decide (channel st4 <> None) then [KChannel] else []).
  set (kg := if guild st4 then [KGuild] else []).
  rewrite (flush_app ku (kc ++ kg)), (flush_app kc kg).
  destruct (flush env ku) as [[e1|] d1] eqn:E1; cbn [fst snd]; [done|].
  rewrite update_flush. rewrite emit_all_fields. cbn [channel guild].
  fold kc.
  destruct (flush env kc) as [[e2|] d2] eqn:E2; cbn [fst snd].
  { rewrite !emit_all_fields. cbn. by rewrite map_app, app_assoc. }
  rewrite update_flush. rewrite !emit_all_fields. cbn. fold kg.
  by rewrite !map_app, !app_assoc.
Qed.

Lemma finalizer_anatomy st :
  exists n,
    Internal.finalizer env session st
    = (fst (flush env (attached st)),
       mkState (delete (id session) (_sessions st))
         (SharedCache.delete (id session) (_userCache st))
         (SharedCache.delete (id session) (_channelCache st)) (queue st)
         (index st) (parsed st) (user st) (channel st) (guild st)
         (log st ++ n)) /\
    invoked n = [] /\ warned n = [] /\ sent n = [] /\
    updated n = snd (flush env (attached st)) /\
    unregistered n = [id session] /\ emitted n = [js "middleware"].
Proof.
  exists ([Unregistered (id session); Emitted (js "middleware");
           ReleasedUser (id session); ReleasedChannel (id session)]
          ++ map Updated (snd (flush env (attached st)))).
  split.
  { rewrite finalizer_flush, emit_all_fields. cbn.
    by rewrite <- !app_assoc. }
  generalize (snd (flush env (attached st))).
  intros ks. unfold invoked, warned, sent, updated, unregistered, emitted.
  rewrite !omap_app. cbn [omap app].
  assert (Hks : omap (fun e => match e with Invoked i => Some i | _ => None end)
                  (map Updated ks) = [] /\
                omap (fun e => match e with Warned m => Some m | _ => None end)
                  (map Updated ks) = [] /\
                omap (fun e => match e with Sent f => Some f | _ => None end)
                  (map Updated ks) = [] /\
                omap (fun e => match e with Updated k => Some k | _ => None end)
                  (map Updated ks) = ks /\
                omap (fun e => match e with
                               | Unregistered i => Some i
                               | _ => None
                               end)
                  (map Updated ks) = [] /\
                omap (fun e => match e with Emitted n => Some n | _ => None end)
                  (map Updated ks) = []).
  { split; [|split; [|split; [|split; [|split]]]];
      induction ks as [|k ks IH]; simpl; try done; by f_equal. }
  destruct Hks as (H1 & H2 & H3 & H4 & H5 & H6).
  simpl. by rewrite H1, H2, H3, H4, H5, H6.
Qed.

Lemma dispatch_anatomy fuel hooks st r st1 :
  selfId session <> userId session ->
  Internal.next env session fuel CbUndefined (entry_state session hooks st)
  = Some (Value r, st1) ->
  exists tail,
    Internal._handleMessage env session fuel hooks st
    = Some (match fst (flush env (attached st1)) with
            | Some e => Some e
            | None => send_failure env r
            end,
            mkState (delete (id session) (_sessions st1))
              (SharedCache.delete (id session) (_userCache st1))
              (SharedCache.delete (id session) (_channelCache st1))
              (queue st1) (index st1) (parsed st1) (user st1) (channel st1)
              (guild st1) (log st1 ++ tail)) /\
    invoked tail = [] /\ warned tail = [] /\ sent tail = delivered env r /\
    updated tail = snd (flush env (attached st1)) /\
    unregistered tail = [id session] /\ emitted tail = [js "middleware"].
Proof.
  intros Hself Hnext. unfold Internal._handleMessage.
  rewrite bool_decide_eq_false_2 by done.
  fold (entry_state session hooks st). rewrite Hnext.
  destruct (reply_anatomy r st1) as (n2 & -> & I2 & W2 & S2 & U2 & R2 & E2).
  set (st2 := mkState _ _ _ _ _ _ _ _ _ (log st1 ++ n2)).
  destruct (finalizer_anatomy st2)
    as (n3 & -> & I3 & W3 & S3 & U3 & R3 & E3).
  exists (n2 ++ n3). simpl. split.
  { change (attached st2) with (attached st1).
    rewrite <- app_assoc. by destruct (fst (flush env (attached st1))). }
  change (attached st2) with (attached st1) in U3.
  unfold invoked, warned, sent, updated, unregistered, emitted in *.
  rewrite !omap_app, I2, I3, W2, W3, S2, S3, U2, U3, R2, R3, E2, E3.
  repeat split; cbn [app]; by rewrite ?app_nil_r.
Qed.
End Anatomy.

(** ** Replies, errors and the other sessions *)

Section Outcomes.
Variable env : Env.
Variable session : Session.

Lemma next_entry_outcome fuel hooks st handler others o st1 :
  Internal.build_queue session hooks = handler :: others ->
  Internal.run env session fuel handler
    (emit (Invoked 0) (set_index 1 (entry_state session hooks st)))
  = Some (o, st1) ->
  Internal.next env session fuel CbUndefined (entry_state session hooks st)
  = Some (Internal.catch env session o st1).
Proof.
  intros Hq Hrun. unfold Internal.next, Internal.next_with.
  by rewrite (next_try_entry session _ _ _ _ _ Hq), Hrun.
Qed.

(** X11.  When the first handler of the queue throws an error
    that is not a [SessionError], the dispatch logs one warning, made
    of the message content, a line feed and the coerced error.  After
    it no handler runs and nothing is sent or warned, and the dispatch
    itself can only fail with the error of a teardown [$update]. *)
Theorem unexpected_error_is_logged_and_swallowed
    (fuel : nat) (hooks : list Hook) (st : State) (handler : Script)
    (others : list Script) (message : JsString) (st1 : State) :
  selfId session <> userId session ->
  Internal.build_queue session hooks = handler :: others ->
  Internal.run env session fuel handler
    (emit (Invoked 0) (set_index 1 (entry_state session hooks st)))
  = Some (Raise (OtherError message), st1) ->
  exists err st' tail,
    Internal._handleMessage env session fuel hooks st = Some (err, st') /\
    log st'
    = log st1
      ++ Warned (content session ++ js (String "010" "")
                   ++ coerce env (OtherError message)) :: tail /\
    invoked tail = [] /\ warned tail = [] /\ sent tail = [] /\
    (forall e, err = Some e -> exists kind, update_error env kind = Some e).
Proof.
  intros Hself Hq Hrun.
  pose proof (next_entry_outcome _ _ _ _ _ _ _ Hq Hrun) as Hnext.
  simpl in Hnext.
  destruct (dispatch_anatomy env session _ _ _ _ _ Hself Hnext)
    as (tail & Hh & Hi & Hw & Hs & Hu & _).
  eexists _, _, tail. split; [exact Hh|]. cbn [log emit].
  split; [by rewrite <- app_assoc|]. repeat split; try done.
  intros e He. destruct (fst (flush env _)) eqn:Ef; [|done].
  injection He as <-.
  destruct (flush_error_source _ _ _ Ef) as (kind & _ & Hk). eauto.
Qed.

(** X12.  What the first handler returns is what the dispatch
    sends: nothing for [undefined] and for the empty string, the
    fragment itself when it is not empty and [send] succeeds.  When
    [send] fails nothing is recorded as sent, the teardown still
    unregisters the session once, and the dispatch fails.  In each case
    no handler runs and no warning is logged after the first handler
    has returned. *)
Theorem first_handler_result_is_the_reply
    (fuel : nat) (hooks : list Hook) (st : State) (handler : Script)
    (others : list Script) (r : Result) (st1 : State) :
  selfId session <> userId session ->
  Internal.build_queue session hooks = handler :: others ->
  Internal.run env session fuel handler
    (emit (Invoked 0) (set_index 1 (entry_state session hooks st)))
  = Some (Value r, st1) ->
  exists err st' tail,
    Internal._handleMessage env session fuel hooks st = Some (err, st') /\
    log st' = log st1 ++ tail /\
    invoked tail = [] /\ warned tail = [] /\
    (r = None \/ r = Some [] -> sent tail = []) /\
    (forall f, r = Some f -> f <> [] -> send_error env f = None ->
               sent tail = [f]) /\
    (forall f e, r = Some f -> f <> [] -> send_error env f = Some e ->
                 sent tail = [] /\ unregistered tail = [id session] /\
                 exists e', err = Some e').
Proof.
  intros Hself Hq Hrun.
  pose proof (next_entry_outcome _ _ _ _ _ _ _ Hq Hrun) as Hnext.
  simpl in Hnext.
  destruct (dispatch_anatomy env session _ _ _ _ _ Hself Hnext)
    as (tail & Hh & Hi & Hw & Hs & Hu & Hr & _).
  eexists _, _, tail. split; [exact Hh|]. cbn [log].
  split; [done|]. split; [done|]. split; [done|]. split; [|split].
  - intros [-> | ->]; by rewrite Hs.
  - intros f -> Hf Hsend. rewrite Hs. simpl.
    destruct f; [done|]. simpl. by rewrite Hsend.
  - intros f e -> Hf Hsend. rewrite Hs. simpl.
    destruct f as [|c f]; [done|]. simpl. rewrite Hsend.
    split; [done|]. split; [done|].
    destruct (fst (flush env _)); eauto.
Qed.

(** X13.  When the filter of every registered hook rejects the
    session, the queue is empty: whatever the fuel, no handler is
    invoked, nothing is sent or warned, and the teardown still
    unregisters the session once. *)
Theorem no_accepting_hook_no_handler (fuel : nat) (hooks : list Hook)
    (st : State) :
  selfId session <> userId session ->
  Forall (fun h => h_filter h session = false) hooks ->
  exists err st' new,
    Internal._handleMessage env session fuel hooks st = Some (err, st') /\
    log st' = log st ++ new /\
    invoked new = [] /\ sent new = [] /\ warned new = [] /\
    unregistered new = [id session] /\
    queue st' = [].
Proof.
  intros Hself Hall.
  assert (Hq : Internal.build_queue session hooks = []).
  { unfold Internal.build_queue. induction Hall as [|h hooks Hh _ IH]; [done|].
    simpl. by rewrite Hh. }
  assert (Hnext : Internal.next env session fuel CbUndefined
                    (entry_state session hooks st)
                  = Some (Value None,
                          set_index 1 (entry_state session hooks st))).
  { unfold Internal.next, Internal.next_with, Internal.next_try.
    destruct (decide _) as [Hn|_]; [by apply entry_registered in Hn|].
    unfold Internal.advance. simpl. by rewrite Hq. }
  destruct (dispatch_anatomy env session _ _ _ _ _ Hself Hnext)
    as (tail & Hh & Hi & Hw & Hs & Hu & Hr & _).
  eexists _, _, tail. split; [exact Hh|]. cbn [log queue].
  repeat split; try done; simpl; by rewrite Hq.
Qed.

(** The holds of every referrer survive the handlers. *)
Lemma run_keeps_holds fuel s st o st' :
  Internal.run env session fuel s st = Some (o, st') ->
  (forall r k, SharedCache.holds r k (_userCache st) ->
               SharedCache.holds r k (_userCache st')) /\
  (forall r k, SharedCache.holds r k (_channelCache st) ->
               SharedCache.holds r k (_channelCache st')).
Proof.
  apply (run_preserves env session
           (fun st st' =>
              (forall r k, SharedCache.holds r k (_userCache st) ->
                           SharedCache.holds r k (_userCache st')) /\
              (forall r k, SharedCache.holds r k (_channelCache st) ->
                           SharedCache.holds r k (_channelCache st')))).
  - done.
  - intros st1 st2 st3 [H1 H2] [H3 H4]. split; auto.
  - done.
  - done.
  - done.
  - intros cb st0. unfold Internal.push. by destruct (compose cb).
  - intros st0. unfold Internal.observeChannel.
    destruct (SharedCache.get _ _ _) as [[c|] cache] eqn:E;
      cbn [snd _userCache _channelCache set_channel set_channelCache].
    + split; [done|]. intros r k Hh.
      pose proof (holds_step r k (_channelCache st0)
                    (SharedCache.OpGet (id session) (channel_key env session))
                    Hh ltac:(simpl; tauto)) as Hs.
      unfold SharedCache.step in Hs. by rewrite E in Hs.
    + split; [done|]. intros r k Hh.
      apply (holds_step r k (_channelCache st0)
               (SharedCache.OpSet (id session) (channel_key env session)
                  (load_channel env session)) Hh). simpl. tauto.
  - intros st0. unfold Internal.observeUser.
    destruct (SharedCache.get _ _ _) as [[c|] cache] eqn:E;
      cbn [snd _userCache _channelCache set_user set_userCache].
    + split; [|done]. intros r k Hh.
      pose proof (holds_step r k (_userCache st0)
                    (SharedCache.OpGet (id session) (user_key env session))
                    Hh ltac:(simpl; tauto)) as Hs.
      unfold SharedCache.step in Hs. by rewrite E in Hs.
    + split; [|done]. intros r k Hh.
      apply (holds_step r k (_userCache st0)
               (SharedCache.OpSet (id session) (user_key env session)
                  (load_user env session)) Hh). simpl. tauto.
  - intros st0. unfold Internal.assignGuildId.
    destruct (channel st0) as [c|]; [|done]. simpl. split; [done|].
    intros r k (e & He & Hr).
    destruct (decide (channel_key env session = k)) as [<-|Hne].
    + eexists. rewrite lookup_alter_eq, He. simpl. done.
    + exists e. by rewrite lookup_alter_ne.
Qed.

(** X14.  A dispatch touches no session but its own: the other
    entries of the session map are unchanged, and every hold another
    referrer has on a user or channel record is still there
    afterwards. *)
Theorem other_sessions_are_left_alone (hooks : list Hook) (st : State) :
  selfId session <> userId session ->
  exists fuel err st',
    Internal._handleMessage env session fuel hooks st = Some (err, st') /\
    (forall j, j <> id session -> _sessions st' !! j = _sessions st !! j) /\
    (forall r k, r <> id session ->
       SharedCache.holds r k (_userCache st) ->
       SharedCache.holds r k (_userCache st')) /\
    (forall r k, r <> id session ->
       SharedCache.holds r k (_channelCache st) ->
       SharedCache.holds r k (_channelCache st')).
Proof.
  intros Hself.
  destruct (next_terminates env session CbUndefined
              (entry_state session hooks st)) as (fuel & r & st1 & Hnext).
  destruct (dispatch_anatomy env session _ _ _ _ _ Hself Hnext)
    as (tail & Hh & _).
  pose proof (next_evolves _ _ _ _ _ _ _ Hnext) as (Hsess & _).
  assert (Hholds :
    (forall r k, SharedCache.holds r k (_userCache st) ->
                 SharedCache.holds r k (_userCache st1)) /\
    (forall r k, SharedCache.holds r k (_channelCache st) ->
                 SharedCache.holds r k (_channelCache st1))).
  { apply (run_keeps_holds _ _ _ _ _ (next_as_run env session _ _ _ _ _ Hnext)). }
  destruct Hholds as [Hu Hc].
  eexists fuel, _, _. split; [exact Hh|]. cbn [_sessions _userCache _channelCache].
  split; [|split].
  - intros j Hj. rewrite Hsess. simpl.
    by rewrite lookup_delete_ne, lookup_insert_ne.
  - intros r' k Hr Hh0.
    apply (holds_step r' k (_userCache st1) (SharedCache.OpDelete (id session)));
      [by apply Hu|]. simpl. congruence.
  - intros r' k Hr Hh0.
    apply (holds_step r' k (_channelCache st1)
             (SharedCache.OpDelete (id session))); [by apply Hc|].
    simpl. congruence.
Qed.

(** X15.  The queue only grows at its end: after a dispatch it
    is made of the handlers of the accepting hooks, in registration
    order, followed by the continuations pushed by calls of
    [next]. *)
Theorem registered_handlers_keep_their_positions (hooks : list Hook)
    (st : State) :
  selfId session <> userId session ->
  exists fuel err st' pushed,
    Internal._handleMessage env session fuel hooks st = Some (err, st') /\
    queue st' = Internal.build_queue session hooks ++ pushed.
Proof.
  intros Hself.
  destruct (next_terminates env session CbUndefined
              (entry_state session hooks st)) as (fuel & r & st1 & Hnext).
  destruct (dispatch_anatomy env session _ _ _ _ _ Hself Hnext)
    as (tail & Hh & _).
  pose proof (next_evolves _ _ _ _ _ _ _ Hnext) as (_ & (pushed & Hq) & _).
  eexists fuel, _, _, pushed. split; [exact Hh|]. exact Hq.
Qed.

(** X16.  The teardown flushes the attached records in the order
    user, channel, guild.  When no update fails, each attached record
    is updated once, in that order.  When one fails, the records before
    it have been updated and the later ones have not, the dispatch
    fails with that error, and the session has still been unregistered
    once. *)
Theorem flushes_stop_at_the_first_failure (hooks : list Hook) (st : State) :
  selfId session <> userId session ->
  exists fuel err st' new,
    Internal._handleMessage env session fuel hooks st = Some (err, st') /\
    log st' = log st ++ new /\
    (Forall (fun k => update_error env k = None) (attached st') ->
     updated new = attached st') /\
    (forall done k later e,
       attached st' = done ++ k :: later ->
       Forall (fun k' => update_error env k' = None) done ->
       update_error env k = Some e ->
       updated new = done /\ err = Some e /\
       unregistered new = [id session]).
Proof.
  intros Hself.
  destruct (next_terminates env session CbUndefined
              (entry_state session hooks st)) as (fuel & r & st1 & Hnext).
  destruct (dispatch_anatomy env session _ _ _ _ _ Hself Hnext)
    as (tail & Hh & _ & _ & _ & Hu & Hr & _).
  pose proof (next_evolves _ _ _ _ _ _ _ Hnext) as (_ & _ & n1 & L1 & H1 & _).
  destruct (handler_events_no_teardown _ H1) as (A1 & _ & _ & U1).
  eexists fuel, _, _, (n1 ++ tail). split; [exact Hh|].
  cbn [log]. change (attached (mkState _ _ _ _ _ _ _ _ _ _))
    with (attached st1).
  split; [rewrite L1; simpl; by rewrite app_assoc|].
  unfold updated, unregistered in *. rewrite !omap_app, U1, A1, Hu, Hr.
  cbn [app]. split.
  - intros Hall. by rewrite (flush_all_succeed _ _ Hall).
  - intros done k later e -> Hdone Hk.
    rewrite (flush_first_failure _ _ _ _ _ Hdone Hk). done.
Qed.
End Outcomes.

(** A dispatch whose only handler throws an error of its own. *)
Lemma unexpected_error_is_logged_and_swallowed_witness :
  exists err st' tail,
    Internal._handleMessage (Sample.env 0 0) (Sample.message "hi") 1
      [Sample.hook (Scenario.crash "boom")] Sample.fresh = Some (err, st') /\
    log st'
    = [Invoked 0]
      ++ Warned (js "hi" ++ js (String "010" "") ++ js "boom") :: tail /\
    invoked tail = [] /\ warned tail = [] /\ sent tail = [] /\
    (forall e, err = Some e ->
       exists kind, update_error (Sample.env 0 0) kind = Some e).
Proof.
  apply (unexpected_error_is_logged_and_swallowed
           (Sample.env 0 0) (Sample.message "hi") 1
           [Sample.hook (Scenario.crash "boom")] Sample.fresh
           (Scenario.crash "boom") [] (js "boom")
           (emit (Invoked 0)
              (set_index 1
                 (entry_state (Sample.message "hi")
                    [Sample.hook (Scenario.crash "boom")] Sample.fresh)))).
  - discriminate.
  - reflexivity.
  - reflexivity.
Defined.

(** A dispatch whose only handler replies ["pong"]: that fragment is
    the one message sent. *)
Lemma first_handler_result_is_the_reply_witness :
  exists err st' tail,
    Internal._handleMessage (Sample.env 0 0) (Sample.message "hi") 1
      [Sample.hook (Sample.reply_with "pong")] Sample.fresh
    = Some (err, st') /\
    log st' = [Invoked 0] ++ tail /\
    invoked tail = [] /\ warned tail = [] /\ sent tail = [js "pong"].
Proof.
  destruct (first_handler_result_is_the_reply
              (Sample.env 0 0) (Sample.message "hi") 1
              [Sample.hook (Sample.reply_with "pong")] Sample.fresh
              (Sample.reply_with "pong") [] (Some (js "pong"))
              (emit (Invoked 0)
                 (set_index 1
                    (entry_state (Sample.message "hi")
                       [Sample.hook (Sample.reply_with "pong")]
                       Sample.fresh)))
              ltac:(discriminate) eq_refl eq_refl)
    as (err & st' & tail & H & L & I & W & _ & S & _).
  exists err, st', tail. repeat split; try done.
  apply (S (js "pong")); [reflexivity|discriminate|reflexivity].
Defined.

(** A message no registered hook accepts. *)
Lemma no_accepting_hook_no_handler_witness :
  exists err st' new,
    Internal._handleMessage (Sample.env 0 0) (Sample.message "hi") 0
      [mkHook (fun _ => false) (fun _ => Sample.reply_with "pong")]
      Sample.fresh = Some (err, st') /\
    log st' = log Sample.fresh ++ new /\
    invoked new = [] /\ sent new = [] /\ warned new = [] /\
    unregistered new = [js "s1"] /\
    queue st' = [].
Proof.
  apply (no_accepting_hook_no_handler (Sample.env 0 0) (Sample.message "hi")).
  - discriminate.
  - repeat constructor.
Defined.

(** A dispatch of session ["s1"] while session ["s2"] is registered and
    holds a user record. *)
Lemma other_sessions_are_left_alone_witness :
  let st := set_sessions {[ js "s2" := Sample.echo ]}
              (set_userCache
                 (SharedCache.set (js "s2") (js "u2") (mkUser 0) ∅)
                 Sample.fresh) in
  exists fuel err st',
    Internal._handleMessage (Sample.env 0 0) (Sample.message "hi") fuel
      [mkHook (fun _ => true) (Internal._process (Sample.env 0 0));
       Sample.hook (Sample.reply_with "pong")] st = Some (err, st') /\
    _sessions st' !! js "s2" = Some Sample.echo /\
    SharedCache.holds (js "s2") (js "u2") (_userCache st').
Proof.
  intros st.
  destruct (other_sessions_are_left_alone
              (Sample.env 0 0) (Sample.message "hi")
              [mkHook (fun _ => true) (Internal._process (Sample.env 0 0));
               Sample.hook (Sample.reply_with "pong")] st
              ltac:(discriminate))
    as (fuel & err & st' & H & Hs & Hu & _).
  exists fuel, err, st'. split; [exact H|]. split.
  - rewrite Hs by discriminate. reflexivity.
  - apply Hu; [discriminate|]. eexists. split.
    + unfold st, SharedCache.set. cbn [_userCache set_userCache set_sessions].
      apply lookup_insert_eq.
    + cbn [SharedCache.refs]. set_solver.
Defined.

(** A handler that hands a continuation over: the two registered
    handlers are still the first two of the queue. *)
Lemma registered_handlers_keep_their_positions_witness :
  exists fuel err st' pushed,
    Internal._handleMessage (Sample.env 0 0) (Sample.message "hi") fuel
      [Sample.hook (Sample.continue_with "c");
       Sample.hook (Sample.reply_with "b")] Sample.fresh = Some (err, st') /\
    queue st' = [Sample.continue_with "c"; Sample.reply_with "b"] ++ pushed.
Proof.
  apply (registered_handlers_keep_their_positions
           (Sample.env 0 0) (Sample.message "hi")
           [Sample.hook (Sample.continue_with "c");
            Sample.hook (Sample.reply_with "b")] Sample.fresh).
  discriminate.
Defined.

(** A group message with working updates: every attached record is
    flushed. *)
Lemma flushes_stop_at_the_first_failure_witness :
  exists fuel err st' new,
    Internal._handleMessage (Sample.env 0 0) (Sample.message "hi") fuel
      [mkHook (fun _ => true) (Internal._process (Sample.env 0 0));
       Sample.hook (Sample.reply_with "pong")] Sample.fresh
    = Some (err, st') /\
    log st' = log Sample.fresh ++ new /\
    updated new = attached st'.
Proof.
  destruct (flushes_stop_at_the_first_failure
              (Sample.env 0 0) (Sample.message "hi")
              [mkHook (fun _ => true) (Internal._process (Sample.env 0 0));
               Sample.hook (Sample.reply_with "pong")] Sample.fresh
              ltac:(discriminate))
    as (fuel & err & st' & new & H & L & Hall & _).
  exists fuel, err, st', new. split; [exact H|]. split; [exact L|].
  apply Hall. apply Forall_forall. reflexivity.
Defined.

(** ** The attach pipeline, stage by stage *)

Section Stages.
Variable env : Env.
Variable session : Session.

Local Abbreviation run := (Internal.run env session).

Lemma finish_steps fuel st r st' :
  Internal.next env session fuel CbUndefined (emit (Emitted (js "attach")) st)
  = Some (Value r, st') ->
  run (3 + fuel) Internal.finish st = Some (Value r, st').
Proof.
  intros H. apply next_as_run in H. exact H.
Qed.

Lemma attach_user_steps fuel st :
  run (4 + fuel) (Internal.attach_user env) st
  = let o := Internal.observeUser env session
               (emit (Emitted (js "before-attach-user")) st) in
    if serial env (js "attach-user") session
       || negb (bit_and (u_flag (fst o)) (User_Flag_ignore env) =? 0)
    then Some (Value None, snd o)
    else run (1 + fuel) Internal.finish (snd o).
Proof.
  unfold Internal.attach_user.
  rewrite (run_Emit env session (3 + fuel)).
  change (run (3 + fuel) (ObserveUser ?k) ?s)
    with (let (u, st') := Internal.observeUser env session s in
          run (2 + fuel) (k u) st').
  destruct (Internal.observeUser env session _) as [u st1]. cbv zeta.
  cbn [fst snd].
  change (run (2 + fuel) (Serial ?n ?k) ?s)
    with (run (1 + fuel) (k (serial env n session)) s).
  destruct (serial env _ session); [done|]. cbn [orb].
  by destruct (negb _).
Qed.

Lemma attach_channel_steps fuel atSelf st :
  run (5 + fuel) (Internal.attach_channel env session atSelf) st
  = let o := Internal.observeChannel env session
               (emit (Emitted (js "before-attach-channel")) st) in
    let st1 := Internal.assignGuildId env session (snd o) in
    if serial env (js "attach-channel") session
       || negb (bit_and (c_flag (fst o)) (Channel_Flag_ignore env) =? 0)
       || negb (Js.eqb (c_assignee (fst o)) (selfId session)) && negb atSelf
    then Some (Value None, st1)
    else run (1 + fuel) (Internal.attach_user env) st1.
Proof.
  unfold Internal.attach_channel.
  rewrite (run_Emit env session (4 + fuel)).
  change (run (4 + fuel) (ObserveChannel ?k) ?s)
    with (let (c, st') := Internal.observeChannel env session s in
          run (3 + fuel) (k c) st').
  destruct (Internal.observeChannel env session _) as [c st1]. cbv zeta.
  cbn [fst snd].
  change (run (3 + fuel) (AssignGuildId ?k) ?s)
    with (run (2 + fuel) k (Internal.assignGuildId env session s)).
  change (run (2 + fuel) (Serial ?n ?k) ?s)
    with (run (1 + fuel) (k (serial env n session)) s).
  destruct (serial env _ session); [done|]. cbn [orb].
  destruct (negb (bit_and _ _ =? 0)); [done|]. cbn [orb].
  by destruct (_ && _).
Qed.

Lemma process_steps fuel st :
  run (2 + fuel) (Internal._process env session) st
  = let v := Parser.parse_vars (config env) (segment env) session in
    let st1 := emit (Emitted (js "before-attach"))
                 (set_parsed (Some (Parser.parsed_of v)) st) in
    if database env then
      match subtype session with
      | Group => run fuel (Internal.attach_channel env session
                             (Parser.v_atSelf v)) st1
      | Private => run fuel (Internal.attach_user env) st1
      end
    else run fuel Internal.finish st1.
Proof.
  unfold Internal._process. cbv zeta.
  rewrite (run_SetParsed env session (1 + fuel)), (run_Emit env session fuel).
  destruct (database env); [|done]. by destruct (subtype session).
Qed.
End Stages.

Section ClosedGates.
Variable env : Env.
Variable session : Session.

Local Abbreviation run := (Internal.run env session).

(** What a dispatch looks like when [_process], first in the queue,
    returns without calling [next]. *)
Lemma gated_dispatch fuel hooks others st st2 events :
  selfId session <> userId session ->
  Internal.build_queue session hooks
  = Internal._process env session :: others ->
  run fuel (Internal._process env session)
    (emit (Invoked 0) (set_index 1 (entry_state session hooks st)))
  = Some (Value None, st2) ->
  log st2 = (log st ++ [Invoked 0]) ++ map Emitted events ->
  exists err st' tail,
    Internal._handleMessage env session fuel hooks st = Some (err, st') /\
    log st' = log st ++ Invoked 0 :: map Emitted events ++ tail /\
    invoked tail = [] /\ sent tail = [] /\ warned tail = [] /\
    emitted tail = [js "middleware"] /\
    (forall e, err = Some e -> exists kind, update_error env kind = Some e).
Proof.
  intros Hself Hq Hrun Hlog.
  pose proof (next_entry_outcome env session _ _ _ _ _ _ _ Hq Hrun) as Hnext.
  simpl in Hnext.
  destruct (dispatch_anatomy env session _ _ _ _ _ Hself Hnext)
    as (tail & Hh & Hi & Hw & Hs & _ & _ & Hm).
  eexists _, _, tail. split; [exact Hh|]. cbn [log].
  split; [rewrite Hlog; by rewrite <- !app_assoc|].
  repeat split; try done.
  intros e He. destruct (fst (flush env _)) eqn:Ef; [|done].
  injection He as <-.
  destruct (flush_error_source _ _ _ Ef) as (kind & _ & Hk). eauto.
Qed.

Lemma invoked_map_Emitted names : invoked (map Emitted names) = [].
Proof. by induction names. Qed.
Lemma sent_map_Emitted names : sent (map Emitted names) = [].
Proof. by induction names. Qed.
Lemma warned_map_Emitted names : warned (map Emitted names) = [].
Proof. by induction names. Qed.

Lemma emitted_map_Emitted names : emitted (map Emitted names) = names.
Proof. induction names; [done|]. simpl. by f_equal. Qed.

Lemma emitted_app l1 l2 : emitted (l1 ++ l2) = emitted l1 ++ emitted l2.
Proof. apply omap_app. Qed.

Lemma sent_app l1 l2 : sent (l1 ++ l2) = sent l1 ++ sent l2.
Proof. apply omap_app. Qed.
Lemma warned_app l1 l2 : warned (l1 ++ l2) = warned l1 ++ warned l2.
Proof. apply omap_app. Qed.

Lemma gated_log names tail :
  invoked tail = [] -> sent tail = [] -> warned tail = [] ->
  invoked (Invoked 0 :: map Emitted names ++ tail) = [0%nat] /\
  sent (Invoked 0 :: map Emitted names ++ tail) = [] /\
  warned (Invoked 0 :: map Emitted names ++ tail) = [] /\
  emitted (Invoked 0 :: map Emitted names ++ tail) = names ++ emitted tail.
Proof.
  intros Hi Hs Hw.
  change (emitted (Invoked 0 :: map Emitted names ++ tail))
    with (emitted (map Emitted names ++ tail)).
  rewrite emitted_app, emitted_map_Emitted.
  change (invoked (Invoked 0 :: map Emitted names ++ tail))
    with (0%nat :: invoked (map Emitted names ++ tail)).
  change (sent (Invoked 0 :: map Emitted names ++ tail))
    with (sent (map Emitted names ++ tail)).
  change (warned (Invoked 0 :: map Emitted names ++ tail))
    with (warned (map Emitted names ++ tail)).
  rewrite invoked_app, invoked_map_Emitted, Hi.
  by rewrite sent_app, warned_app, sent_map_Emitted, warned_map_Emitted, Hs, Hw.
Qed.

(** X17.  Take a dispatched session whose queue starts with
    [_process], as the constructor registers it when no middleware is
    prepended, with a database configured.  A group message in a
    channel assigned to another bot, which does not mention this bot,
    stops at the channel stage of [_process]: the events emitted are
    ["before-attach"], ["before-attach-channel"] and the ["middleware"]
    event of the teardown, so the user stage is not reached and
    ["attach"] is not emitted; [_process], at position 0, is the only
    handler invoked, nothing is sent or warned, and only a failing
    [$update] of the teardown can make the dispatch fail. *)
Theorem channel_of_another_bot_is_left_alone
    (hooks : list Hook) (others : list Script) (st : State) :
  selfId session <> userId session ->
  Internal.build_queue session hooks
  = Internal._process env session :: others ->
  database env = true ->
  subtype session = Group ->
  c_assignee (attached_channel env session st) <> selfId session ->
  Parser.v_atSelf (Parser.parse_vars (config env) (segment env) session)
  = false ->
  exists fuel err st' new tail,
    Internal._handleMessage env session fuel hooks st = Some (err, st') /\
    log st' = log st ++ new /\
    new = [Invoked 0; Emitted (js "before-attach");
           Emitted (js "before-attach-channel")] ++ tail /\
    invoked new = [0%nat] /\ sent new = [] /\ warned new = [] /\
    emitted new = [js "before-attach"; js "before-attach-channel";
                   js "middleware"] /\
    (forall e, err = Some e -> exists kind, update_error env kind = Some e).
Proof.
  intros Hself Hq Hdb Hsub Hassignee HatSelf.
  set (st0 := emit (Invoked 0) (set_index 1 (entry_state session hooks st))).
  set (v := Parser.parse_vars (config env) (segment env) session) in *.
  set (st1 := emit (Emitted (js "before-attach"))
                (set_parsed (Some (Parser.parsed_of v)) st0)).
  set (o := Internal.observeChannel env session
              (emit (Emitted (js "before-attach-channel")) st1)).
  set (st3 := Internal.assignGuildId env session (snd o)).
  assert (Hc : fst o = attached_channel env session st)
    by (by apply observeChannel_same).
  assert (Hrun : run 10 (Internal._process env session) st0
                 = Some (Value None, st3)).
  { rewrite (process_steps env session 8). cbv zeta. rewrite Hdb, Hsub.
    fold v. fold st0. fold st1.
    rewrite (attach_channel_steps env session 3). cbv zeta.
    fold o. fold st3. rewrite Hc, HatSelf.
    unfold Js.eqb. rewrite (bool_decide_eq_false_2 _ Hassignee).
    cbn [negb andb]. by rewrite !orb_true_r. }
  assert (Hlog : log st3 = (log st ++ [Invoked 0])
                   ++ map Emitted [js "before-attach";
                                   js "before-attach-channel"]).
  { unfold st3. rewrite assignGuildId_log. unfold o.
    rewrite observeChannel_log. unfold st1, st0. simpl.
    by rewrite <- !app_assoc. }
  destruct (gated_dispatch _ _ _ _ _ _ Hself Hq Hrun Hlog)
    as (err & st' & tail & Hh & Hl & Hi & Hs & Hw & Hm & He).
  eexists 10%nat, err, st', _, tail. split; [exact Hh|].
  split; [exact Hl|]. split; [done|].
  destruct (gated_log [js "before-attach"; js "before-attach-channel"] tail
              Hi Hs Hw) as (H1 & H2 & H3 & H4).
  rewrite Hm in H4. done.
Qed.

(** X18.  Take a dispatched session whose queue starts with
    [_process], as the constructor registers it when no middleware is
    prepended, with a database configured.  When a listener of
    ["attach-channel"] (for a group message) or of ["attach-user"]
    returns a truthy value, the message stops in the attach pipeline:
    the events emitted are ["before-attach"], those of the stages gone
    through and the ["middleware"] event of the teardown, so ["attach"]
    is not emitted; [_process], at position 0, is the only handler
    invoked, nothing is sent or warned, and only a failing [$update]
    of the teardown can make the dispatch fail. *)
Theorem listener_veto_stops_the_message
    (hooks : list Hook) (others : list Script) (st : State) :
  selfId session <> userId session ->
  Internal.build_queue session hooks
  = Internal._process env session :: others ->
  database env = true ->
  (subtype session = Group /\ serial env (js "attach-channel") session = true)
  \/ serial env (js "attach-user") session = true ->
  exists fuel err st' new stages tail,
    Internal._handleMessage env session fuel hooks st = Some (err, st') /\
    log st' = log st ++ new /\
    new = [Invoked 0; Emitted (js "before-attach")] ++ stages ++ tail /\
    gate_stages (subtype session) stages /\
    invoked new = [0%nat] /\ sent new = [] /\ warned new = [] /\
    emitted new = js "before-attach" :: emitted stages ++ [js "middleware"] /\
    (forall e, err = Some e -> exists kind, update_error env kind = Some e).
Proof.
  intros Hself Hq Hdb Hveto.
  set (st0 := emit (Invoked 0) (set_index 1 (entry_state session hooks st))).
  set (v := Parser.parse_vars (config env) (segment env) session) in *.
  set (st1 := emit (Emitted (js "before-attach"))
                (set_parsed (Some (Parser.parsed_of v)) st0)).
  assert (Hl1 : log st1 = (log st ++ [Invoked 0])
                  ++ map Emitted [js "before-attach"]).
  { unfold st1, st0. simpl. by rewrite <- !app_assoc. }
  assert (Huser : forall stx names,
            serial env (js "attach-user") session = true ->
            log stx = (log st ++ [Invoked 0]) ++ map Emitted names ->
            exists st2,
              run 4 (Internal.attach_user env) stx = Some (Value None, st2) /\
              log st2 = (log st ++ [Invoked 0])
                          ++ map Emitted (names ++ [js "before-attach-user"])).
  { intros stx names Hv Hlx. rewrite (attach_user_steps env session 0).
    cbv zeta. rewrite Hv. cbn [orb]. eexists. split; [reflexivity|].
    rewrite observeUser_log.
    change (log (emit (Emitted (js "before-attach-user")) stx))
      with (log stx ++ [Emitted (js "before-attach-user")]).
    rewrite Hlx, map_app. by rewrite <- !app_assoc. }
  assert (Hstage : exists st2 names,
            run 10 (Internal._process env session) st0
            = Some (Value None, st2) /\
            log st2 = (log st ++ [Invoked 0])
                        ++ map Emitted (js "before-attach" :: names) /\
            gate_stages (subtype session) (map Emitted names)).
  { rewrite (process_steps env session 8). cbv zeta. rewrite Hdb.
    fold v. fold st0. fold st1.
    destruct (subtype session) eqn:Hsub.
    - rewrite (attach_channel_steps env session 3). cbv zeta.
      set (o := Internal.observeChannel env session _).
      set (st3 := Internal.assignGuildId env session (snd o)).
      assert (Hl3 : log st3 = (log st ++ [Invoked 0])
                      ++ map Emitted [js "before-attach";
                                      js "before-attach-channel"]).
      { unfold st3. rewrite assignGuildId_log. unfold o.
        rewrite observeChannel_log.
        change (log (emit (Emitted (js "before-attach-channel")) st1))
          with (log st1 ++ [Emitted (js "before-attach-channel")]).
        rewrite Hl1. simpl. by rewrite <- !app_assoc. }
      destruct (_ || _ || _) eqn:Eclosed.
      + exists st3, [js "before-attach-channel"].
        split; [done|]. split; [done|]. by left.
      + destruct Hveto as [[_ Hv]|Hv].
        { rewrite Hv in Eclosed. done. }
        destruct (Huser st3 _ Hv Hl3) as (st2 & Hrun & Hl2).
        exists st2, [js "before-attach-channel"; js "before-attach-user"].
        split; [exact Hrun|]. split; [exact Hl2|]. by right.
    - destruct Hveto as [[? _]|Hv]; [done|].
      destruct (Huser st1 _ Hv Hl1) as (st2 & Hrun & Hl2).
      exists st2, [js "before-attach-user"].
      split; [|split; [exact Hl2|done]].
      by apply (run_mono env session 4 8 ltac:(lia)). }
  destruct Hstage as (st2 & names & Hrun & Hlog & Hst).
  destruct (gated_dispatch _ _ _ _ _ _ Hself Hq Hrun Hlog)
    as (err & st' & tail & Hh & Hl & Hi & Hs & Hw & Hm & He).
  eexists 10%nat, err, st', _, (map Emitted names), tail.
  split; [exact Hh|]. split; [exact Hl|]. split; [done|]. split; [done|].
  destruct (gated_log (js "before-attach" :: names) tail Hi Hs Hw)
    as (H1 & H2 & H3 & H4).
  rewrite Hm in H4. rewrite emitted_map_Emitted. done.
Qed.
End ClosedGates.

(** A group message in a channel assigned to the bot ["other"]. *)
Lemma channel_of_another_bot_is_left_alone_witness :
  let env := Scenario.with_channel (fun _ => mkChannel 0 (js "other") [])
               (Sample.env 0 0) in
  exists fuel err st' new tail,
    Internal._handleMessage env (Sample.message "hi") fuel
      [mkHook (fun _ => true) (Internal._process env);
       Sample.hook (Sample.reply_with "pong")] Sample.fresh
    = Some (err, st') /\
    log st' = log Sample.fresh ++ new /\
    new = [Invoked 0; Emitted (js "before-attach");
           Emitted (js "before-attach-channel")] ++ tail /\
    invoked new = [0%nat] /\ sent new = [] /\ warned new = [] /\
    emitted new = [js "before-attach"; js "before-attach-channel";
                   js "middleware"] /\
    (forall e, err = Some e -> exists kind, update_error env kind = Some e).
Proof.
  intros env.
  apply (channel_of_another_bot_is_left_alone env (Sample.message "hi")
           _ [Sample.reply_with "pong"]).
  - discriminate.
  - reflexivity.
  - reflexivity.
  - reflexivity.
  - vm_compute. discriminate.
  - reflexivity.
Defined.

(** A listener of ["attach-user"] that vetoes every message. *)
Lemma listener_veto_stops_the_message_witness :
  let env := Scenario.with_serial
               (fun name _ => Js.eqb name (js "attach-user"))
               (Sample.env 0 0) in
  exists fuel err st' new stages tail,
    Internal._handleMessage env (Sample.message "hi") fuel
      [mkHook (fun _ => true) (Internal._process env);
       Sample.hook (Sample.reply_with "pong")] Sample.fresh
    = Some (err, st') /\
    log st' = log Sample.fresh ++ new /\
    new = [Invoked 0; Emitted (js "before-attach")] ++ stages ++ tail /\
    gate_stages Group stages /\
    invoked new = [0%nat] /\ sent new = [] /\ warned new = [] /\
    emitted new = js "before-attach" :: emitted stages ++ [js "middleware"] /\
    (forall e, err = Some e -> exists kind, update_error env kind = Some e).
Proof.
  intros env.
  apply (listener_veto_stops_the_message env (Sample.message "hi")
           _ [Sample.reply_with "pong"]).
  - discriminate.
  - reflexivity.
  - reflexivity.
  - right. reflexivity.
Defined.

Section OpenGates.
Variable env : Env.
Variable session : Session.

Local Abbreviation run := (Internal.run env session).

Lemma observeUser_attaches st :
  let o := Internal.observeUser env session st in
  user (snd o) = Some (fst o) /\
  SharedCache.holds (id session) (user_key env session) (_userCache (snd o)) /\
  _sessions (snd o) = _sessions st /\
  _channelCache (snd o) = _channelCache st /\
  queue (snd o) = queue st /\ index (snd o) = index st /\
  parsed (snd o) = parsed st /\ channel (snd o) = channel st /\
  log (snd o) = log st.
Proof.
  unfold Internal.observeUser, SharedCache.get.
  destruct (_userCache st !! user_key env session) as [e|] eqn:E;
    cbn [fst snd user set_user set_userCache _userCache _sessions
         _channelCache queue index parsed channel log].
  - repeat split; try done. eexists. rewrite lookup_insert_eq.
    split; [done|]. simpl. set_solver.
  - repeat split; try done. unfold SharedCache.set. eexists.
    rewrite lookup_insert_eq. split; [done|]. simpl. set_solver.
Qed.

Lemma observeChannel_attaches st :
  let o := Internal.observeChannel env session st in
  channel (snd o) = Some (fst o) /\
  SharedCache.holds (id session) (channel_key env session)
    (_channelCache (snd o)) /\
  _sessions (snd o) = _sessions st /\
  _userCache (snd o) = _userCache st /\
  queue (snd o) = queue st /\ index (snd o) = index st /\
  parsed (snd o) = parsed st /\ user (snd o) = user st /\
  log (snd o) = log st.
Proof.
  unfold Internal.observeChannel, SharedCache.get.
  destruct (_channelCache st !! channel_key env session) as [e|] eqn:E;
    cbn [fst snd user set_channel set_channelCache _userCache _sessions
         _channelCache queue index parsed channel log].
  - repeat split; try done. eexists. rewrite lookup_insert_eq.
    split; [done|]. simpl. set_solver.
  - repeat split; try done. unfold SharedCache.set. eexists.
    rewrite lookup_insert_eq. split; [done|]. simpl. set_solver.
Qed.

Lemma assignGuildId_attached st c :
  channel st = Some c ->
  let st' := Internal.assignGuildId env session st in
  channel st' = Some (mkChannel (c_flag c) (c_assignee c) (guildId session)) /\
  (forall r k, SharedCache.holds r k (_channelCache st) ->
               SharedCache.holds r k (_channelCache st')) /\
  _sessions st' = _sessions st /\ _userCache st' = _userCache st /\
  queue st' = queue st /\ index st' = index st /\
  parsed st' = parsed st /\ user st' = user st /\ log st' = log st.
Proof.
  intros Hc. unfold Internal.assignGuildId. rewrite Hc.
  cbn [user set_channel set_channelCache _userCache _sessions
       _channelCache queue index parsed channel log].
  repeat split; try done.
  intros r k (e & He & Hr).
  destruct (decide (channel_key env session = k)) as [<-|Hne].
  - eexists. rewrite lookup_alter_eq, He. simpl. done.
  - exists e. by rewrite lookup_alter_ne.
Qed.

(** X19.  When every gate is open for a group message (a
    database, no vetoing listener, no ignore bit, a channel assigned to
    the bot or a mention of it), [_process] stores the parsed message,
    attaches the channel record (with the guild of the session) and the
    user record, takes a hold on both in the caches, emits the four
    stage events in order, leaves the queue, the cursor and the session
    map alone, and returns what [next()] returns from there. *)
Theorem open_gates_attach_and_continue (st : State) :
  let v := Parser.parse_vars (config env) (segment env) session in
  let c := attached_channel env session st in
  let u := attached_user env session st in
  database env = true ->
  subtype session = Group ->
  serial env (js "attach-channel") session = false ->
  serial env (js "attach-user") session = false ->
  bit_and (c_flag c) (Channel_Flag_ignore env) = 0 ->
  c_assignee c = selfId session \/ Parser.v_atSelf v = true ->
  bit_and (u_flag u) (User_Flag_ignore env) = 0 ->
  exists st2,
    parsed st2 = Some (Parser.parsed_of v) /\
    channel st2
    = Some (mkChannel (c_flag c) (c_assignee c) (guildId session)) /\
    user st2 = Some u /\
    SharedCache.holds (id session) (channel_key env session)
      (_channelCache st2) /\
    SharedCache.holds (id session) (user_key env session) (_userCache st2) /\
    log st2
    = log st ++ map Emitted [js "before-attach"; js "before-attach-channel";
                             js "before-attach-user"; js "attach"] /\
    queue st2 = queue st /\ index st2 = index st /\
    _sessions st2 = _sessions st /\
    exists fuel r st3,
      Internal.next env session fuel CbUndefined st2 = Some (Value r, st3) /\
      run (12 + fuel) (Internal._process env session) st
      = Some (Value r, st3).
Proof.
  intros v c u Hdb Hsub Hvc Hvu Hfc Hassignee Hfu.
  set (st1 := emit (Emitted (js "before-attach"))
                (set_parsed (Some (Parser.parsed_of v)) st)).
  set (oc := Internal.observeChannel env session
               (emit (Emitted (js "before-attach-channel")) st1)).
  set (st3 := Internal.assignGuildId env session (snd oc)).
  set (ou := Internal.observeUser env session
               (emit (Emitted (js "before-attach-user")) st3)).
  assert (Hc : fst oc = c) by (by apply observeChannel_same).
  destruct (observeChannel_attaches
              (emit (Emitted (js "before-attach-channel")) st1))
    as (C1 & C2 & C3 & C4 & C5 & C6 & C7 & C8 & C9).
  fold oc in C1, C2, C3, C4, C5, C6, C7, C8, C9.
  destruct (assignGuildId_attached (snd oc) (fst oc) C1)
    as (G1 & G2 & G3 & G4 & G5 & G6 & G7 & G8 & G9).
  fold st3 in G1, G2, G3, G4, G5, G6, G7, G8, G9.
  assert (Hu : fst ou = u).
  { apply observeUser_same. cbn [_userCache emit]. by rewrite G4, C4. }
  destruct (observeUser_attaches
              (emit (Emitted (js "before-attach-user")) st3))
    as (U1 & U2 & U3 & U4 & U5 & U6 & U7 & U8 & U9).
  fold ou in U1, U2, U3, U4, U5, U6, U7, U8, U9.
  exists (emit (Emitted (js "attach")) (snd ou)).
  cbn [parsed channel user _channelCache _userCache log queue index _sessions
       emit].
  split; [rewrite U7; change (parsed st3 = Some (Parser.parsed_of v));
          by rewrite G7, C7|].
  split; [rewrite U8; change (channel st3 = Some (mkChannel (c_flag c)
            (c_assignee c) (guildId session))); by rewrite G1, Hc|].
  split; [by rewrite U1, Hu|].
  split; [rewrite U4; change (SharedCache.holds (id session)
            (channel_key env session) (_channelCache st3)); by apply G2|].
  split; [done|].
  split.
  { rewrite U9.
    change ((log st3 ++ [Emitted (js "before-attach-user")])
            ++ [Emitted (js "attach")]
            = log st ++ map Emitted [js "before-attach";
                                     js "before-attach-channel";
                                     js "before-attach-user"; js "attach"]).
    rewrite G9, C9.
    change ((((log st ++ [Emitted (js "before-attach")])
              ++ [Emitted (js "before-attach-channel")])
             ++ [Emitted (js "before-attach-user")])
            ++ [Emitted (js "attach")]
            = log st ++ map Emitted [js "before-attach";
                                     js "before-attach-channel";
                                     js "before-attach-user"; js "attach"]).
    by rewrite <- !app_assoc. }
  split; [rewrite U5; change (queue st3 = queue st); by rewrite G5, C5|].
  split; [rewrite U6; change (index st3 = index st); by rewrite G6, C6|].
  split; [rewrite U3; change (_sessions st3 = _sessions st);
          by rewrite G3, C3|].
  destruct (next_terminates env session CbUndefined
              (emit (Emitted (js "attach")) (snd ou)))
    as (fuel & r & st4 & Hnext).
  exists fuel, r, st4. split; [exact Hnext|].
  rewrite (process_steps env session (10 + fuel)). cbv zeta.
  rewrite Hdb, Hsub. fold v. fold st1.
  rewrite (attach_channel_steps env session (5 + fuel)). cbv zeta.
  fold oc. fold st3. rewrite Hc, Hvc, Hfc.
  assert (Hgate : negb (Js.eqb (c_assignee c) (selfId session))
                  && negb (Parser.v_atSelf v) = false).
  { destruct Hassignee as [-> | ->].
    - unfold Js.eqb. by rewrite bool_decide_eq_true_2.
    - by rewrite andb_false_r. }
  rewrite Hgate. cbn [orb negb Z.eqb].
  rewrite (attach_user_steps env session (2 + fuel)). cbv zeta.
  fold ou. rewrite Hu, Hvu, Hfu. cbn [orb negb Z.eqb].
  by apply finish_steps.
Qed.

Lemma next_try_undefined call st handler :
  _sessions st !! id session <> None ->
  queue st !! index st = Some handler ->
  Internal.next_try session call CbUndefined st
  = call handler (emit (Invoked (index st)) (set_index (S (index st)) st)).
Proof.
  intros Hreg Hq. unfold Internal.next_try.
  destruct (decide _) as [Hn|_]; [done|].
  unfold Internal.advance. cbn [Internal.push compose is_defined andb].
  by rewrite Hq.
Qed.

(** X20.  Without a database [_process] gates nothing: after
    ["before-attach"] it emits ["attach"] and calls [next()], so the
    handler registered behind it is invoked next. *)
Theorem without_database_nothing_is_gated
    (hooks : list Hook) (handler : Script) (others : list Script)
    (st : State) :
  selfId session <> userId session ->
  database env = false ->
  Internal.build_queue session hooks
  = Internal._process env session :: handler :: others ->
  exists fuel err st' more,
    Internal._handleMessage env session fuel hooks st = Some (err, st') /\
    log st'
    = log st ++ [Invoked 0; Emitted (js "before-attach");
                 Emitted (js "attach"); Invoked 1] ++ more.
Proof.
  intros Hself Hdb Hq.
  set (v := Parser.parse_vars (config env) (segment env) session).
  set (st0 := emit (Invoked 0) (set_index 1 (entry_state session hooks st))).
  set (st1 := emit (Emitted (js "before-attach"))
                (set_parsed (Some (Parser.parsed_of v)) st0)).
  set (st2 := emit (Emitted (js "attach")) st1).
  destruct (next_terminates env session CbUndefined st2)
    as (fuel & r & st3 & Hnext).
  assert (Hlog : exists n, log st3 = log st2 ++ Invoked 1 :: n).
  { unfold Internal.next, Internal.next_with in Hnext.
    rewrite (next_try_undefined _ st2 handler) in Hnext.
    - destruct (Internal.run env session fuel handler _)
        as [[o st3']|] eqn:Erun; [|done].
      injection Hnext as Hcatch.
      apply run_evolves in Erun as (_ & _ & n1 & L1 & _).
      apply evolves_catch in Hcatch as (_ & _ & n2 & L2 & _).
      exists (n1 ++ n2). rewrite L2, L1.
      change (log (emit (Invoked (index st2)) (set_index (S (index st2)) st2)))
        with (log st2 ++ [Invoked 1]).
      by rewrite <- !app_assoc.
    - by apply (entry_registered session hooks st).
    - change (Internal.build_queue session hooks !! 1%nat = Some handler).
      by rewrite Hq. }
  destruct Hlog as (n & Hlog).
  assert (Hrun : run (5 + fuel) (Internal._process env session) st0
                 = Some (Value r, st3)).
  { rewrite (process_steps env session (3 + fuel)). cbv zeta. rewrite Hdb.
    fold v. fold st1. by apply finish_steps. }
  pose proof (next_entry_outcome env session _ _ _ _ _ _ _ Hq Hrun) as Hn.
  cbn [Internal.catch] in Hn.
  destruct (dispatch_anatomy env session _ _ _ _ _ Hself Hn)
    as (tail & Hh & _).
  eexists (5 + fuel)%nat, _, _, (n ++ tail). split; [exact Hh|].
  cbn [log]. rewrite Hlog.
  change (log st2) with (((log st ++ [Invoked 0])
                          ++ [Emitted (js "before-attach")])
                         ++ [Emitted (js "attach")]).
  rewrite <- !app_assoc. reflexivity.
Qed.
End OpenGates.

(** A group message in a channel assigned to the bot, with no ignore
    bit and no vetoing listener. *)
Lemma open_gates_attach_and_continue_witness :
  let env := Sample.env 0 0 in
  let session := Sample.message "hi" in
  exists st2,
    parsed st2 = Some (mkParsed (js "hi") false (Some [])) /\
    channel st2 = Some (mkChannel 0 (js "bot") (js "g1")) /\
    user st2 = Some (mkUser 0) /\
    SharedCache.holds (js "s1") (js "c1") (_channelCache st2) /\
    SharedCache.holds (js "s1") (js "u1") (_userCache st2) /\
    log st2
    = map Emitted [js "before-attach"; js "before-attach-channel";
                   js "before-attach-user"; js "attach"] /\
    queue st2 = [] /\ index st2 = 0%nat /\ _sessions st2 = ∅ /\
    exists fuel r st3,
      Internal.next env session fuel CbUndefined st2 = Some (Value r, st3) /\
      Internal.run env session (12 + fuel) (Internal._process env session)
        Sample.fresh
      = Some (Value r, st3).
Proof.
  intros env session.
  apply (open_gates_attach_and_continue env session Sample.fresh).
  - reflexivity.
  - reflexivity.
  - reflexivity.
  - reflexivity.
  - reflexivity.
  - left. reflexivity.
  - reflexivity.
Defined.

(** Without a database the message reaches the handler behind
    [_process] with no stage in between. *)
Lemma without_database_nothing_is_gated_witness :
  let env := Scenario.with_database false (Sample.env 1 1) in
  exists fuel err st' more,
    Internal._handleMessage env (Sample.message "hi") fuel
      [mkHook (fun _ => true) (Internal._process env);
       Sample.hook (Sample.reply_with "pong")] Sample.fresh
    = Some (err, st') /\
    log st'
    = log Sample.fresh ++ [Invoked 0; Emitted (js "before-attach");
                           Emitted (js "attach"); Invoked 1] ++ more.
Proof.
  intros env.
  apply (without_database_nothing_is_gated env (Sample.message "hi")
           _ (Sample.reply_with "pong") []).
  - discriminate.
  - reflexivity.
  - reflexivity.
Defined.

(** ** Handlers that pass a message on *)

Section Relays.
Variable env : Env.
Variable session : Session.

Local Abbreviation run := (Internal.run env session).
Local Abbreviation next := (Internal.next env session).

(** What the effects on the way to [return next()] leave alone. *)
Lemma forwards_keeps s st st1 :
  forwards env session s st st1 ->
  _sessions st1 = _sessions st /\ queue st1 = queue st /\
  index st1 = index st /\
  exists names, log st1 = log st ++ map Emitted names.
Proof.
  induction 1 as [st|name k st st1 _ IH|name k st st1 _ IH|p k st st1 _ IH
                 |k st st1 _ IH|k st st1 _ IH|k st st1 _ IH].
  - repeat split; try done. exists []. by rewrite app_nil_r.
  - destruct IH as (S1 & Q1 & I1 & names & L1).
    repeat split; try done. exists (name :: names).
    rewrite L1. cbn [log emit map]. by rewrite <- app_assoc.
  - done.
  - done.
  - destruct IH as (S1 & Q1 & I1 & names & L1).
    destruct (observeChannel_attaches env session st)
      as (_ & _ & S2 & _ & Q2 & I2 & _ & _ & L2).
    rewrite S1, Q1, I1, L1, S2, Q2, I2, L2. eauto.
  - destruct IH as (S1 & Q1 & I1 & names & L1).
    rewrite S1, Q1, I1, L1. unfold Internal.assignGuildId.
    destruct (channel st); eauto.
  - destruct IH as (S1 & Q1 & I1 & names & L1).
    destruct (observeUser_attaches env session st)
      as (_ & _ & S2 & _ & Q2 & I2 & _ & _ & L2).
    rewrite S1, Q1, I1, L1, S2, Q2, I2, L2. eauto.
Qed.

(** A handler that forwards returns what its call of [next()]
    returns. *)
Lemma forwards_run s st st1 :
  forwards env session s st st1 ->
  exists depth, forall fuel r st2,
    next fuel CbUndefined st1 = Some (Value r, st2) ->
    run (depth + fuel) s st = Some (Value r, st2).
Proof.
  induction 1 as [st|name k st st1 _ [d IH]|name k st st1 _ [d IH]
                 |p k st st1 _ [d IH]|k st st1 _ [d IH]|k st st1 _ [d IH]
                 |k st st1 _ [d IH]].
  - exists 2%nat. intros fuel r st2 Hnext. by apply next_as_run.
  - exists (S d). intros fuel r st2 Hnext.
    change (run (S d + fuel) (Emit name k) st)
      with (run (d + fuel) k (emit (Emitted name) st)). by apply IH.
  - exists (S d). intros fuel r st2 Hnext.
    change (run (S d + fuel) (Serial name k) st)
      with (run (d + fuel) (k (serial env name session)) st). by apply IH.
  - exists (S d). intros fuel r st2 Hnext.
    change (run (S d + fuel) (SetParsed p k) st)
      with (run (d + fuel) k (set_parsed (Some p) st)). by apply IH.
  - exists (S d). intros fuel r st2 Hnext.
    change (run (S d + fuel) (ObserveChannel k) st)
      with (let (c, st') := Internal.observeChannel env session st in
            run (d + fuel) (k c) st').
    specialize (IH _ _ _ Hnext).
    by destruct (Internal.observeChannel env session st).
  - exists (S d). intros fuel r st2 Hnext.
    change (run (S d + fuel) (AssignGuildId k) st)
      with (run (d + fuel) k (Internal.assignGuildId env session st)).
    by apply IH.
  - exists (S d). intros fuel r st2 Hnext.
    change (run (S d + fuel) (ObserveUser k) st)
      with (let (u, st') := Internal.observeUser env session st in
            run (d + fuel) (k u) st').
    specialize (IH _ _ _ Hnext).
    by destruct (Internal.observeUser env session st).
Qed.

(** Through handlers that forward, the value of the innermost call of
    [next()] comes back as the value of the outermost one. *)
Lemma relayed_next handlers st st1 before behind :
  relayed env session handlers st st1 ->
  _sessions st !! id session <> None ->
  queue st = before ++ handlers ++ behind ->
  length before = index st ->
  _sessions st1 = _sessions st /\ queue st1 = queue st /\
  index st1 = (index st + length handlers)%nat /\
  forall fuel r st2,
    next fuel CbUndefined st1 = Some (Value r, st2) ->
    exists fuel', next fuel' CbUndefined st = Some (Value r, st2).
Proof.
  intros Hrel. revert before.
  induction Hrel as [st|handler handlers st st1 st2 Hfw _ IH];
    intros before Hreg Hq Hlen.
  - split; [done|]. split; [done|]. split; [simpl; lia|]. eauto.
  - destruct (forwards_keeps _ _ _ Hfw) as (S1 & Q1 & I1 & _).
    cbn [_sessions queue index emit set_index] in S1, Q1, I1.
    destruct (IH (before ++ [handler])) as (S2 & Q2 & I2 & Hnext).
    + by rewrite S1.
    + by rewrite Q1, Hq, <- app_assoc.
    + rewrite I1, length_app. simpl. lia.
    + split; [by rewrite S2, S1|]. split; [by rewrite Q2, Q1|].
      split; [rewrite I2, I1; simpl; lia|].
      intros fuel r st3 H3.
      destruct (Hnext _ _ _ H3) as (fuel1 & H1).
      destruct (forwards_run _ _ _ Hfw) as (depth & Hrun).
      exists (depth + fuel1)%nat.
      unfold Internal.next, Internal.next_with.
      rewrite (next_try_undefined session _ st handler Hreg).
      * by rewrite (Hrun _ _ _ H1).
      * rewrite Hq, <- Hlen. by apply list_lookup_middle.
Qed.

(** Without a database [_process] always forwards. *)
Lemma process_forwards_without_database st :
  database env = false ->
  forwards env session (Internal._process env session) st
    (emit (Emitted (js "attach"))
       (emit (Emitted (js "before-attach"))
          (set_parsed
             (Some (Parser.parsed_of
                      (Parser.parse_vars (config env) (segment env) session)))
             st))).
Proof.
  intros Hdb. unfold Internal._process. cbv zeta. rewrite Hdb.
  apply forwards_SetParsed, forwards_Emit.
  unfold Internal.finish. apply forwards_Emit, forwards_next.
Qed.

(** With a database [_process] forwards a group message when every
    gate is open. *)
Lemma process_forwards_open_gates st :
  let v := Parser.parse_vars (config env) (segment env) session in
  let c := attached_channel env session st in
  let u := attached_user env session st in
  database env = true ->
  subtype session = Group ->
  serial env (js "attach-channel") session = false ->
  serial env (js "attach-user") session = false ->
  bit_and (c_flag c) (Channel_Flag_ignore env) = 0 ->
  c_assignee c = selfId session \/ Parser.v_atSelf v = true ->
  bit_and (u_flag u) (User_Flag_ignore env) = 0 ->
  exists st1, forwards env session (Internal._process env session) st st1.
Proof.
  intros v c u Hdb Hsub Hvc Hvu Hfc Hassignee Hfu.
  unfold Internal._process. cbv zeta. fold v. rewrite Hdb, Hsub.
  eexists. apply forwards_SetParsed, forwards_Emit.
  unfold Internal.attach_channel.
  apply forwards_Emit, forwards_ObserveChannel.
  set (oc := Internal.observeChannel env session _).
  assert (Hc : fst oc = c) by (by apply observeChannel_same).
  apply forwards_AssignGuildId, forwards_Serial.
  rewrite Hvc, Hc, Hfc.
  assert (Hgate : negb (Js.eqb (c_assignee c) (selfId session))
                  && negb (Parser.v_atSelf v) = false).
  { destruct Hassignee as [-> | ->].
    - unfold Js.eqb. by rewrite bool_decide_eq_true_2.
    - by rewrite andb_false_r. }
  rewrite Hgate. cbn [negb Z.eqb].
  unfold Internal.attach_user.
  apply forwards_Emit, forwards_ObserveUser.
  set (ou := Internal.observeUser env session _).
  assert (Hu : fst ou = u).
  { apply observeUser_same. cbn [_userCache emit].
    rewrite assignGuildId_userCache. unfold oc.
    by rewrite observeChannel_userCache. }
  apply forwards_Serial. rewrite Hvu, Hu, Hfu. cbn [negb Z.eqb].
  unfold Internal.finish. apply forwards_Emit, forwards_next.
Qed.

(** C9, as amended.  A [SessionError] thrown by a handler is caught by
    the call of [next] that invoked the handler and becomes the value
    of that call: the localised text of its key and parameters.  That
    text is what [_handleMessage] hands to [session.send] (it is sent
    when it is not empty and sending succeeds), with no warning logged
    for it, when the handler was invoked by the top-level call, and
    also when every handler in front of it in the queue forwards: it
    emits events, stores the parsed message, consults listeners or
    attaches records, and then ends with [return next()], as
    [_process] does when it lets the message pass.  In every dispatch,
    an error that leaves [_handleMessage] comes from [session.send] or
    from a [$update], never from a handler. *)
Theorem session_error_becomes_the_result_of_next :
  (forall call cb st path param st1,
     Internal.next_try session call cb st
     = Some (Raise (SessionError path param), st1) ->
     Internal.next_with env session call cb st
     = Some (Value (Some (text env path param)), st1)) /\
  (forall fuel hooks st handler others path param st1,
     selfId session <> userId session ->
     Internal.build_queue session hooks = handler :: others ->
     run fuel handler
       (emit (Invoked 0) (set_index 1 (entry_state session hooks st)))
     = Some (Raise (SessionError path param), st1) ->
     exists err st' tail,
       Internal._handleMessage env session fuel hooks st = Some (err, st') /\
       log st' = log st1 ++ tail /\
       invoked tail = [] /\ warned tail = [] /\
       sent tail = delivered env (Some (text env path param))) /\
  (forall fuel hooks st relays thrower others path param st1 st2,
     selfId session <> userId session ->
     Internal.build_queue session hooks = relays ++ thrower :: others ->
     relayed env session relays (entry_state session hooks st) st1 ->
     run fuel thrower
       (emit (Invoked (length relays)) (set_index (S (length relays)) st1))
     = Some (Raise (SessionError path param), st2) ->
     exists fuel' err st' tail,
       Internal._handleMessage env session fuel' hooks st = Some (err, st') /\
       log st' = log st2 ++ tail /\
       invoked tail = [] /\ warned tail = [] /\
       sent tail = delivered env (Some (text env path param))) /\
  (forall hooks st,
     selfId session <> userId session ->
     exists fuel err st',
       Internal._handleMessage env session fuel hooks st = Some (err, st') /\
       forall e, err = Some e ->
         (exists f, send_error env f = Some e) \/
         (exists kind, update_error env kind = Some e)).
Proof.
  split; [|split; [|split]].
  - intros call cb st path param st1 Htry. unfold Internal.next_with.
    by rewrite Htry.
  - intros fuel hooks st handler others path param st1 Hself Hq Hrun.
    assert (Hnext : next fuel CbUndefined (entry_state session hooks st)
                    = Some (Value (Some (text env path param)), st1)).
    { unfold Internal.next, Internal.next_with.
      by rewrite (next_try_entry session _ _ _ _ _ Hq), Hrun. }
    destruct (dispatch_unfold _ _ _ _ _ _ _ Hself Hnext)
      as (err & st' & tail & Hh & Hl & Hi & Hw & Hs & _).
    by exists err, st', tail.
  - intros fuel hooks st relays thrower others path param st1 st2
           Hself Hq Hrel Hrun.
    destruct (relayed_next relays _ st1 [] (thrower :: others) Hrel)
      as (S1 & Q1 & I1 & Hup).
    { apply entry_registered. }
    { exact Hq. }
    { reflexivity. }
    cbn [index entry_state set_index] in I1. simpl in I1.
    assert (Hinner : next fuel CbUndefined st1
                     = Some (Value (Some (text env path param)), st2)).
    { unfold Internal.next, Internal.next_with.
      rewrite (next_try_undefined session _ st1 thrower).
      - rewrite I1. by rewrite Hrun.
      - rewrite S1. apply entry_registered.
      - rewrite Q1, I1.
        change (Internal.build_queue session hooks !! length relays
                = Some thrower).
        rewrite Hq. by apply list_lookup_middle. }
    destruct (Hup _ _ _ Hinner) as (fuel' & Hnext).
    destruct (dispatch_unfold _ _ _ _ _ _ _ Hself Hnext)
      as (err & st' & tail & Hh & Hl & Hi & Hw & Hs & _).
    by exists fuel', err, st', tail.
  - intros hooks st Hself.
    destruct (next_terminates env session CbUndefined
                (entry_state session hooks st)) as (fuel & r & st1 & Hnext).
    destruct (dispatch_unfold _ _ _ _ _ _ _ Hself Hnext)
      as (err & st' & tail & Hh & _ & _ & _ & _ & He).
    exists fuel, err, st'. split; [done|]. intros e Herr.
    destruct (He e Herr) as [(f & _ & Hf)|Hk]; eauto.
Qed.
End Relays.

(** A dispatch whose only handler throws the permission error, and one
    where [_process], with every gate open, sits in front of that
    handler. *)
Lemma session_error_becomes_the_result_of_next_witness :
  (exists err st' tail,
     Internal._handleMessage (Sample.env 0 0) (Sample.message "hi") 1
       [Sample.hook Sample.deny] Sample.fresh = Some (err, st') /\
     log st' = [Invoked 0] ++ tail /\
     invoked tail = [] /\ warned tail = [] /\
     sent tail = [js "text:errors.no-permission"]) /\
  (let env := Sample.env 0 0 in
   let session := Sample.message "hi" in
   let hooks := [mkHook (fun _ => true) (Internal._process env);
                 Sample.hook Sample.deny] in
   exists st1 fuel err st' tail,
     relayed env session [Internal._process env session]
       (entry_state session hooks Sample.fresh) st1 /\
     Internal._handleMessage env session fuel hooks Sample.fresh
     = Some (err, st') /\
     log st' = (log st1 ++ [Invoked 1]) ++ tail /\
     invoked tail = [] /\ warned tail = [] /\
     sent tail = [js "text:errors.no-permission"]).
Proof.
  split.
  - apply (proj1 (proj2 (session_error_becomes_the_result_of_next
                           (Sample.env 0 0) (Sample.message "hi")))
             1%nat [Sample.hook Sample.deny] Sample.fresh Sample.deny []
             (Single (js "errors.no-permission")) []
             (emit (Invoked 0)
                (set_index 1
                   (entry_state (Sample.message "hi")
                      [Sample.hook Sample.deny] Sample.fresh)))).
    + discriminate.
    + reflexivity.
    + reflexivity.
  - intros env session hooks.
    destruct (process_forwards_open_gates env session
                (emit (Invoked 0)
                   (set_index 1 (entry_state session hooks Sample.fresh))))
      as (st1 & Hfw); try reflexivity; [by left|].
    assert (Hrel : relayed env session [Internal._process env session]
                     (entry_state session hooks Sample.fresh) st1).
    { eapply relayed_cons; [exact Hfw|apply relayed_nil]. }
    destruct (proj1 (proj2 (proj2 (session_error_becomes_the_result_of_next
                                     env session)))
                1%nat hooks Sample.fresh [Internal._process env session]
                Sample.deny [] (Single (js "errors.no-permission")) [] st1
                (emit (Invoked 1) (set_index 2 st1))
                ltac:(discriminate) eq_refl Hrel eq_refl)
      as (fuel & err & st' & tail & Hh & Hl & Hi & Hw & Hs).
    exists st1, fuel, err, st', tail. repeat split; try done.
Defined.

(** ** Patterns and their matches *)

Section RegExpFacts.
Variable s : JsString.

Lemma matches_bounds r i j :
  matches s r i j -> (i <= j)%nat /\ (j <= i `max` length s)%nat.
Proof.
  induction 1; try lia.
  apply lookup_lt_Some in H. lia.
Qed.

Lemma star_sound step fuel i k :
  k ∈ RegExp.star step fuel i ->
  rtc (fun a b => b ∈ step a) i k.
Proof.
  revert i. induction fuel as [|fuel IH]; intros i; simpl.
  - intros ->%list_elem_of_singleton. constructor.
  - intros [->|Hin]%elem_of_cons; [constructor|].
    apply list_elem_of_bind in Hin as (j & Hk & Hj).
    destruct (i <? j)%nat; [|by apply elem_of_nil in Hk].
    eapply rtc_l; [exact Hj|]. by apply IH.
Qed.

Lemma star_complete step fuel i k :
  (forall a b, b ∈ step a -> (a <= b)%nat /\ (b <= a `max` length s)%nat) ->
  (length s - i <= fuel)%nat ->
  rtc (fun a b => b ∈ step a) i k ->
  k ∈ RegExp.star step fuel i.
Proof.
  intros Hstep Hfuel Hrtc. revert fuel Hfuel.
  induction Hrtc as [i|i j k Hij Hjk IH]; intros fuel Hfuel.
  - destruct fuel; simpl; apply elem_of_cons; by left.
  - destruct (Hstep _ _ Hij) as [Hle Hmax].
    destruct (decide (i = j)) as [->|Hne]; [by apply IH|].
    destruct fuel as [|fuel]; [lia|]. simpl.
    apply elem_of_cons. right. apply list_elem_of_bind.
    exists j. split; [|done].
    destruct (Nat.ltb_spec i j); [|lia]. apply IH. lia.
Qed.

Lemma matches_Star_rtc r i k :
  matches s (RegExp.Star r) i k <-> rtc (fun a b => matches s r a b) i k.
Proof.
  split.
  - remember (RegExp.Star r) as r' eqn:Hr. intros H.
    induction H; try discriminate.
    + constructor.
    + injection Hr as ->. eapply rtc_l; [done|]. by apply IHmatches2.
  - induction 1; [constructor|]. by eapply matches_Star_cons.
Qed.

(** The positions computed are the ends of the matches. *)
Lemma ends_matches r i j : j ∈ RegExp.ends s r i <-> matches s r i j.
Proof.
  revert i j. induction r as [| | |p|r1 IH1 r2 IH2|r1 IH1 r2 IH2|r IH];
    intros i j; simpl.
  - rewrite list_elem_of_singleton. split; [intros ->; constructor|].
    by inversion 1.
  - destruct (decide (i = 0%nat)) as [->|Hne].
    + rewrite list_elem_of_singleton. split; [intros ->; constructor|].
      by inversion 1.
    + split; [by intros ?%elem_of_nil|]. inversion 1. lia.
  - destruct (decide (i = length s)) as [->|Hne].
    + rewrite list_elem_of_singleton. split; [intros ->; constructor|].
      by inversion 1.
    + split; [by intros ?%elem_of_nil|]. inversion 1. lia.
  - destruct (s !! i) as [c|] eqn:Hc.
    + destruct (p c) eqn:Hp.
      * rewrite list_elem_of_singleton.
        split; [intros ->; by econstructor|]. by inversion 1.
      * split; [by intros ?%elem_of_nil|]. inversion 1. congruence.
    + split; [by intros ?%elem_of_nil|]. inversion 1. congruence.
  - rewrite list_elem_of_bind. split.
    + intros (k & Hk2 & Hk1). apply IH1 in Hk1. apply IH2 in Hk2.
      by econstructor.
    + inversion 1; subst. eexists. split; [by apply IH2|by apply IH1].
  - rewrite elem_of_app. split.
    + intros [H|H]; [apply matches_Alt_l, IH1|apply matches_Alt_r, IH2]; done.
    + inversion 1; subst; [left; by apply IH1|right; by apply IH2].
  - rewrite matches_Star_rtc. split.
    + intros H%star_sound. eapply rtc_subrel; [|exact H].
      intros a b Hab. by apply IH.
    + intros H.
      destruct (decide (i <= length s)%nat) as [Hi|Hi].
      * apply star_complete; [|lia|].
        -- intros a b Hab. apply IH in Hab. by apply matches_bounds in Hab.
        -- eapply rtc_subrel; [|exact H]. intros a b Hab. by apply IH.
      * assert (j = i) as ->.
        { clear -H Hi. induction H as [|a b c Hab Hbc IHr]; [done|].
          apply matches_bounds in Hab. assert (b = a) by lia. subst.
          by apply IHr. }
        destruct (length s); simpl; apply elem_of_cons; by left.
Qed.

Lemma test_matches r :
  RegExp.test r s = true
  <-> exists i j, (i <= length s)%nat /\ matches s r i j.
Proof.
  unfold RegExp.test. rewrite existsb_exists. split.
  - intros (i & Hi & Hne). apply in_seq in Hi.
    destruct (RegExp.ends s r i) as [|j l] eqn:E; [done|].
    exists i, j. split; [lia|]. apply ends_matches. rewrite E. by left.
  - intros (i & j & Hi & Hm). exists i. split; [apply in_seq; lia|].
    apply ends_matches in Hm. destruct (RegExp.ends s r i); [|done].
    by apply elem_of_nil in Hm.
Qed.
End RegExpFacts.

Section WordFacts.
Implicit Types (s w : JsString) (i j : nat).

Lemma at_position_nil s i : (i <= length s)%nat -> at_position s i [].
Proof.
  intros Hi. exists (take i s), (drop i s). simpl.
  rewrite take_drop. split; [done|]. rewrite length_take. lia.
Qed.

Lemma at_position_app s i w1 w2 :
  at_position s i w1 -> at_position s (i + length w1) w2 ->
  at_position s i (w1 ++ w2).
Proof.
  intros (b1 & a1 & E1 & L1) (b2 & a2 & E2 & L2).
  exists b1, a2. split; [|done].
  rewrite E1 in E2. rewrite (app_assoc b1 w1 a1) in E2.
  apply app_inj_1 in E2 as [_ E2]; [|rewrite length_app; lia].
  rewrite E1, E2. by rewrite <- app_assoc.
Qed.

Lemma at_position_split s i w1 w2 :
  at_position s i (w1 ++ w2) ->
  at_position s i w1 /\ at_position s (i + length w1) w2.
Proof.
  intros (b & a & E & L). split.
  - exists b, (w2 ++ a). by rewrite E, <- app_assoc.
  - exists (b ++ w1), a. rewrite length_app, E, <- !app_assoc.
    split; [done|lia].
Qed.

Lemma at_position_lookup s i c :
  s !! i = Some c <-> at_position s i [c].
Proof.
  split.
  - intros H. apply list_elem_of_split_length in H as (b & a & -> & ->).
    by exists b, a.
  - intros (b & a & -> & <-). by apply list_lookup_middle.
Qed.

Lemma at_position_bound s i w :
  at_position s i w -> (i + length w <= length s)%nat.
Proof. intros (b & a & -> & <-). rewrite !length_app. lia. Qed.

(** Matches of a pattern without assertions are the texts of its
    language, wherever they stand. *)
Lemma matches_lang s r i j :
  plain r ->
  (i <= length s)%nat ->
  matches s r i j
  <-> exists w, lang r w /\ at_position s i w /\ j = (i + length w)%nat.
Proof.
  intros Hplain Hi. split.
  - intros H. induction H; simpl in Hplain; try done.
    + exists []. split; [constructor|]. split; [by apply at_position_nil|].
      simpl. lia.
    + exists [c]. split; [by constructor|].
      split; [by apply at_position_lookup|]. simpl. lia.
    + destruct Hplain as [P1 P2].
      destruct (IHmatches1 P1 Hi) as (w1 & L1 & A1 & ->).
      pose proof (at_position_bound _ _ _ A1) as Hb.
      destruct (IHmatches2 P2 Hb) as (w2 & L2 & A2 & ->).
      exists (w1 ++ w2). split; [by constructor|].
      split; [by apply at_position_app|]. rewrite length_app. lia.
    + destruct (IHmatches (proj1 Hplain) Hi) as (w & L & A & ->).
      exists w. split; [by apply lang_Alt_l|done].
    + destruct (IHmatches (proj2 Hplain) Hi) as (w & L & A & ->).
      exists w. split; [by apply lang_Alt_r|done].
    + exists []. split; [constructor|]. split; [by apply at_position_nil|].
      simpl. lia.
    + destruct (IHmatches1 Hplain Hi) as (w1 & L1 & A1 & ->).
      pose proof (at_position_bound _ _ _ A1) as Hb.
      destruct (IHmatches2 Hplain Hb) as (w2 & L2 & A2 & ->).
      exists (w1 ++ w2). split; [by constructor|].
      split; [by apply at_position_app|]. rewrite length_app. lia.
  - intros (w & L & A & ->). clear Hplain Hi. revert i A.
    induction L; intros i A; simpl.
    + rewrite Nat.add_0_r. constructor.
    + rewrite Nat.add_1_r. apply at_position_lookup in A. by econstructor.
    + apply at_position_split in A as [A1 A2].
      rewrite length_app, Nat.add_assoc. econstructor; eauto.
    + apply matches_Alt_l. auto.
    + apply matches_Alt_r. auto.
    + rewrite Nat.add_0_r. constructor.
    + apply at_position_split in A as [A1 A2].
      rewrite length_app, Nat.add_assoc. econstructor; eauto.
Qed.

(** [/^r$/.test(s)]: the whole of [s] is in the language of [r]. *)
Lemma test_whole s r :
  plain r ->
  RegExp.test (RegExp.Seq RegExp.Bol (RegExp.Seq r RegExp.Eol)) s = true
  <-> lang r s.
Proof.
  intros Hplain. rewrite test_matches. split.
  - intros (i & j & Hi & Hm).
    inversion Hm as [| | | |? ? ? i0 ? Hb Hr| | | |]; subst.
    inversion Hb; subst.
    inversion Hr as [| | | |? ? ? j0 ? Hr1 He| | | |]; subst.
    inversion He; subst.
    apply matches_lang in Hr1 as (w & L & (b & a & E & Lb) & Hj); [|done|lia].
    destruct b; [|done]. simpl in *.
    assert (a = []) as ->.
    { rewrite E, length_app in Hj. destruct a; [done|]. simpl in Hj. lia. }
    by rewrite E, app_nil_r.
  - intros L. exists 0%nat, (length s). split; [lia|].
    econstructor; [constructor|]. econstructor; [|constructor].
    apply matches_lang; [done|lia|].
    exists s. split; [done|]. split; [|done].
    exists [], []. by rewrite app_nil_r.
Qed.

(** [/^r/.test(s)]: a text of the language of [r] starts [s]. *)
Lemma test_leading s r :
  plain r ->
  RegExp.test (RegExp.Seq RegExp.Bol r) s = true
  <-> exists w rest, s = w ++ rest /\ lang r w.
Proof.
  intros Hplain. rewrite test_matches. split.
  - intros (i & j & Hi & Hm).
    inversion Hm as [| | | |? ? ? i0 ? Hb Hr| | | |]; subst.
    inversion Hb; subst.
    apply matches_lang in Hr as (w & L & (b & a & E & Lb) & Hj); [|done|lia].
    destruct b; [|done]. by exists w, a.
  - intros (w & rest & -> & L). exists 0%nat, (length w). split; [lia|].
    econstructor; [constructor|].
    apply matches_lang; [done|lia|].
    exists w. split; [done|]. split; [|done]. by exists [], rest.
Qed.
End WordFacts.

(** ** Languages of the patterns *)

Lemma lang_Empty_iff w : lang RegExp.Empty w <-> w = [].
Proof. split; [by inversion 1|intros ->; constructor]. Qed.

Lemma lang_Class_iff p w :
  lang (RegExp.Class p) w <-> exists c, w = [c] /\ p c = true.
Proof.
  split; [inversion 1; eauto|intros (c & -> & H); by constructor].
Qed.

Lemma lang_Seq_iff r1 r2 w :
  lang (RegExp.Seq r1 r2) w
  <-> exists w1 w2, w = w1 ++ w2 /\ lang r1 w1 /\ lang r2 w2.
Proof.
  split; [inversion 1; eauto 6|intros (w1 & w2 & -> & H1 & H2); by constructor].
Qed.

Lemma lang_Alt_iff r1 r2 w :
  lang (RegExp.Alt r1 r2) w <-> lang r1 w \/ lang r2 w.
Proof.
  split; [inversion 1; eauto|intros [H|H]; by constructor].
Qed.

Lemma lang_Opt_iff r w : lang (RegExp.Opt r) w <-> lang r w \/ w = [].
Proof. unfold RegExp.Opt. by rewrite lang_Alt_iff, lang_Empty_iff. Qed.

Lemma lang_Star_iff r w :
  lang (RegExp.Star r) w <-> exists ws, Forall (lang r) ws /\ w = concat ws.
Proof.
  split.
  - remember (RegExp.Star r) as r' eqn:Hr. intros H.
    induction H; try discriminate.
    + by exists [].
    + injection Hr as ->. destruct (IHlang2 eq_refl) as (ws & Hws & ->).
      exists (w1 :: ws). split; [by constructor|done].
  - intros (ws & Hws & ->). induction Hws; simpl; by constructor.
Qed.

Lemma lang_Char_iff c w : lang (RegExp.Char c) w <-> w = [c].
Proof.
  unfold RegExp.Char. rewrite lang_Class_iff. split.
  - intros (c' & -> & H%N.eqb_eq). by subst.
  - intros ->. exists c. split; [done|apply N.eqb_refl].
Qed.

Lemma lang_Literal_iff t w : lang (RegExp.Literal t) w <-> w = t.
Proof.
  revert w. induction t as [|c t IH]; intros w; simpl.
  - apply lang_Empty_iff.
  - rewrite lang_Seq_iff. split.
    + intros (w1 & w2 & -> & ->%lang_Char_iff & ->%IH). done.
    + intros ->. exists [c], t. split; [done|].
      split; [by apply lang_Char_iff|by apply IH].
Qed.

Lemma lang_Star_Class p w :
  lang (RegExp.Star (RegExp.Class p)) w <-> Forall (fun c => p c = true) w.
Proof.
  rewrite lang_Star_iff. split.
  - intros (ws & Hws & ->). induction Hws as [|w ws Hw _ IH]; simpl; [done|].
    apply lang_Class_iff in Hw as (c & -> & Hc). by constructor.
  - intros H. exists (map (fun c => [c]) w). split.
    + apply Forall_map. eapply Forall_impl; [exact H|].
      intros c Hc. by apply lang_Class_iff; eauto.
    + clear H. induction w as [|c w IH]; simpl; [done|]. by f_equal.
Qed.

Lemma lang_Plus_Class p w :
  lang (RegExp.Plus (RegExp.Class p)) w
  <-> w <> [] /\ Forall (fun c => p c = true) w.
Proof.
  unfold RegExp.Plus. rewrite lang_Seq_iff. split.
  - intros (w1 & w2 & -> & (c & -> & Hc)%lang_Class_iff & H2%lang_Star_Class).
    split; [done|by constructor].
  - intros [Hne H]. destruct H as [|c w Hc Hw]; [done|].
    exists [c], w. split; [done|].
    split; [apply lang_Class_iff; eauto|by apply lang_Star_Class].
Qed.

Lemma lang_number w : lang Teach.number w <-> is_number w.
Proof. apply lang_Plus_Class. Qed.

Lemma lang_range w : lang Teach.range w <-> is_range w.
Proof.
  unfold Teach.range, is_range. rewrite lang_Seq_iff. split.
  - intros (w1 & w2 & -> & H1%lang_number & H2%lang_Opt_iff).
    destruct H2 as [H2| ->]; [|left; by rewrite app_nil_r].
    apply lang_Seq_iff in H2 as (d1 & w3 & -> & ->%lang_Char_iff & H3).
    apply lang_Seq_iff in H3 as (d2 & w4 & -> & ->%lang_Char_iff
                                 & H4%lang_number).
    right. by exists w1, w4.
  - intros [H|(a & b & Ha & Hb & ->)].
    + exists w, []. rewrite app_nil_r. split; [done|].
      split; [by apply lang_number|]. apply lang_Opt_iff. by right.
    + exists a, (js ".." ++ b). split; [done|].
      split; [by apply lang_number|]. apply lang_Opt_iff. left.
      apply lang_Seq_iff. exists [46%N], (46%N :: b). split; [done|].
      split; [by apply lang_Char_iff|].
      apply lang_Seq_iff. exists [46%N], b. split; [done|].
      split; [by apply lang_Char_iff|by apply lang_number].
Qed.

(** The texts of [r(,r)*] are the non-empty lists of texts of [r],
    joined with commas. *)
Lemma lang_list_of r w :
  lang (Teach.list_of r) w
  <-> exists items, items <> [] /\ Forall (lang r) items /\
                    w = JsArray.join (js ",") items.
Proof.
  assert (Hjoin : forall x xs,
            JsArray.join (js ",") (x :: xs)
            = x ++ concat (map (fun y => 44%N :: y) xs)).
  { intros x xs. revert x. induction xs as [|y xs IH]; intros x.
    - simpl. by rewrite app_nil_r.
    - change (JsArray.join (js ",") (x :: y :: xs))
        with (x ++ js "," ++ JsArray.join (js ",") (y :: xs)).
      rewrite IH. done. }
  unfold Teach.list_of. rewrite lang_Seq_iff. split.
  - intros (w1 & w2 & -> & H1 & (ws & Hws & ->)%lang_Star_iff).
    assert (Hitems : exists xs,
              Forall (lang r) xs /\
              concat ws = concat (map (fun y => 44%N :: y) xs)).
    { clear H1. induction Hws as [|w ws Hw _ (xs & Hxs & IH)].
      - by exists [].
      - apply lang_Seq_iff in Hw as (c & y & -> & ->%lang_Char_iff & Hy).
        exists (y :: xs). split; [by constructor|]. simpl. by rewrite IH. }
    destruct Hitems as (xs & Hxs & ->).
    exists (w1 :: xs). split; [done|]. split; [by constructor|].
    by rewrite Hjoin.
  - intros (items & Hne & Hall & ->).
    destruct Hall as [|x xs Hx Hxs]; [done|].
    exists x, (concat (map (fun y => 44%N :: y) xs)).
    split; [by rewrite Hjoin|]. split; [done|].
    apply lang_Star_iff. exists (map (fun y => 44%N :: y) xs).
    split; [|done]. apply Forall_map. eapply Forall_impl; [exact Hxs|].
    intros y Hy. apply lang_Seq_iff. exists [44%N], y.
    split; [done|]. split; [by apply lang_Char_iff|done].
Qed.

Lemma plain_number : plain Teach.number.
Proof. by repeat split. Qed.

Lemma plain_range : plain Teach.range.
Proof. by repeat split. Qed.

Lemma plain_list_of r : plain r -> plain (Teach.list_of r).
Proof. by repeat split. Qed.

(** X21.  [isGroupIdList] accepts (returns [false] for) exactly the
    non-empty lists of non-empty runs of decimal digits, joined with
    commas. *)
Theorem group_id_lists (value : JsString) :
  Teach.isGroupIdList value = false
  <-> exists ids, ids <> [] /\ Forall is_number ids /\
                  value = JsArray.join (js ",") ids.
Proof.
  unfold Teach.isGroupIdList. rewrite negb_false_iff.
  rewrite test_whole by apply plain_list_of, plain_number.
  rewrite lang_list_of. split; intros (ids & Hne & Hall & ->);
    exists ids; (split; [done|]); (split; [|done]);
    (eapply Forall_impl; [exact Hall|]); intros w; apply lang_number.
Qed.

(** X22.  [isDialogueIdList] accepts (returns [false] for) exactly
    the non-empty comma-separated lists whose items are a number, or two
    numbers with [..] in between. *)
Theorem dialogue_id_lists (value : JsString) :
  Teach.isDialogueIdList value = false
  <-> exists items, items <> [] /\ Forall is_range items /\
                    value = JsArray.join (js ",") items.
Proof.
  unfold Teach.isDialogueIdList. rewrite negb_false_iff.
  rewrite test_whole by apply plain_list_of, plain_range.
  rewrite lang_list_of. split; intros (ids & Hne & Hall & ->);
    exists ids; (split; [done|]); (split; [|done]);
    (eapply Forall_impl; [exact Hall|]); intros w; apply lang_range.
Qed.

(** X23.  Every value [isGroupIdList] accepts is accepted by
    [isDialogueIdList] as well. *)
Theorem group_id_lists_are_dialogue_id_lists (value : JsString) :
  Teach.isGroupIdList value = false -> Teach.isDialogueIdList value = false.
Proof.
  unfold Teach.isGroupIdList, Teach.isDialogueIdList.
  rewrite !negb_false_iff.
  rewrite (test_whole _ (Teach.list_of Teach.number))
    by apply plain_list_of, plain_number.
  rewrite (test_whole _ (Teach.list_of Teach.range))
    by apply plain_list_of, plain_range.
  rewrite !lang_list_of.
  intros (ids & Hne & Hall & ->). exists ids. split; [done|].
  split; [|done]. eapply Forall_impl; [exact Hall|].
  intros w Hw%lang_number. apply lang_range. by left.
Qed.

(** ["1,22"] is accepted by both validators; ["1..3"] only by the one
    for dialogue ids. *)
Lemma group_id_lists_are_dialogue_id_lists_witness :
  Teach.isGroupIdList (js "1,22") = false /\
  Teach.isDialogueIdList (js "1,22") = false /\
  Teach.isGroupIdList (js "1..3") = true /\
  Teach.isDialogueIdList (js "1..3") = false.
Proof.
  split; [vm_compute; reflexivity|].
  split; [|split; vm_compute; reflexivity].
  apply (group_id_lists_are_dialogue_id_lists (js "1,22")).
  vm_compute. reflexivity.
Defined.

(** ** The nickname pattern and [_stripNickname] *)

Lemma startsWith_iff p s :
  Js.startsWith p s = true <-> exists r, s = p ++ r.
Proof.
  split.
  - revert s. induction p as [|a p IH]; intros s; simpl; [by exists s|].
    destruct s as [|b s]; [done|].
    intros [->%N.eqb_eq (r & ->)%IH]%andb_true_iff. by exists r.
  - intros (r & ->). apply startsWith_app.
Qed.

(** The separator pattern finds a match at the start of a text exactly
    when [exec_separator] does. *)
Lemma separator_leading rest :
  (exists w after, rest = w ++ after /\ lang separator w)
  <-> Js.exec_separator rest <> None.
Proof.
  unfold separator. split.
  - intros (w & after & -> & [H|H]%lang_Alt_iff).
    + apply lang_Seq_iff in H as (w1 & w2 & -> & (c & -> & Hc)%lang_Class_iff
                                  & _).
      simpl. by rewrite Hc.
    + apply lang_Plus_Class in H as [Hne H].
      destruct H as [|c w Hc _]; [done|]. simpl. rewrite Hc.
      by destruct (_ || _).
  - destruct rest as [|c r]; simpl; [done|].
    destruct (_ || _) eqn:Ec.
    + intros _. exists [c], r. split; [done|]. apply lang_Alt_iff. left.
      apply lang_Seq_iff. exists [c], []. split; [done|].
      split; [apply lang_Class_iff; eauto|]. by apply lang_Star_Class.
    + destruct (Js.is_space c) eqn:Es; [|done].
      intros _. exists [c], r. split; [done|]. apply lang_Alt_iff. right.
      apply lang_Plus_Class. split; [done|]. by repeat constructor.
Qed.

Lemma lang_alternatives p more w :
  lang (fold_left (fun r q => RegExp.Alt r (RegExp.Literal q)) more
          (RegExp.Literal p)) w
  <-> w ∈ p :: more.
Proof.
  assert (H : forall r0 (P : JsString -> Prop),
            (forall w, lang r0 w <-> P w) ->
            forall w,
              lang (fold_left (fun r q => RegExp.Alt r (RegExp.Literal q))
                      more r0) w
              <-> P w \/ w ∈ more).
  { induction more as [|q more IH]; intros r0 P HP w0; simpl.
    - rewrite HP. split; [by left|]. intros [|?%elem_of_nil]; done.
    - rewrite (IH _ (fun w => P w \/ w = q)).
      + rewrite elem_of_cons. tauto.
      + intros w1. by rewrite lang_Alt_iff, HP, lang_Literal_iff. }
  rewrite (H _ (fun w => w = p)) by apply lang_Literal_iff.
  by rewrite elem_of_cons.
Qed.

Lemma plain_Literal t : plain (RegExp.Literal t).
Proof. induction t; by simpl. Qed.

Lemma plain_alternatives p more :
  plain (fold_left (fun r q => RegExp.Alt r (RegExp.Literal q)) more
           (RegExp.Literal p)).
Proof.
  assert (H : forall r0, plain r0 ->
            plain (fold_left (fun r q => RegExp.Alt r (RegExp.Literal q))
                     more r0)).
  { induction more as [|q more IH]; intros r0 H0; simpl; [done|].
    apply IH. split; [done|apply plain_Literal]. }
  apply H, plain_Literal.
Qed.

Lemma plain_separator : plain separator.
Proof. by repeat split. Qed.

Lemma strip_loop_matches nicknames content :
  Parser.strip_loop nicknames content <> None
  <-> exists nick, nick ∈ nicknames /\ nickname_matches nick content = true.
Proof.
  induction nicknames as [|nick more IH]; simpl.
  - split; [done|]. by intros (? & ?%elem_of_nil & _).
  - unfold nickname_matches at 1.
    destruct (Js.startsWith nick content) eqn:Es; simpl.
    + destruct (Js.exec_separator _) as [capture|] eqn:Ec.
      * split; [|done]. intros _. exists nick. split; [by left|].
        unfold nickname_matches. by rewrite Es, Ec.
      * rewrite IH. split.
        -- intros (n & Hn & Hm). exists n. split; [by right|done].
        -- intros (n & [->|Hn]%elem_of_cons & Hm); [|by eauto].
           unfold nickname_matches in Hm. by rewrite Es, Ec in Hm.
    + rewrite IH. split.
      * intros (n & Hn & Hm). exists n. split; [by right|done].
      * intros (n & [->|Hn]%elem_of_cons & Hm); [|by eauto].
        unfold nickname_matches in Hm. by rewrite Es in Hm.
Qed.

Lemma nickname_matches_iff nick content :
  nickname_matches nick content = true
  <-> exists sp after, content = nick ++ sp ++ after /\ lang separator sp.
Proof.
  unfold nickname_matches. rewrite andb_true_iff, startsWith_iff. split.
  - intros [(r & ->) H]. rewrite slice_app in H.
    destruct (Js.exec_separator r) eqn:E; [|done].
    destruct (proj2 (separator_leading r)) as (sp & after & -> & L);
      [by rewrite E|]. by exists sp, after.
  - intros (sp & after & -> & L). split; [by eexists|].
    rewrite slice_app.
    destruct (Js.exec_separator (sp ++ after)) eqn:E; [done|].
    exfalso. by apply (proj1 (separator_leading (sp ++ after))); eauto.
Qed.

Lemma lang_separator_head sp :
  lang separator sp ->
  exists c r, sp = c :: r /\ Js.startsWith (js "@") sp = false.
Proof.
  unfold separator. intros [H|H]%lang_Alt_iff.
  - apply lang_Seq_iff in H as (w1 & w2 & -> & (c & -> & Hc)%lang_Class_iff
                                & _).
    exists c, w2. split; [done|].
    destruct (Js.startsWith _ _) eqn:E; [|done].
    apply startsWith_iff in E as (r & E). cbv in E. injection E as -> _.
    by vm_compute in Hc.
  - apply lang_Plus_Class in H as [Hne H].
    destruct H as [|c w Hc _]; [done|]. exists c, w. split; [done|].
    destruct (Js.startsWith _ _) eqn:E; [|done].
    apply startsWith_iff in E as (r & E). cbv in E. injection E as -> _.
    by vm_compute in Hc.
Qed.

Section NameRE.
Variable config : Config.

Lemma nameRE_leading p more content :
  makeArray (nickname config) = p :: more ->
  RegExp.test (prepare config) content = true
  <-> exists a nick sp after,
        (a = [] \/ a = js "@") /\ nick ∈ p :: more /\ lang separator sp /\
        content = a ++ nick ++ sp ++ after.
Proof.
  intros Hn. unfold prepare, createLeadingRE. rewrite Hn.
  rewrite test_leading
    by (split; [by repeat split|];
        split; [apply plain_alternatives|apply plain_separator]).
  split.
  - intros (w & after & -> & L).
    apply lang_Seq_iff in L as (a & w1 & -> & La%lang_Opt_iff & L).
    apply lang_Seq_iff in L as (nick & sp & -> & Lnick%lang_alternatives
                                & Lsp).
    exists a, nick, sp, after. split.
    + destruct La as [->%lang_Char_iff| ->]; [by right|by left].
    + split; [done|]. split; [done|]. by rewrite <- !app_assoc.
  - intros (a & nick & sp & after & Ha & Hnick & Lsp & ->).
    exists (a ++ nick ++ sp), after. split; [by rewrite <- !app_assoc|].
    apply lang_Seq_iff. exists a, (nick ++ sp). split; [done|]. split.
    + apply lang_Opt_iff. destruct Ha as [->| ->]; [by right|left].
      by apply lang_Char_iff.
    + apply lang_Seq_iff. exists nick, sp. split; [done|].
      split; [by apply lang_alternatives|done].
Qed.

(** X24.  The pattern [prepare] stores in [_nameRE] and
    [_stripNickname] recognise the same messages, up to two cases.
    Whenever [_stripNickname] returns a string, the pattern matches.
    When no configured nickname starts with ["@"] (and there is one),
    a message the pattern matches is one [_stripNickname] returns a
    string for.  Without any nickname [_stripNickname] returns
    [undefined] for every message, while the pattern [/$^/] matches the
    empty message and no other. *)
Theorem nameRE_and_stripNickname (content : JsString) :
  (Parser._stripNickname config content <> None ->
   RegExp.test (prepare config) content = true) /\
  (Forall (fun nick => Js.startsWith (js "@") nick = false)
          (makeArray (nickname config)) ->
   makeArray (nickname config) <> [] ->
   RegExp.test (prepare config) content = true ->
   Parser._stripNickname config content <> None) /\
  (makeArray (nickname config) = [] ->
   Parser._stripNickname config content = None /\
   (RegExp.test (prepare config) content = true <-> content = [])).
Proof.
  unfold Parser._stripNickname.
  destruct (makeArray (nickname config)) as [|p more] eqn:Hn.
  { split; [done|]. split; [done|]. intros _. split; [done|].
    unfold prepare, createLeadingRE. rewrite Hn. rewrite test_matches. split.
    - intros (i & j & Hi & Hm).
      inversion Hm as [| | | |? ? ? k ? He Hb| | | |]; subst.
      inversion He; subst. inversion Hb as [| H0 H1 | | | | | | |].
      by apply nil_length_inv.
    - intros ->. exists 0%nat, 0%nat. split; [simpl; lia|].
      econstructor; [apply (matches_Eol [])|constructor]. }
  rewrite !strip_loop_matches. rewrite (nameRE_leading p more) by done.
  split; [|split; [|done]].
  - intros (nick & Hnick & (sp & after & Hc & L)%nickname_matches_iff).
    destruct (Js.startsWith (js "@") content) eqn:Eat.
    + apply startsWith_iff in Eat as (r & ->).
      change (Js.slice 1 (js "@" ++ r)) with r in Hc. subst r.
      exists (js "@"), nick, sp, after. split; [by right|done].
    + exists [], nick, sp, after. split; [by left|done].
  - intros Hat _ (a & nick & sp & after & Ha & Hnick & L & ->).
    exists nick. split; [done|]. apply nickname_matches_iff.
    exists sp, after. split; [|done].
    destruct Ha as [->| ->].
    + assert (Js.startsWith (js "@") ([] ++ nick ++ sp ++ after) = false)
        as ->; [|done].
      rewrite Forall_forall in Hat. specialize (Hat _ Hnick).
      destruct nick as [|c nick]; [|exact Hat].
      destruct (lang_separator_head _ L) as (c & r & -> & Hc). exact Hc.
    + rewrite startsWith_app. done.
Qed.
End NameRE.

(** ["@Bot, hi"] with the nickname ["Bot"]: the nickname is stripped,
    and the pattern matches. *)
Lemma nameRE_and_stripNickname_witness :
  Parser._stripNickname (Sample.config (Single (js "Bot")) [[]])
    (js "@Bot, hi") = Some (js "hi") /\
  RegExp.test (prepare (Sample.config (Single (js "Bot")) [[]]))
    (js "@Bot, hi") = true.
Proof.
  split; [reflexivity|].
  apply (proj1 (nameRE_and_stripNickname
                  (Sample.config (Single (js "Bot")) [[]]) (js "@Bot, hi"))).
  discriminate.
Defined.

(** Without the condition on the nicknames the two disagree: with the
    nickname ["@bot"] the pattern matches ["@bot, hi"], from which
    [_stripNickname] strips nothing. *)
Lemma nickname_with_at_is_matched_but_not_stripped :
  let config := Sample.config (Single (js "@bot")) [[]] in
  RegExp.test (prepare config) (js "@bot, hi") = true /\
  Parser._stripNickname config (js "@bot, hi") = None.
Proof. split; vm_compute; reflexivity. Qed.

(** ** Sorting and comparing arrays *)

Lemma leb_total a b : JsArray.leb a b = true \/ JsArray.leb b a = true.
Proof.
  revert b. induction a as [|x a IH]; intros [|y b]; simpl; auto.
  destruct (N.lt_total x y) as [H|[->|H]].
  - left. apply N.ltb_lt in H. by rewrite H.
  - rewrite N.eqb_refl, N.ltb_irrefl. simpl. apply IH.
  - right. apply N.ltb_lt in H. by rewrite H.
Qed.

Lemma leb_trans a b c :
  JsArray.leb a b = true -> JsArray.leb b c = true -> JsArray.leb a c = true.
Proof.
  revert b c. induction a as [|x a IH]; intros [|y b] [|z c]; simpl; try done.
  intros [H1|[H1 H1']%andb_true_iff]%orb_true_iff
         [H2|[H2 H2']%andb_true_iff]%orb_true_iff;
    rewrite ?N.ltb_lt, ?N.eqb_eq in *; apply orb_true_iff.
  - left. apply N.ltb_lt. lia.
  - left. apply N.ltb_lt. lia.
  - left. apply N.ltb_lt. lia.
  - right. apply andb_true_iff. split; [apply N.eqb_eq; lia|by eapply IH].
Qed.

Lemma leb_antisym a b :
  JsArray.leb a b = true -> JsArray.leb b a = true -> a = b.
Proof.
  revert b. induction a as [|x a IH]; intros [|y b]; simpl; try done.
  intros [H1|[H1 H1']%andb_true_iff]%orb_true_iff
         [H2|[H2 H2']%andb_true_iff]%orb_true_iff;
    rewrite ?N.ltb_lt, ?N.eqb_eq in *; try lia.
  subst. f_equal. by apply IH.
Qed.

#[local] Instance le_total : Total JsArray.le.
Proof. intros a b. apply leb_total. Qed.

#[local] Instance le_trans : Transitive JsArray.le.
Proof. intros a b c. apply leb_trans. Qed.

#[local] Instance le_antisym : AntiSymm (=) JsArray.le.
Proof. intros a b. apply leb_antisym. Qed.

Lemma sort_Permutation l : JsArray.sort l ≡ₚ l.
Proof. apply merge_sort_Permutation. Qed.

Lemma sort_Sorted l : Sorted JsArray.le (JsArray.sort l).
Proof. apply Sorted_merge_sort, _. Qed.

(** Arrays with the same elements are the same once sorted. *)
Lemma sort_unique l1 l2 : l1 ≡ₚ l2 -> JsArray.sort l1 = JsArray.sort l2.
Proof.
  intros H. apply (Sorted_unique JsArray.le); try apply sort_Sorted.
  by rewrite !sort_Permutation.
Qed.

Lemma sort_sorted l : Sorted JsArray.le l -> JsArray.sort l = l.
Proof.
  intros H. apply (Sorted_unique JsArray.le); [apply sort_Sorted|done|].
  apply sort_Permutation.
Qed.

Lemma join_cons x l :
  JsArray.join (js ",") (x :: l) = x ++ joined_rest l.
Proof. destruct l; simpl; [by rewrite app_nil_r|done]. Qed.

Lemma first_item x y t1 t2 :
  Js.comma ∉ x -> Js.comma ∉ y ->
  (t1 = [] \/ exists r, t1 = Js.comma :: r) ->
  (t2 = [] \/ exists r, t2 = Js.comma :: r) ->
  x ++ t1 = y ++ t2 -> x = y /\ t1 = t2.
Proof.
  revert y. induction x as [|c x IH]; intros [|d y] Hx Hy H1 H2; simpl.
  - done.
  - intros ->. destruct H1 as [H1|(r & H1)]; [done|].
    injection H1 as Hd _. exfalso. apply Hy. rewrite Hd. by left.
  - intros <-. destruct H2 as [H2|(r & H2)]; [done|].
    injection H2 as Hc _. exfalso. apply Hx. rewrite Hc. by left.
  - intros [= -> E]. apply IH in E as [-> ->]; try done.
    + intros ?. apply Hx. by right.
    + intros ?. apply Hy. by right.
Qed.

Lemma joined_rest_cases l :
  joined_rest l = [] \/ exists r, joined_rest l = Js.comma :: r.
Proof. destruct l; [by left|right]. by eexists. Qed.

(** Joining is one-to-one on elements that are not empty and have no
    comma. *)
Lemma join_inj l1 l2 :
  Forall plain_item l1 -> Forall plain_item l2 ->
  JsArray.join (js ",") l1 = JsArray.join (js ",") l2 -> l1 = l2.
Proof.
  intros H1. revert l2. induction H1 as [|x l1 [Hx Hcx] H1 IH];
    intros l2 H2.
  - destruct H2 as [|y l2 [Hy _] _]; [done|].
    rewrite join_cons. simpl. by destruct y.
  - destruct H2 as [|y l2 [Hy Hcy] H2].
    { rewrite join_cons. simpl. by destruct x. }
    rewrite !join_cons. intros E.
    apply first_item in E as [-> E]; try done; try apply joined_rest_cases.
    f_equal. destruct l1 as [|x1 l1], l2 as [|y1 l2]; try done.
    apply IH; [done|]. by injection E.
Qed.

(** X25.  [equal] answers [true] for two arrays with the same
    elements in any order.  When no element is empty or has a comma, it
    answers [true] for such arrays only. *)
Theorem equal_compares_the_elements (array1 array2 : list JsString) :
  (array1 ≡ₚ array2 -> fst (Teach.equal array1 array2) = true) /\
  (Forall plain_item array1 -> Forall plain_item array2 ->
   fst (Teach.equal array1 array2) = true -> array1 ≡ₚ array2).
Proof.
  unfold Teach.equal, Js.eqb. simpl. split.
  - intros H. rewrite (sort_unique _ _ H). by apply bool_decide_eq_true_2.
  - intros H1 H2 E%bool_decide_eq_true_1.
    apply join_inj in E.
    + by rewrite <- (sort_Permutation array1), E, sort_Permutation.
    + by rewrite sort_Permutation.
    + by rewrite sort_Permutation.
Qed.

(** X26.  [equal] compares the joined texts, not the elements:
    the one-element array [[x + "," + y]] is equal to [[x, y]] whenever
    [x <= y], and the empty array is equal to the array that holds the
    empty string alone. *)
Theorem equal_confuses_joined_elements (x y : JsString) :
  JsArray.le x y ->
  fst (Teach.equal [x ++ js "," ++ y] [x; y]) = true /\
  fst (Teach.equal [] [[]]) = true.
Proof.
  intros Hxy. split; [|done].
  unfold Teach.equal, Js.eqb. cbn [fst].
  apply bool_decide_eq_true_2.
  rewrite (sort_sorted [x; y]) by (by repeat constructor).
  by rewrite (sort_sorted [_]) by (by repeat constructor).
Qed.

(** [equal] sorts the two arrays it is given in place:
    afterwards each holds the elements it held before, in ascending
    order.  Its answer and these contents do not depend on the order
    the elements were in. *)
Lemma equal_sorts_its_arguments (array1 array2 : list JsString) :
  let after := snd (Teach.equal array1 array2) in
  fst after ≡ₚ array1 /\ Sorted JsArray.le (fst after) /\
  snd after ≡ₚ array2 /\ Sorted JsArray.le (snd after) /\
  (forall array1' array2',
     array1' ≡ₚ array1 -> array2' ≡ₚ array2 ->
     Teach.equal array1' array2' = Teach.equal array1 array2).
Proof.
  simpl. split; [apply sort_Permutation|].
  split; [apply sort_Sorted|]. split; [apply sort_Permutation|].
  split; [apply sort_Sorted|].
  intros a1 a2 H1 H2. unfold Teach.equal.
  by rewrite (sort_unique _ _ H1), (sort_unique _ _ H2).
Qed.

(** The arrays [["b"; "a"]] and [["a"; "b"]] are equal. *)
Lemma equal_compares_the_elements_witness :
  fst (Teach.equal [js "b"; js "a"] [js "a"; js "b"]) = true.
Proof.
  apply (proj1 (equal_compares_the_elements [js "b"; js "a"]
                  [js "a"; js "b"])).
  apply perm_swap.
Defined.

(** The array [["a,b"]] is equal to [["a"; "b"]]. *)
Lemma equal_confuses_joined_elements_witness :
  fst (Teach.equal [js "a,b"] [js "a"; js "b"]) = true.
Proof.
  apply (proj1 (equal_confuses_joined_elements (js "a") (js "b") eq_refl)).
Defined.

(** ** Saving changed dialogues *)

Section UpdateFacts.
Context {Value Row : Type}.
Variable pick : Dialogue.Observed Value -> gset JsString -> Row.
Implicit Types (d : Dialogue.Observed Value) (heap : Dialogue.Heap Value)
               (dialogues seen : list nat) (r : nat).

Lemma saved_unchanged d : dom (Dialogue._diff d) = ∅ -> saved d = d.
Proof. intros H%dom_empty_inv_L. destruct d. simpl in H. by subst. Qed.

(** When [heap] is [heap0] after the dialogues [seen] were visited,
    the test of the second loop asks for a change in [heap0] and a
    first visit. *)
Lemma visit_seen heap0 heap seen r :
  (forall x, heap x = if decide (x ∈ seen) then saved (heap0 x)
                      else heap0 x) ->
  (dom (Dialogue._diff (heap r)) = ∅ <-> ~ (changed heap0 r /\ r ∉ seen)) /\
  Dialogue.id (heap r) = Dialogue.id (heap0 r) /\
  saved (heap r) = saved (heap0 r).
Proof.
  intros Hinv. rewrite Hinv. unfold changed.
  destruct (decide (r ∈ seen)) as [Hin|Hout].
  - split; [|done]. simpl. rewrite dom_empty_L. split; [|done].
    intros _ [_ H]. done.
  - split; [|done]. split.
    + intros He [Hc _]. done.
    + intros Hn. destruct (decide (dom (Dialogue._diff (heap0 r)) = ∅));
        [done|]. exfalso. by apply Hn.
Qed.

(** The second loop, from any point on. *)
Lemma visit_all fields heap0 dialogues seen heap argv data :
  (forall x, heap x = if decide (x ∈ seen) then saved (heap0 x)
                      else heap0 x) ->
  exists heap',
    fold_left (Dialogue.visit pick fields) dialogues (heap, argv, data)
    = (heap',
       Dialogue.mkArgv
         (Dialogue.skipped argv
          ++ map (fun r => Dialogue.id (heap0 r)) (skips heap0 seen dialogues))
         (Dialogue.updated argv
          ++ map (fun r => Dialogue.id (heap0 r)) (saves heap0 seen dialogues)),
       data ++ map (fun r => pick (saved (heap0 r)) fields)
                   (saves heap0 seen dialogues)) /\
    forall x, heap' x = if decide (x ∈ dialogues \/ x ∈ seen)
                        then saved (heap0 x) else heap0 x.
Proof.
  revert seen heap argv data.
  induction dialogues as [|r dialogues IH]; intros seen heap argv data Hinv.
  - exists heap. simpl. destruct argv. rewrite !app_nil_r. split; [done|].
    intros x. rewrite Hinv.
    destruct (decide (x ∈ seen)), (decide (x ∈ [] \/ x ∈ seen))
      as [[?%elem_of_nil|?]|?]; try done; tauto.
  - destruct (visit_seen heap0 heap seen r Hinv) as (Htest & Hid & Hsaved).
    cbn [fold_left saves skips]. unfold Dialogue.visit at 2.
    destruct (decide (dom (Dialogue._diff (heap r)) = ∅)) as [He|Hne].
    + destruct (decide (changed heap0 r /\ r ∉ seen)) as [Hc|_];
        [by apply Htest in He|].
      destruct (IH (r :: seen) heap
                  (Dialogue.mkArgv
                     (Dialogue.skipped argv ++ [Dialogue.id (heap r)])
                     (Dialogue.updated argv)) data) as (heap' & Hfold & Hheap).
      { intros x. destruct (decide (x = r)) as [->|Hxr].
        - rewrite decide_True by (by left).
          by rewrite <- Hsaved, (saved_unchanged _ He).
        - rewrite Hinv. destruct (decide (x ∈ seen)).
          + by rewrite decide_True by (by right).
          + rewrite decide_False; [done|].
            by intros [?|?]%elem_of_cons. }
      exists heap'. split.
      * rewrite Hfold. cbn [Dialogue.skipped Dialogue.updated map].
        by rewrite Hid, <- !app_assoc.
      * intros x. rewrite Hheap.
        destruct (decide (x ∈ dialogues \/ x ∈ r :: seen)) as [H1|H1],
                 (decide (x ∈ r :: dialogues \/ x ∈ seen)) as [H2|H2];
          try done; exfalso; set_solver.
    + destruct (decide (changed heap0 r /\ r ∉ seen)) as [Hc|Hn];
        [|by apply Htest in Hn].
      destruct (IH (r :: seen) (<[r := saved (heap r)]> heap)
                  (Dialogue.mkArgv (Dialogue.skipped argv)
                     (Dialogue.updated argv ++ [Dialogue.id (heap r)]))
                  (data ++ [pick (saved (heap r)) fields]))
        as (heap' & Hfold & Hheap).
      { intros x. destruct (decide (x = r)) as [->|Hxr].
        - rewrite fn_lookup_insert, decide_True by (by left). done.
        - rewrite fn_lookup_insert_ne by done. rewrite Hinv.
          destruct (decide (x ∈ seen)).
          + by rewrite decide_True by (by right).
          + rewrite decide_False; [done|].
            by intros [?|?]%elem_of_cons. }
      exists heap'. split.
      * match goal with
        | |- ?lhs = _ =>
            change lhs
              with (fold_left (Dialogue.visit pick fields) dialogues
                      (<[r := saved (heap r)]> heap,
                       Dialogue.mkArgv (Dialogue.skipped argv)
                         (Dialogue.updated argv ++ [Dialogue.id (heap r)]),
                       data ++ [pick (saved (heap r)) fields]))
        end.
        rewrite Hfold. cbn [Dialogue.skipped Dialogue.updated map].
        by rewrite Hid, Hsaved, <- !app_assoc.
      * intros x. rewrite Hheap.
        destruct (decide (x ∈ dialogues \/ x ∈ r :: seen)) as [H1|H1],
                 (decide (x ∈ r :: dialogues \/ x ∈ seen)) as [H2|H2];
          try done; exfalso; set_solver.
Qed.

Lemma saves_spec heap seen dialogues :
  NoDup (saves heap seen dialogues) /\
  forall r, r ∈ saves heap seen dialogues
            <-> r ∈ dialogues /\ changed heap r /\ r ∉ seen.
Proof.
  revert seen. induction dialogues as [|x dialogues IH]; intros seen.
  - split; [constructor|]. intros r. simpl. split; [by intros ?%elem_of_nil|].
    by intros [?%elem_of_nil _].
  - destruct (IH (x :: seen)) as [Hnd Hin]. cbn [saves].
    destruct (decide (changed heap x /\ x ∉ seen)) as [[Hc Hx]|Hn].
    + split.
      * apply NoDup_cons_2; [|done].
        intros (_ & _ & Hout)%Hin. apply Hout. by left.
      * intros r. rewrite !elem_of_cons, Hin, elem_of_cons. split.
        -- intros [->|(? & ? & Hout)]; [by auto|].
           split; [by right|]. split; [done|]. intros ?. apply Hout. by right.
        -- intros ([->|?] & ? & ?); [by left|].
           destruct (decide (r = x)) as [->|?]; [by left|right].
           split; [done|]. split; [done|]. by intros [?|?].
    + split; [done|].
      intros r. rewrite Hin, !elem_of_cons. split.
      * intros (? & ? & Hout). split; [by right|]. split; [done|].
        intros ?. apply Hout. by right.
      * intros ([->|?] & ? & ?); [by exfalso; apply Hn|].
        split; [done|]. split; [done|].
        intros [->|?]; [by apply Hn|done].
Qed.

Lemma visits_Permutation heap seen dialogues :
  dialogues ≡ₚ skips heap seen dialogues ++ saves heap seen dialogues.
Proof.
  revert seen. induction dialogues as [|x dialogues IH]; intros seen; [done|].
  cbn [saves skips]. destruct (decide _).
  - rewrite <- Permutation_middle. by constructor.
  - simpl. by constructor.
Qed.

Lemma visits_of_distinct heap seen dialogues :
  NoDup dialogues -> (forall r, r ∈ dialogues -> r ∉ seen) ->
  saves heap seen dialogues = filter (changed heap) dialogues /\
  skips heap seen dialogues = filter (fun r => ~ changed heap r) dialogues.
Proof.
  revert seen. induction dialogues as [|x dialogues IH]; intros seen Hnd Hout;
    [done|].
  pose proof (NoDup_cons_1_1 _ _ Hnd) as Hx.
  apply NoDup_cons_1_2 in Hnd.
  destruct (IH (x :: seen) Hnd) as [IH1 IH2].
  { intros r Hr [->|?]%elem_of_cons; [done|]. apply (Hout r); [by right|done]. }
  cbn [saves skips]. rewrite !filter_cons, IH1, IH2.
  assert (Hxs : x ∉ seen) by (apply Hout; by left).
  destruct (decide (changed heap x /\ x ∉ seen)) as [[Hc _]|Hn].
  - rewrite decide_True by done. by rewrite decide_False by tauto.
  - assert (Hc : ~ changed heap x) by tauto.
    rewrite decide_False by done. by rewrite decide_True by done.
Qed.

Lemma fields_of_spec heap dialogues k :
  k ∈ Dialogue.fields_of heap dialogues
  <-> k = js "id" \/
      exists r, r ∈ dialogues /\ k ∈ dom (Dialogue._diff (heap r)).
Proof.
  unfold Dialogue.fields_of.
  assert (H : forall (start : gset JsString),
            k ∈ fold_left
                  (fun fields r => fields ∪ dom (Dialogue._diff (heap r)))
                  dialogues start
            <-> k ∈ start \/
                exists r,
                  r ∈ dialogues /\ k ∈ dom (Dialogue._diff (heap r))).
  { induction dialogues as [|x dialogues IH]; intros start; simpl.
    - split; [by left|]. intros [|(? & ?%elem_of_nil & _)]; done.
    - rewrite IH, elem_of_union. split.
      + intros [[?|?]|(r & ? & ?)]; [by left| |].
        * right. exists x. split; [by left|done].
        * right. exists r. split; [by right|done].
      + intros [?|(r & [->|?]%elem_of_cons & ?)]; [by left; left| |].
        * left. by right.
        * right. by exists r. }
  rewrite H. by rewrite elem_of_singleton.
Qed.

(** The second loop on dialogues without changes. *)
Lemma visit_saved fields heap dialogues argv data :
  (forall r, r ∈ dialogues -> dom (Dialogue._diff (heap r)) = ∅) ->
  fold_left (Dialogue.visit pick fields) dialogues (heap, argv, data)
  = (heap,
     Dialogue.mkArgv
       (Dialogue.skipped argv
        ++ map (fun r => Dialogue.id (heap r)) dialogues)
       (Dialogue.updated argv),
     data).
Proof.
  revert argv. induction dialogues as [|r dialogues IH]; intros argv Hall.
  - simpl. destruct argv. by rewrite app_nil_r.
  - cbn [fold_left]. unfold Dialogue.visit at 2.
    rewrite decide_True by (apply Hall; by left).
    rewrite IH by (intros x Hx; apply Hall; by right).
    cbn [Dialogue.skipped Dialogue.updated map]. by rewrite <- app_assoc.
Qed.

(** X27.  [Dialogue.update] visits the dialogues of the array one
    after the other; the array may hold the same object more than
    once.  A visit saves the dialogue when it has a change and is
    visited for the first time: its id is appended to [argv.updated],
    its [_diff] is emptied, and one row, picked with the fields ["id"]
    and the keys of the changes of all the dialogues, is handed to the
    database.  Every other visit, of a dialogue without changes or of
    one saved at an earlier visit, appends its id to [argv.skipped].
    So every visit is reported once, every changed dialogue is saved
    exactly once, and afterwards the dialogues of the array have an
    empty [_diff] and their ids and other fields as before, the other
    objects being untouched.  When the array holds no object twice, the
    updated ids are those of the changed dialogues and the skipped ids
    those of the others, each in the order of the array. *)
Theorem update_reports_every_dialogue heap dialogues argv :
  let result := Dialogue.update pick heap dialogues argv in
  let heap' := fst (fst result) in
  let argv' := snd (fst result) in
  let data := snd result in
  let saves := saves heap [] dialogues in
  let skips := skips heap [] dialogues in
  (forall r, heap' r = if decide (r ∈ dialogues) then saved (heap r)
                       else heap r) /\
  Dialogue.skipped argv'
  = Dialogue.skipped argv ++ map (fun r => Dialogue.id (heap r)) skips /\
  Dialogue.updated argv'
  = Dialogue.updated argv ++ map (fun r => Dialogue.id (heap r)) saves /\
  data = map (fun r => pick (saved (heap r))
                         (Dialogue.fields_of heap dialogues)) saves /\
  NoDup saves /\
  (forall r, r ∈ saves <-> r ∈ dialogues /\ changed heap r) /\
  dialogues ≡ₚ skips ++ saves /\
  (NoDup dialogues ->
   saves = filter (changed heap) dialogues /\
   skips = filter (fun r => ~ changed heap r) dialogues) /\
  (forall k, k ∈ Dialogue.fields_of heap dialogues <->
             k = js "id" \/
             exists r, r ∈ dialogues /\ k ∈ dom (Dialogue._diff (heap r))).
Proof.
  intros result heap' argv' data sv sk.
  destruct (visit_all (Dialogue.fields_of heap dialogues) heap dialogues []
              heap argv [])
    as (h & Hfold & Hheap).
  { intros x. rewrite decide_False; [done|]. by intros ?%elem_of_nil. }
  subst heap' argv' data result. unfold Dialogue.update. rewrite Hfold.
  cbn [fst snd Dialogue.skipped Dialogue.updated app].
  destruct (saves_spec heap [] dialogues) as [Hnd Hin].
  split.
  { intros r. rewrite Hheap.
    destruct (decide (r ∈ dialogues \/ r ∈ [])) as [[?|?%elem_of_nil]|Hn],
             (decide (r ∈ dialogues)); try done. exfalso. apply Hn. by left. }
  split; [done|]. split; [done|]. split; [done|]. split; [done|].
  split.
  { intros r. subst sv. rewrite Hin. split.
    - by intros (? & ? & _).
    - intros [? ?]. split; [done|]. split; [done|]. by intros ?%elem_of_nil. }
  split; [apply visits_Permutation|].
  split.
  { intros Hd. apply visits_of_distinct; [done|].
    intros r _. by intros ?%elem_of_nil. }
  intros k. apply fields_of_spec.
Qed.

(** X28.  Calling [Dialogue.update] a second time on the same array
    saves nothing: no row is handed to the database, the objects are
    left as they are, and the id of every visit is appended to
    [argv.skipped]. *)
Theorem update_twice_saves_nothing heap dialogues argv :
  let result := Dialogue.update pick heap dialogues argv in
  let heap' := fst (fst result) in
  let argv' := snd (fst result) in
  Dialogue.update pick heap' dialogues argv'
  = (heap',
     Dialogue.mkArgv
       (Dialogue.skipped argv'
        ++ map (fun r => Dialogue.id (heap r)) dialogues)
       (Dialogue.updated argv'),
     []).
Proof.
  intros result heap' argv'.
  destruct (visit_all (Dialogue.fields_of heap dialogues) heap dialogues []
              heap argv [])
    as (h & Hfold & Hheap).
  { intros x. rewrite decide_False; [done|]. by intros ?%elem_of_nil. }
  assert (Hh : heap' = h).
  { subst heap' result. unfold Dialogue.update. by rewrite Hfold. }
  assert (Hsaved : forall r, r ∈ dialogues -> heap' r = saved (heap r)).
  { intros r Hr. rewrite Hh, Hheap. rewrite decide_True; [done|by left]. }
  unfold Dialogue.update at 1. rewrite visit_saved.
  - f_equal. f_equal. f_equal. f_equal.
    apply list_fmap_ext. intros i r Hr.
    apply list_elem_of_lookup_2 in Hr. by rewrite (Hsaved r Hr).
  - intros r Hr. rewrite (Hsaved r Hr). simpl. apply dom_empty_L.
Qed.
End UpdateFacts.

(** One changed dialogue held twice by the array: it is saved at the
    first visit and skipped at the second, and one row is handed
    over. *)
Lemma update_of_a_dialogue_held_twice :
  let heap := fun _ : nat =>
                Dialogue.mkObserved 7 ∅ {[ js "answer" := 1%Z ]} in
  let result := Dialogue.update (fun d _ => Dialogue.id d) heap [0; 0]%nat
                  (Dialogue.mkArgv [] []) in
  Dialogue.updated (snd (fst result)) = [7] /\
  Dialogue.skipped (snd (fst result)) = [7] /\
  snd result = [7] /\
  saves heap [] [0; 0]%nat = [0%nat] /\ skips heap [] [0; 0]%nat = [0%nat].
Proof. repeat split; vm_compute; reflexivity. Qed.
